(** * easytestwrite2: the JSON subset matcher, the event storage, the
      locator model and the element resolution loop

    A shallow embedding of
    - [runtime/mobile-actions]: [tryParseJSON], [isPrimitive],
      [containsJsonData], [findKeyValueInTree], [matchJsonElement],
      [waitForUIStable], [findAllByLocator], [MobileActions.checkHasEvent],
      the job of [MobileActions.checkHasEventAsync],
      [MobileActions.waitForElements], [MobileActions.performScroll] and
      the scroll/swipe entry points, [MobileActions.tapArea],
      [tapElementArea] and [checkVisible] on an element;
    - [domain/events/storage]: [EventStorageImpl];
    - [core/locators/page-element]: [PageElement.get], [PageElement.getAll],
      the factories and [escapeXPath];
    - the local web server: [WebServer.handleBatch];
    - [core/constants].

    How the JavaScript is read:
    - a value is a value [JSON.parse] can produce; an object is its list
      of members in insertion order; [Object.entries] and
      [hasOwnProperty] see the own members, while [k in o] and [o[k]] in
      the matcher also see what a parsed object inherits from
      [Object.prototype] as the engine ships it: the built-in functions,
      which [typeof] calls ["function"] and [String] prints as
      [function NAME() { [native code] }], and [__proto__];
    - a call of the matcher nested in another takes room on the call
      stack, and the engine throws [RangeError] when there is none left;
    - a number is carried by its [String(n)] image, the only observation
      the matcher makes of a number besides [typeof] and truthiness; an
      [event_num], a timeout in seconds, an ordinal and a scroll count are
      integers, a scroll capacity and a coordinate are rationals: products
      are exact where the code rounds to a double, so at a capacity that
      is not a binary fraction a computed coordinate can be one off the
      code's; the calls issued, their number and the bounds proved of the
      coordinates do not depend on it;
    - a string is a sequence of 8-bit code units;
    - [JSON.parse] and [JSON.stringify] are parameters (class [Runtime]),
      with the one law the termination of the matcher rests on, and a
      reference instance to compute with;
    - an [async] method is a function of the world it runs in: the
      device's state, a clock in milliseconds and the calls issued so far;
      a thrown [Error] is its message;
    - the clock of [checkHasEvent] is the list of polls it allows. *)

From Stdlib Require Import String Ascii List ZArith QArith Qround Lia Lqa Bool DecimalString.
From stdpp Require Import base gmap.
Import ListNotations.

Local Open Scope string_scope.
Local Open Scope list_scope.

(** ** JavaScript values and the built-ins the code calls *)

Module Js.

#[warnings="-register-all"]
Inductive json : Type :=
| JNull
| JBool (b : bool)
| JNum (repr : string)
| JStr (s : string)
| JArr (items : list json)
| JObj (members : list (string * json)).

(** [typeof v] *)
Definition typeof (v : json) : string :=
  match v with
  | JNull => "object"
  | JBool _ => "boolean"
  | JNum _ => "number"
  | JStr _ => "string"
  | JArr _ => "object"
  | JObj _ => "object"
  end.

(** [!!v]: [null], [false], [0], [-0], [NaN] and [""] are falsy. *)
Definition truthy (v : json) : bool :=
  match v with
  | JNull => false
  | JBool b => b
  | JNum r => negb (String.eqb r "0") && negb (String.eqb r "NaN")
  | JStr s => negb (String.eqb s "")
  | JArr _ => true
  | JObj _ => true
  end.

(** [Array.isArray(v)] *)
Definition Array_isArray (v : json) : bool :=
  match v with JArr _ => true | _ => false end.

(** [v === null] *)
Definition isNull (v : json) : bool :=
  match v with JNull => true | _ => false end.

(** The elements of an array. *)
Definition items (v : json) : list json :=
  match v with JArr l => l | _ => [] end.

(** [l.join(sep)] on strings *)
Fixpoint Array_join (sep : string) (l : list string) : string :=
  match l with
  | [] => EmptyString
  | [x] => x
  | x :: r => (x ++ sep ++ Array_join sep r)%string
  end.

(** [String(v)].  The matcher calls it on primitives only; an array
    prints its elements joined by commas, [null] as the empty text. *)
Fixpoint String_ (v : json) : string :=
  match v with
  | JNull => "null"
  | JBool true => "true"
  | JBool false => "false"
  | JNum r => r
  | JStr s => s
  | JArr l =>
      Array_join "," (map (fun x => match x with JNull => "" | _ => String_ x end) l)
  | JObj _ => "[object Object]"
  end.

(** [String(n)] for a non-negative integer [n]. *)
Definition String_nat (n : nat) : string :=
  NilZero.string_of_uint (Nat.to_uint n).

(** [String(z)] for an integer [z]. *)
Definition String_Z (z : Z) : string :=
  NilZero.string_of_int (Z.to_int z).

(** Own property lookup in the member list of an object. *)
Fixpoint assoc (k : string) (l : list (string * json)) : option json :=
  match l with
  | [] => None
  | (k', v) :: r => if String.eqb k' k then Some v else assoc k r
  end.

(** The index keys of an array, from [i] on: ["0"], ["1"], ... *)
Fixpoint indexed (i : nat) (l : list json) : list (string * json) :=
  match l with
  | [] => []
  | v :: r => (String_nat i, v) :: indexed (S i) r
  end.

(** [Object.entries(v)] for an object or an array. *)
Definition Object_entries (v : json) : list (string * json) :=
  match v with
  | JObj l => l
  | JArr l => indexed 0 l
  | _ => []
  end.

(** [v[k]] on own properties; [None] is [undefined]. *)
Definition getProp (v : json) (k : string) : option json :=
  match v with
  | JObj l => assoc k l
  | JArr l =>
      match assoc k (indexed 0 l) with
      | Some x => Some x
      | None => if String.eqb k "length" then Some (JNum (String_nat (length l))) else None
      end
  | _ => None
  end.

(** [s.startsWith("~")] paired with [s.slice(1)]. *)
Definition tilde_rest (s : string) : option string :=
  match s with
  | String c rest => if Ascii.eqb c "~"%char then Some rest else None
  | EmptyString => None
  end.

(** [s.startsWith(p)] *)
Fixpoint startsWith (s p : string) {struct p} : bool :=
  match p with
  | EmptyString => true
  | String a p' =>
      match s with
      | String b s' => Ascii.eqb a b && startsWith s' p'
      | EmptyString => false
      end
  end.

(** [s.includes(sub)] *)
Fixpoint includes (s sub : string) : bool :=
  startsWith s sub ||
  match s with
  | EmptyString => false
  | String _ r => includes r sub
  end.

(** The size of a value; [JSON.parse] never returns a value larger than
    the text it read. *)
Fixpoint jsize (v : json) : nat :=
  match v with
  | JNull | JBool _ | JNum _ => 1
  | JStr s => S (String.length s)
  | JArr l => S ((fix sum (l : list json) : nat :=
                    match l with [] => 0 | x :: r => jsize x + sum r end) l)
  | JObj l => S ((fix sum (l : list (string * json)) : nat :=
                    match l with [] => 0 | (_, x) :: r => jsize x + sum r end) l)
  end.

Definition jsize_items (l : list json) : nat :=
  fold_right (fun x n => jsize x + n) 0 l.

Definition jsize_members (l : list (string * json)) : nat :=
  fold_right (fun kv n => jsize (snd kv) + n) 0 l.

(** The two built-ins that are not code of the repository: [JSON.parse]
    ([None] when it throws) and [JSON.stringify]. *)
Class Runtime : Type := {
  JSON_parse : string -> option json;
  JSON_stringify : json -> string;
  JSON_parse_size : forall s v, JSON_parse s = Some v -> jsize v <= String.length s
}.

End Js.
Export Js.

(** ** The JSON subset matcher *)

Section Matcher.

Context {RT : Runtime}.

Definition tryParseJSON (s : string) : json :=
  match JSON_parse s with
  | Some v => v
  | None => JNull
  end.

Definition isPrimitive (v : json) : bool :=
  match v with
  | JNull => true
  | _ => negb (String.eqb (typeof v) "object")
  end.

(** [every]/[some] over a list with a callback that may run out of
    fuel; both stop at the first deciding element, as the built-ins do. *)
Fixpoint every_opt {A} (g : A -> option bool) (l : list A) : option bool :=
  match l with
  | [] => Some true
  | x :: r =>
      match g x with
      | None => None
      | Some false => Some false
      | Some true => every_opt g r
      end
  end.

Fixpoint some_opt {A} (g : A -> option bool) (l : list A) : option bool :=
  match l with
  | [] => Some false
  | x :: r =>
      match g x with
      | None => None
      | Some true => Some true
      | Some false => some_opt g r
      end
  end.

(** The both-primitive branch of [matchJsonElement], on the two
    stringifications. *)
Definition matchPrimitive (ev sv : string) : bool :=
  if String.eqb sv "*" then true
  else if String.eqb sv "" then String.eqb ev ""
  else match tilde_rest sv with
       | Some rest => includes ev rest
       | None => String.eqb ev sv
       end.

(** The members a parsed object inherits from [Object.prototype]: the
    built-in functions, by the name each prints with, and the accessor
    [__proto__]. *)
Definition prototypeFunction (k : string) : option string :=
  if String.eqb k "constructor" then Some "Object"
  else if String.eqb k "__defineGetter__" || String.eqb k "__defineSetter__"
          || String.eqb k "hasOwnProperty" || String.eqb k "__lookupGetter__"
          || String.eqb k "__lookupSetter__" || String.eqb k "isPrototypeOf"
          || String.eqb k "propertyIsEnumerable" || String.eqb k "toString"
          || String.eqb k "valueOf" || String.eqb k "toLocaleString"
       then Some k
  else None.

(** [String(f)] for the built-in function named [name]. *)
Definition functionText (name : string) : string :=
  ("function " ++ name ++ "() { [native code] }")%string.

(** [matchJsonElement(f, searchElement)] for a built-in function [f]:
    [typeof f] is ["function"], so [isPrimitive(f)] holds and no later
    branch applies. *)
Definition matchFunction (name : string) (searchElement : json) : bool :=
  if isPrimitive searchElement
  then matchPrimitive (functionText name) (String_ searchElement)
  else false.

(** [matchJsonElement(null, searchElement)] *)
Definition matchNull (searchElement : json) : bool :=
  if isPrimitive searchElement
  then matchPrimitive "null" (String_ searchElement)
  else false.

(** [matchJsonElement(Object.prototype, searchElement)]: the members of
    [Object.prototype] are its own, and its [__proto__] is [null]. *)
Definition matchObjectPrototype (searchElement : json) : bool :=
  match searchElement with
  | JObj sl =>
      forallb (fun ksv : string * json =>
                 match prototypeFunction (fst ksv) with
                 | Some name => matchFunction name (snd ksv)
                 | None =>
                     if String.eqb (fst ksv) "__proto__" then matchNull (snd ksv)
                     else false
                 end) sl
  | _ => false
  end.

(** [k in o && matchJsonElement(o[k], sv)] for a key [k] that is not an
    own key of the parsed object [o]. *)
Definition matchInherited (k : string) (sv : json) : bool :=
  match prototypeFunction k with
  | Some name => matchFunction name sv
  | None => if String.eqb k "__proto__" then matchObjectPrototype sv else false
  end.

(** [matchJsonElement] with a bound on the recursion depth; [None] only
    when the bound is reached. *)
Fixpoint matchJsonElement_fuel (fuel : nat) (eventElement searchElement : json)
  : option bool :=
  match fuel with
  | O => None
  | S fuel' =>
      if isPrimitive eventElement && isPrimitive searchElement then
        Some (matchPrimitive (String_ eventElement) (String_ searchElement))
      else
        let parsed :=
          if isPrimitive eventElement && String.eqb (typeof eventElement) "string"
          then tryParseJSON (String_ eventElement) else JNull in
        if negb (isNull parsed) then
          matchJsonElement_fuel fuel' parsed searchElement
        else if truthy eventElement && String.eqb (typeof eventElement) "object"
                && negb (Array_isArray eventElement)
                && truthy searchElement && String.eqb (typeof searchElement) "object"
                && negb (Array_isArray searchElement) then
          every_opt (fun ksv : string * json =>
                       match getProp eventElement (fst ksv) with
                       | Some v => matchJsonElement_fuel fuel' v (snd ksv)
                       | None => Some (matchInherited (fst ksv) (snd ksv))
                       end) (Object_entries searchElement)
        else if Array_isArray eventElement && Array_isArray searchElement then
          every_opt (fun se =>
                       some_opt (fun ee => matchJsonElement_fuel fuel' ee se)
                                (items eventElement)) (items searchElement)
        else Some false
  end.

(** [matchJsonElement(eventElement, searchElement)].  The bound
    [jsize eventElement] is never reached: every recursive call is on a
    smaller candidate. *)
Definition matchJsonElement (eventElement searchElement : json) : bool :=
  match matchJsonElement_fuel (jsize eventElement) eventElement searchElement with
  | Some b => b
  | None => false
  end.




Fixpoint findKeyValueInTree (element : json) (key : string) (searchValue : json) : bool :=
  match element with
  | JArr l =>
      (fix some (l : list json) : bool :=
         match l with
         | [] => false
         | it :: r => findKeyValueInTree it key searchValue || some r
         end) l
  | JObj l =>
      (fix loop (l : list (string * json)) : bool :=
         match l with
         | [] => false
         | (k, v) :: r =>
             if (String.eqb k key && matchJsonElement v searchValue)
                || findKeyValueInTree v key searchValue
             then true else loop r
         end) l
  | _ => false
  end.

(** [!v || typeof v !== "object"] *)
Definition notAnObject (v : json) : bool :=
  negb (truthy v) || negb (String.eqb (typeof v) "object").

Definition containsJsonData (eventJson searchJson : string) : bool :=
  let evDataObj := tryParseJSON eventJson in
  if notAnObject evDataObj then false else
  match getProp evDataObj "body" with
  | Some (JStr bodyStr) =>
      let bodyObj := tryParseJSON bodyStr in
      if notAnObject bodyObj then false else
      match getProp bodyObj "event" with
      | None => false
      | Some ev =>
          if notAnObject ev then false else
          match getProp ev "data" with
          | None => false
          | Some dataElement =>
              let searchObj := tryParseJSON searchJson in
              if notAnObject searchObj then false else
              forallb (fun kv : string * json =>
                         findKeyValueInTree dataElement (fst kv) (snd kv))
                      (Object_entries searchObj)
          end
      end
  | _ => false
  end.

End Matcher.

(** ** Shapes of values: distinct keys, and the nodes of a tree *)

(** No key occurs twice in a member list. *)
Fixpoint keysDistinct (l : list (string * json)) : bool :=
  match l with
  | [] => true
  | (k, _) :: r => negb (existsb (fun kv => String.eqb (fst kv) k) r) && keysDistinct r
  end.

(** Every object of the value has distinct keys, as every object built
    by [JSON.parse] or by an object literal has. *)
Fixpoint distinctKeys (v : json) : bool :=
  match v with
  | JArr l => forallb distinctKeys l
  | JObj l => keysDistinct l && forallb (fun kv => distinctKeys (snd kv)) l
  | _ => true
  end.

(** [inside n v]: [n] is [v] or is reached from [v] through array
    elements and member values. *)
(** The empty array inside [n] arrays. *)
Fixpoint nested (n : nat) : json :=
  match n with
  | O => JArr []
  | S n' => JArr [nested n']
  end.

Inductive inside (n : json) : json -> Prop :=
| inside_here : inside n n
| inside_item l x : In x l -> inside n x -> inside n (JArr l)
| inside_member l k x : In (k, x) l -> inside n x -> inside n (JObj l).

(** ** A reference runtime

    [JSON.parse] and [JSON.stringify] on the texts whose numbers are
    integer literals of at most fifteen digits and whose strings stay
    below code unit 256; any other text is rejected. *)

Module Ref.

Definition dq : ascii := "034"%char.
Definition bs : ascii := "092"%char.

Definition is_ws (c : ascii) : bool :=
  Ascii.eqb c " "%char || Ascii.eqb c "009"%char
  || Ascii.eqb c "010"%char || Ascii.eqb c "013"%char.

Fixpoint skip_ws (s : string) : string :=
  match s with
  | String c r => if is_ws c then skip_ws r else s
  | EmptyString => EmptyString
  end.

(** [strip p s]: the rest of [s] after the prefix [p]. *)
Fixpoint strip (p s : string) : option string :=
  match p with
  | EmptyString => Some s
  | String a p' =>
      match s with
      | String b s' => if Ascii.eqb a b then strip p' s' else None
      | EmptyString => None
      end
  end.

Definition is_digit (c : ascii) : bool :=
  (48 <=? nat_of_ascii c)%nat && (nat_of_ascii c <=? 57)%nat.

Fixpoint take_digits (s : string) : string * string :=
  match s with
  | String c r =>
      if is_digit c then let (ds, rest) := take_digits r in (String c ds, rest)
      else (EmptyString, s)
  | EmptyString => (EmptyString, EmptyString)
  end.

Definition starts_fraction (s : string) : bool :=
  match s with
  | String c _ => Ascii.eqb c "."%char || Ascii.eqb c "e"%char || Ascii.eqb c "E"%char
  | EmptyString => false
  end.

(** An integer literal and the [String(n)] image of its value. *)
Definition parse_number (s : string) : option (string * string) :=
  let (neg, s1) :=
    match s with
    | String c r => if Ascii.eqb c "-"%char then (true, r) else (false, s)
    | EmptyString => (false, s)
    end in
  let (ds, rest) := take_digits s1 in
  match ds with
  | EmptyString => None
  | String d more =>
      if Ascii.eqb d "0"%char && negb (String.eqb more "") then None
      else if (15 <? String.length ds)%nat then None
      else if starts_fraction rest then None
      else if neg && negb (String.eqb ds "0") then Some (String "-"%char ds, rest)
      else Some (ds, rest)
  end.

Definition hex_val (c : ascii) : option nat :=
  let n := nat_of_ascii c in
  if (48 <=? n)%nat && (n <=? 57)%nat then Some (n - 48)%nat
  else if (65 <=? n)%nat && (n <=? 70)%nat then Some (n - 55)%nat
  else if (97 <=? n)%nat && (n <=? 102)%nat then Some (n - 87)%nat
  else None.

Definition hex4 (a b c d : ascii) : option nat :=
  match hex_val a, hex_val b, hex_val c, hex_val d with
  | Some x, Some y, Some z, Some w => Some (((x * 16 + y) * 16 + z) * 16 + w)%nat
  | _, _, _, _ => None
  end.

Definition unescape (e : ascii) : option ascii :=
  if Ascii.eqb e dq then Some dq
  else if Ascii.eqb e bs then Some bs
  else if Ascii.eqb e "/"%char then Some "/"%char
  else if Ascii.eqb e "b"%char then Some "008"%char
  else if Ascii.eqb e "f"%char then Some "012"%char
  else if Ascii.eqb e "n"%char then Some "010"%char
  else if Ascii.eqb e "r"%char then Some "013"%char
  else if Ascii.eqb e "t"%char then Some "009"%char
  else None.

Definition push (c : ascii) (o : option (string * string)) : option (string * string) :=
  match o with
  | Some (str, rest) => Some (String c str, rest)
  | None => None
  end.

(** The characters of a string literal after its opening quote, up to
    and including the closing quote. *)
Fixpoint parse_chars (s : string) : option (string * string) :=
  match s with
  | EmptyString => None
  | String c r =>
      if Ascii.eqb c dq then Some (EmptyString, r)
      else if Ascii.eqb c bs then
        match r with
        | EmptyString => None
        | String e r1 =>
            if Ascii.eqb e "u"%char then
              match r1 with
              | String h1 (String h2 (String h3 (String h4 r2))) =>
                  match hex4 h1 h2 h3 h4 with
                  | Some n =>
                      if (n <? 256)%nat then push (ascii_of_nat n) (parse_chars r2)
                      else None
                  | None => None
                  end
              | _ => None
              end
            else
              match unescape e with
              | Some d => push d (parse_chars r1)
              | None => None
              end
        end
      else if (nat_of_ascii c <? 32)%nat then None
      else push c (parse_chars r)
  end.

(** A repeated key keeps its place and takes the later value. *)
Fixpoint obj_set (k : string) (v : json) (l : list (string * json)) : list (string * json) :=
  match l with
  | [] => [(k, v)]
  | (k', v') :: r =>
      if String.eqb k' k then (k', v) :: r else (k', v') :: obj_set k v r
  end.

Definition mk_object (ms : list (string * json)) : list (string * json) :=
  fold_left (fun acc kv => obj_set (fst kv) (snd kv) acc) ms [].

Fixpoint parse_value (fuel : nat) (s : string) {struct fuel} : option (json * string) :=
  match fuel with
  | O => None
  | S f =>
      match skip_ws s with
      | EmptyString => None
      | String c r =>
          if Ascii.eqb c "{"%char then
            match skip_ws r with
            | EmptyString => None
            | String c' r' =>
                if Ascii.eqb c' "}"%char then Some (JObj [], r')
                else match parse_members f r with
                     | Some (ms, r'') => Some (JObj (mk_object ms), r'')
                     | None => None
                     end
            end
          else if Ascii.eqb c "["%char then
            match skip_ws r with
            | EmptyString => None
            | String c' r' =>
                if Ascii.eqb c' "]"%char then Some (JArr [], r')
                else match parse_elements f r with
                     | Some (vs, r'') => Some (JArr vs, r'')
                     | None => None
                     end
            end
          else if Ascii.eqb c dq then
            match parse_chars r with
            | Some (str, r') => Some (JStr str, r')
            | None => None
            end
          else
            match strip "null" (String c r) with
            | Some r' => Some (JNull, r')
            | None =>
            match strip "true" (String c r) with
            | Some r' => Some (JBool true, r')
            | None =>
            match strip "false" (String c r) with
            | Some r' => Some (JBool false, r')
            | None =>
            match parse_number (String c r) with
            | Some (repr, r') => Some (JNum repr, r')
            | None => None
            end end end end
      end
  end
with parse_elements (fuel : nat) (s : string) {struct fuel} : option (list json * string) :=
  match fuel with
  | O => None
  | S f =>
      match parse_value f s with
      | None => None
      | Some (v, r) =>
          match skip_ws r with
          | EmptyString => None
          | String c r' =>
              if Ascii.eqb c ","%char then
                match parse_elements f r' with
                | Some (vs, r'') => Some (v :: vs, r'')
                | None => None
                end
              else if Ascii.eqb c "]"%char then Some ([v], r')
              else None
          end
      end
  end
with parse_members (fuel : nat) (s : string) {struct fuel}
  : option (list (string * json) * string) :=
  match fuel with
  | O => None
  | S f =>
      match skip_ws s with
      | EmptyString => None
      | String c r =>
          if negb (Ascii.eqb c dq) then None else
          match parse_chars r with
          | None => None
          | Some (k, r1) =>
              match skip_ws r1 with
              | EmptyString => None
              | String c1 r2 =>
                  if negb (Ascii.eqb c1 ":"%char) then None else
                  match parse_value f r2 with
                  | None => None
                  | Some (v, r3) =>
                      match skip_ws r3 with
                      | EmptyString => None
                      | String c3 r4 =>
                          if Ascii.eqb c3 ","%char then
                            match parse_members f r4 with
                            | Some (ms, r5) => Some ((k, v) :: ms, r5)
                            | None => None
                            end
                          else if Ascii.eqb c3 "}"%char then Some ([(k, v)], r4)
                          else None
                      end
                  end
              end
          end
      end
  end.

Definition parse (s : string) : option json :=
  match parse_value (S (String.length s)) s with
  | Some (v, r) =>
      match skip_ws r with
      | EmptyString => Some v
      | String _ _ => None
      end
  | None => None
  end.

Definition hex_digit (n : nat) : ascii :=
  if (n <? 10)%nat then ascii_of_nat (48 + n) else ascii_of_nat (87 + n).

(** The escapes [JSON.stringify] writes inside a string literal. *)
Fixpoint quote_chars (s : string) : string :=
  match s with
  | EmptyString => EmptyString
  | String c r =>
      let n := nat_of_ascii c in
      ((if Ascii.eqb c dq then String bs (String dq EmptyString)
       else if Ascii.eqb c bs then String bs (String bs EmptyString)
       else if Ascii.eqb c "008"%char then String bs "b"
       else if Ascii.eqb c "012"%char then String bs "f"
       else if Ascii.eqb c "010"%char then String bs "n"
       else if Ascii.eqb c "013"%char then String bs "r"
       else if Ascii.eqb c "009"%char then String bs "t"
       else if (n <? 32)%nat then
         String bs (String "u"%char (String "0"%char (String "0"%char
           (String (hex_digit (n / 16)) (String (hex_digit (n mod 16)) EmptyString)))))
       else String c EmptyString) ++ quote_chars r)%string
  end.

Definition quote (s : string) : string :=
  String dq (quote_chars s ++ String dq EmptyString)%string.

Fixpoint stringify (v : json) : string :=
  match v with
  | JNull => "null"
  | JBool true => "true"
  | JBool false => "false"
  | JNum r => r
  | JStr s => quote s
  | JArr l => ("[" ++ Array_join "," (map stringify l) ++ "]")%string
  | JObj l =>
      ("{" ++ Array_join "," (map (fun kv : string * json =>
                               quote (fst kv) ++ ":" ++ stringify (snd kv)) l) ++ "}")%string
  end.

End Ref.

(** ** The event storage ([EventStorageImpl]) *)

Module EventStorage.

Record EventData : Type := {
  uri : string;
  remoteAddress : option string;
  headers : list (string * list string);
  query : option string;
  body : string
}.

Record Event : Type := {
  event_time : string;
  event_num : Z;
  name : string;
  data : option EventData
}.

(** [events] and [matchedEvents], the two private fields: an array and
    a [Set<number>]. *)
Record Storage : Type := {
  events : list Event;
  matchedEvents : gset Z
}.

Definition empty : Storage := {| events := []; matchedEvents := ∅ |}.

(** The loop runs from the last index down to the first. *)
Definition eventExists (st : Storage) (eventNumber : Z) : bool :=
  existsb (fun e => Z.eqb (event_num e) eventNumber) (rev (events st)).

(** The body of the [for] loop of [addEvents]. *)
Definition addEvent (st : Storage) (event : Event) : Storage :=
  if negb (eventExists st (event_num event))
  then {| events := events st ++ [event]; matchedEvents := matchedEvents st |}
  else st.

Definition addEvents (st : Storage) (newEvents : list Event) : Storage :=
  fold_left addEvent newEvents st.

Definition markEventAsMatched (st : Storage) (eventNum : Z) : Storage :=
  {| events := events st; matchedEvents := {[eventNum]} ∪ matchedEvents st |}.

Definition isEventAlreadyMatched (st : Storage) (eventNum : Z) : bool :=
  bool_decide (eventNum ∈ matchedEvents st).

Definition getIndexEvents (st : Storage) (index : Z) : list Event :=
  if (index <? 0)%Z || (Z.of_nat (length (events st)) <=? index)%Z then []
  else List.filter (fun ev => negb (isEventAlreadyMatched st (event_num ev)))
              (skipn (Z.to_nat index) (events st)).

Definition getEvents (st : Storage) : list Event := events st.

Definition getLastEvent (st : Storage) : option Event := last (events st).

Definition clear (st : Storage) : Storage := empty.

(** The calls that change the storage, and a session of them from the
    storage the singleton starts with. *)
Inductive op : Type :=
| AddEvents (newEvents : list Event)
| MarkEventAsMatched (eventNum : Z)
| Clear.

Definition step (st : Storage) (o : op) : Storage :=
  match o with
  | AddEvents l => addEvents st l
  | MarkEventAsMatched n => markEventAsMatched st n
  | Clear => clear st
  end.

Definition run (ops : list op) : Storage := fold_left step ops empty.

End EventStorage.
Export EventStorage.

(** ** [MobileActions.checkHasEvent] *)

(** How an awaited call ends: its promise resolves, or rejects with an
    [Error] carrying [message]. *)
Inductive completion : Type :=
| Resolved
| Rejected (message : string).

Section EventChecks.

Context {RT : Runtime}.

(** The object [JSON.stringify] is given for [ev.data]. *)
Definition eventDataJson (d : EventData) : json :=
  JObj [("uri", JStr (uri d));
        ("remoteAddress", match remoteAddress d with Some a => JStr a | None => JNull end);
        ("headers", JObj (map (fun kv : string * list string =>
                                 (fst kv, JArr (map JStr (snd kv)))) (headers d)));
        ("query", match query d with Some q => JStr q | None => JNull end);
        ("body", JStr (body d))].

(** [!data] for [data : string | null]. *)
Definition noData (data : option string) : bool :=
  match data with
  | None => true
  | Some d => String.eqb d ""
  end.

(** The body of the [for] loop: [true] when the wait takes [ev]. *)
Definition accepts (st : Storage) (eventName : string) (data : option string)
           (ev : Event) : bool :=
  if isEventAlreadyMatched st (event_num ev) then false
  else if negb (String.eqb (EventStorage.name ev) eventName) then false
  else if noData data then true
  else
    match EventStorage.data ev, data with
    | Some d, Some pattern =>
        let evDataJson := JSON_stringify (eventDataJson d) in
        negb (String.eqb evDataJson "") && containsJsonData evDataJson pattern
    | _, _ => false
    end.

Definition timeoutMessage (eventName : string) (data : option string)
           (timeoutEventExpectation : Z) : string :=
  if noData data then
    ("Ожидаемое событие '" ++ eventName ++ "' не обнаружено за "
       ++ String_Z timeoutEventExpectation ++ " секунд.")%string
  else
    ("Ожидаемое событие '" ++ eventName ++ "' с данными '"
       ++ match data with Some d => d | None => "null" end
       ++ "' не обнаружено за " ++ String_Z timeoutEventExpectation ++ " секунд.")%string.

(** The polling loop.  The clock is represented by [arrivals]: one entry
    for each time the loop condition holds, giving the batch the receiver
    stores during that iteration's [sleep]; the deadline has passed when
    the list ends.  [data] is the pattern text after the path-or-literal
    step. *)
Fixpoint checkHasEvent (eventName : string) (data : option string)
         (timeoutEventExpectation : Z) (arrivals : list (list Event))
         (st : Storage) : completion * Storage :=
  match arrivals with
  | [] => (Rejected (timeoutMessage eventName data timeoutEventExpectation), st)
  | batch :: later =>
      let allEvents := getEvents st in
      match List.find (accepts st eventName data) allEvents with
      | Some ev => (Resolved, markEventAsMatched st (event_num ev))
      | None =>
          checkHasEvent eventName data timeoutEventExpectation later (addEvents st batch)
      end
  end.

End EventChecks.

(** ** [MobileActions.checkHasEventAsync] *)

Section AsyncEventChecks.

Context {RT : Runtime}.

Definition asyncTimeoutMessage (eventName : string) (data : option string)
           (timeoutEventExpectation : Z) : string :=
  if noData data then
    ("Событие '" ++ eventName ++ "' не было обнаружено за "
       ++ String_Z timeoutEventExpectation ++ " секунд (async).")%string
  else
    ("Событие '" ++ eventName ++ "' с данными '"
       ++ match data with Some d => d | None => "null" end
       ++ "' не было обнаружено за " ++ String_Z timeoutEventExpectation
       ++ " секунд (async).")%string.

(** The polling loop of the job, with the clock as in [checkHasEvent]:
    each poll looks at [getEvents().slice(initialCount)]. *)
Fixpoint checkHasEventAsync_loop (eventName : string) (data : option string)
         (timeoutEventExpectation : Z) (initialCount : nat)
         (arrivals : list (list Event)) (st : Storage) : completion * Storage :=
  match arrivals with
  | [] => (Rejected (asyncTimeoutMessage eventName data timeoutEventExpectation), st)
  | batch :: later =>
      let newEvents := skipn initialCount (getEvents st) in
      match List.find (accepts st eventName data) newEvents with
      | Some ev => (Resolved, markEventAsMatched st (event_num ev))
      | None =>
          checkHasEventAsync_loop eventName data timeoutEventExpectation initialCount
            later (addEvents st batch)
      end
  end.

(** The job [checkHasEventAsync] starts and pushes on [jobs]: how it
    completes, and the storage it leaves.  [initialCount] is read when
    the call is made. *)
Definition checkHasEventAsync (eventName : string) (data : option string)
           (timeoutEventExpectation : Z) (arrivals : list (list Event))
           (st : Storage) : completion * Storage :=
  let initialCount := length (getEvents st) in
  checkHasEventAsync_loop eventName data timeoutEventExpectation initialCount arrivals st.

End AsyncEventChecks.

(** ** The locator model ([PageElement]) *)

(** Modelled from the spec: the enum [Platform] of core/platform, the
    "active platform (Android|iOS)". *)
Inductive Platform : Type := ANDROID | IOS.

(** [Locator = string | { using: string; value: string }] *)
Inductive Locator : Type :=
| Selector (s : string)
| By (using_ value : string).

Module PageElement.

Record t : Type := {
  android : option Locator;
  ios : option Locator;
  androidList : option (list Locator);
  iosList : option (list Locator)
}.

(** [!!loc] *)
Definition truthy (loc : Locator) : bool :=
  match loc with
  | Selector s => negb (String.eqb s "")
  | By _ _ => true
  end.

(** The single query configured for the platform. *)
Definition configuredQuery (platform : Platform) (e : t) : option Locator :=
  match platform with ANDROID => android e | IOS => ios e end.

(** The list of queries configured for the platform. *)
Definition configuredList (platform : Platform) (e : t) : option (list Locator) :=
  match platform with ANDROID => androidList e | IOS => iosList e end.

(** [single ?? list?.[0] ?? null] *)
Definition firstOf (single : option Locator) (alternatives : option (list Locator))
  : option Locator :=
  match single with
  | Some loc => Some loc
  | None =>
      match alternatives with
      | Some (loc :: _) => Some loc
      | _ => None
      end
  end.

(** [list ?? (single ? [single] : null)] *)
Definition allOf (single : option Locator) (alternatives : option (list Locator))
  : option (list Locator) :=
  match alternatives with
  | Some l => Some l
  | None =>
      match single with
      | Some loc => if truthy loc then Some [loc] else None
      | None => None
      end
  end.

Definition get (platform : Platform) (e : t) : option Locator :=
  match platform with
  | ANDROID => firstOf (android e) (androidList e)
  | IOS => firstOf (ios e) (iosList e)
  end.

Definition getAll (platform : Platform) (e : t) : option (list Locator) :=
  match platform with
  | ANDROID => allOf (android e) (androidList e)
  | IOS => allOf (ios e) (iosList e)
  end.

End PageElement.

(** ** The device, the clock and the effects of [MobileActions] *)

(** Modelled from the spec: the enum [ScrollDirection] of
    core/gestures/scroll-direction, the vertical and horizontal
    directions, with the four members [MobileActions] names. *)
Inductive ScrollDirection : Type := Down | Up | Right | Left.

(** An element reference returned by a search. *)
Inductive Element : Type := ElementRef (id : string).

Record Point : Type := { x : Q; y : Q }.
Record Size : Type := { width : Q; height : Q }.

Inductive PointerAction : Type :=
| pointerMove (duration x y : Z)
| pointerDown (button : Z)
| pause (duration : Z)
| pointerUp (button : Z).

(** The calls the code issues to the WebDriver session, indexed by the
    type of their answer. *)
Inductive Call : Type -> Type :=
| GetPageSource : Call string
| FindAll (selector : string) : Call (list Element)
| FindElements (using_ value : string) : Call (list Element)
| IsDisplayed (el : Element) : Call bool
| GetLocation (el : Element) : Call Point
| GetSize (el : Element) : Call Size
| GetWindowSize : Call Size
| PerformActions (actions : list PointerAction) : Call unit
| ReleaseActions : Call unit.

Inductive Issued : Type :=
| Issue (A : Type) (c : Call A).

Arguments Issue {A} c.

(** How a computation ends: a value, a thrown [Error] with its message,
    or the recursion bound of the model reached. *)
Inductive Outcome (A : Type) : Type :=
| Ok (a : A)
| Throw (message : string)
| OutOfFuel.

Arguments Ok {A} a.
Arguments Throw {A} message.
Arguments OutOfFuel {A}.

(** [core/constants] *)
Definition DEFAULT_TIMEOUT_BEFORE_EXPECTATION : Z := 0.
Definition DEFAULT_TIMEOUT_EXPECTATION : Z := 10.
Definition DEFAULT_TIMEOUT_EVENT_CHECK_EXPECTATION : Z := 15.
Definition DEFAULT_SCROLL_COEFFICIENT : Q := (75 # 100)%Q.
Definition DEFAULT_SWIPE_COEFFICIENT : Q := (95 # 100)%Q.
Definition DEFAULT_SCROLL_COUNT : Z := 0.
Definition DEFAULT_SCROLL_CAPACITY : Q := 1%Q.
Definition DEFAULT_POLLING_INTERVAL : Z := 1000.
Definition DEFAULT_SCROLL_DIRECTION : ScrollDirection := Down.

(** [Math.round] *)
Definition Math_round (q : Q) : Z := Qfloor (q + (1 # 2))%Q.

(** [String(loc)] *)
Definition String_Locator (loc : Locator) : string :=
  match loc with
  | Selector s => s
  | By _ _ => "[object Object]"
  end.

(** The session: the device answers a call from its state ([inl] when
    the call throws) and moves to a new state; a call takes [latency]
    milliseconds; the device goes on changing while the test sleeps.
    [platform] is [AppConfig.getPlatform()], and [String_number] is
    [String(n)] on the numbers that are not integers. *)
Class Session : Type := {
  DevState : Type;
  respond : forall A : Type, DevState -> Call A -> (string + A) * DevState;
  latency : forall A : Type, DevState -> Call A -> Z;
  idle : DevState -> Z -> DevState;
  platform : Platform;
  String_number : Q -> string
}.

Section Actions.

Context {session : Session}.

Record World : Type := {
  dev : DevState;
  clock : Z;
  issued : list Issued
}.

Definition M (A : Type) : Type := World -> Outcome A * World.

Definition ret {A} (a : A) : M A := fun w => (Ok a, w).

Definition throw {A} (message : string) : M A := fun w => (Throw message, w).

Definition outOfFuel {A} : M A := fun w => (OutOfFuel, w).

Definition bind {A B} (m : M A) (k : A -> M B) : M B :=
  fun w =>
    match m w with
    | (Ok a, w') => k a w'
    | (Throw e, w') => (Throw e, w')
    | (OutOfFuel, w') => (OutOfFuel, w')
    end.

(** [try { m } catch (e) { ... }]: the thrown message, or the value. *)
Definition try_ {A} (m : M A) : M (string + A) :=
  fun w =>
    match m w with
    | (Ok a, w') => (Ok (inr a), w')
    | (Throw e, w') => (Ok (inl e), w')
    | (OutOfFuel, w') => (OutOfFuel, w')
    end.

Definition call {A} (c : Call A) : M A :=
  fun w =>
    let (r, d) := respond A (dev w) c in
    let w' := {| dev := d;
                 clock := clock w + Z.max 0 (latency A (dev w) c);
                 issued := issued w ++ [Issue c] |} in
    match r with
    | inr a => (Ok a, w')
    | inl e => (Throw e, w')
    end.

Definition Date_now : M Z := fun w => (Ok (clock w), w).

(** [await sleep(ms)]: a timer never fires in less than a millisecond. *)
Definition sleep (ms : Z) : M unit :=
  fun w =>
    (Ok tt, {| dev := idle (dev w) (Z.max 1 ms);
               clock := clock w + Z.max 1 ms;
               issued := issued w |}).

(** [Promise.all([a, b])]: both calls are issued. *)
Definition both {A B} (a : M A) (b : M B) : M (A * B) :=
  bind (try_ a) (fun ra =>
  bind (try_ b) (fun rb =>
    match ra, rb with
    | inr va, inr vb => ret (va, vb)
    | inl e, _ => throw e
    | _, inl e => throw e
    end)).

Local Notation "x <- m ;; k" := (bind m (fun x => k))
  (at level 100, m at next level, right associativity).
Local Notation "m ;;; k" := (bind m (fun _ => k))
  (at level 100, right associativity).

(** The body of the [while] loop of [waitForUIStable]. *)
Fixpoint waitForUIStable_loop (fuel : nat) (start timeoutMs pollMs : Z) (prev : string)
  : M unit :=
  match fuel with
  | O => outOfFuel
  | S f =>
      now <- Date_now ;;
      if (now - start <? timeoutMs)%Z then
        sleep pollMs ;;;
        cur <- call GetPageSource ;;
        if String.eqb cur prev then ret tt
        else waitForUIStable_loop f start timeoutMs pollMs cur
      else ret tt
  end.

Definition waitForUIStable (timeoutSec pollMs : Z) : M unit :=
  if (timeoutSec <=? 0)%Z then ret tt else
  let timeoutMs := (timeoutSec * 1000)%Z in
  prev <- call GetPageSource ;;
  start <- Date_now ;;
  waitForUIStable_loop (S (Z.to_nat timeoutMs)) start timeoutMs pollMs prev.

(** One search: [d.$$(loc)] for a string, [d.findElements(using, value)]
    for a pair. *)
Definition search (loc : Locator) : M (list Element) :=
  match loc with
  | Selector s => call (FindAll s)
  | By u v => call (FindElements u v)
  end.

(** The [while] loop of [findAllByLocator]. *)
Fixpoint findAllByLocator_loop (fuel : nat) (loc : Locator) (start timeoutMs pollMs : Z)
         (lastErr : option string) : M (list Element) :=
  match fuel with
  | O => outOfFuel
  | S f =>
      now <- Date_now ;;
      if (now - start <? timeoutMs)%Z then
        r <- try_ (search loc) ;;
        match r with
        | inr (el :: els) => ret (el :: els)
        | inr [] =>
            sleep pollMs ;;;
            findAllByLocator_loop f loc start timeoutMs pollMs lastErr
        | inl e =>
            sleep pollMs ;;;
            findAllByLocator_loop f loc start timeoutMs pollMs (Some e)
        end
      else
        match lastErr with
        | Some e => throw e
        | None => ret []
        end
  end.

Definition findAllByLocator (loc : Locator) (timeoutSec pollMs : Z) : M (list Element) :=
  let timeoutMs := (timeoutSec * 1000)%Z in
  start <- Date_now ;;
  findAllByLocator_loop (S (Z.to_nat timeoutMs)) loc start timeoutMs pollMs None.

Definition touchAndMoveVertical (centerX startY endY : Z) : M unit :=
  call (PerformActions [pointerMove 0 centerX startY; pointerDown 0; pause 500;
                        pointerMove 500 centerX endY; pointerUp 0]) ;;;
  call ReleaseActions.

Definition touchAndMoveHorizontal (centerY startX endX : Z) : M unit :=
  call (PerformActions [pointerMove 0 startX centerY; pointerDown 0; pause 500;
                        pointerMove 500 endX centerY; pointerUp 0]) ;;;
  call ReleaseActions.

(** [for (let i = 0; i < n; i++) body] *)
Fixpoint times (n : nat) (body : M unit) : M unit :=
  match n with
  | O => ret tt
  | S n' => body ;;; times n' body
  end.

Definition isHorizontal (d : ScrollDirection) : bool :=
  match d with Right | Left => true | _ => false end.

Definition isRight (d : ScrollDirection) : bool :=
  match d with Right => true | _ => false end.

Definition isDown (d : ScrollDirection) : bool :=
  match d with Down => true | _ => false end.

(** One gesture inside the rectangle of an element. *)
Definition swipeInRect (loc : Point) (size : Size) (scrollCapacity : Q)
           (scrollDirection : ScrollDirection) : M unit :=
  let k := DEFAULT_SWIPE_COEFFICIENT in
  if isHorizontal scrollDirection then
    let w := (width size * scrollCapacity)%Q in
    let centerY := Math_round (y loc + height size / 2)%Q in
    let startX :=
      Math_round (x loc + (if isRight scrollDirection then w * k else w * (1 - k)))%Q in
    let endX :=
      Math_round (x loc + (if isRight scrollDirection then w * (1 - k) else w * k))%Q in
    touchAndMoveHorizontal centerY startX endX
  else
    let h := (height size * scrollCapacity)%Q in
    let centerX := Math_round (x loc + width size / 2)%Q in
    let startY :=
      Math_round (y loc + (if isDown scrollDirection then h * k else h * (1 - k)))%Q in
    let endY :=
      Math_round (y loc + (if isDown scrollDirection then h * (1 - k) else h * k))%Q in
    touchAndMoveVertical centerX startY endY.

(** One gesture on the whole window. *)
Definition scrollInWindow (size : Size) (scrollCapacity : Q)
           (scrollDirection : ScrollDirection) : M unit :=
  let k := DEFAULT_SCROLL_COEFFICIENT in
  if isHorizontal scrollDirection then
    let w := (width size * scrollCapacity)%Q in
    let centerY := Math_round (height size / 2)%Q in
    let startX := Math_round (if isRight scrollDirection then w * k else w * (1 - k))%Q in
    let endX := Math_round (if isRight scrollDirection then 0 else w)%Q in
    touchAndMoveHorizontal centerY startX endX
  else
    let h := (height size * scrollCapacity)%Q in
    let centerX := Math_round (width size / 2)%Q in
    let startY := Math_round (if isDown scrollDirection then h * k else h * (1 - k))%Q in
    let endY := Math_round (if isDown scrollDirection then 0 else h)%Q in
    touchAndMoveVertical centerX startY endY.

(** [scrollCapacity > 0 && scrollCapacity <= 1.0] *)
Definition capacityInRange (scrollCapacity : Q) : bool :=
  negb (Qle_bool scrollCapacity 0) && Qle_bool scrollCapacity 1.

Definition capacityMessage (scrollCapacity : Q) : string :=
  ("scrollCapacity=" ++ String_number scrollCapacity
     ++ ", допустимый диапазон (0.0; 1.0]")%string.

(** [performScroll], with the call [this.waitForElements(element)] of
    its element branch passed in as [waitFor]: [waitForElements] calls
    [performScroll(null, ...)], which never takes that branch, and
    [performScroll] is closed over [waitForElements] below. *)
Definition performScroll_with (waitFor : PageElement.t -> M Element)
           (element : option PageElement.t) (scrollCount : Z) (scrollCapacity : Q)
           (scrollDirection : ScrollDirection) : M unit :=
  if negb (capacityInRange scrollCapacity) then throw (capacityMessage scrollCapacity)
  else
    match element with
    | Some e =>
        el <- waitFor e ;;
        rect <- both (call (GetLocation el)) (call (GetSize el)) ;;
        times (Z.to_nat scrollCount)
              (swipeInRect (fst rect) (snd rect) scrollCapacity scrollDirection)
    | None =>
        size <- call GetWindowSize ;;
        times (Z.to_nat scrollCount) (scrollInWindow size scrollCapacity scrollDirection)
    end.

(** [attempted], [failed] and [lastErr] of [waitForElements]. *)
Record Tried : Type := {
  attempted : list Locator;
  failed : list Locator;
  lastErr : option string
}.

(** [(element?.getAll && (await element.getAll())) ?? [element?.get ?
    await element.get() : null]], then [.filter(Boolean)]. *)
Definition locatorsOf (element : option PageElement.t) : list Locator :=
  let locators : list (option Locator) :=
    match element with
    | Some e =>
        match PageElement.getAll platform e with
        | Some l => map Some l
        | None => [PageElement.get platform e]
        end
    | None => [None]
    end in
  flat_map (fun o : option Locator =>
              match o with
              | Some loc => if PageElement.truthy loc then [loc] else []
              | None => []
              end) locators.

Definition outOfRangeMessage (elementNumber : option Z) (found : nat) : string :=
  ("Элемент " ++ match elementNumber with Some n => String_Z n | None => "null" end
     ++ " вне диапазона (всего найдено: " ++ String_nat found ++ ")")%string.

(** The body of the [try] block for one locator. *)
Definition tryLocator (loc : Locator) (elementNumber : option Z)
           (timeoutExpectation pollingInterval : Z) : M Element :=
  els <- findAllByLocator loc timeoutExpectation pollingInterval ;;
  if (length els =? 0)%nat then throw "elements not found" else
  let safeIndex := match elementNumber with Some n => n | None => 1%Z end in
  if (safeIndex <? 1)%Z || (Z.of_nat (length els) <? safeIndex)%Z then
    throw (outOfRangeMessage elementNumber (length els))
  else
    match nth_error els (Z.to_nat (safeIndex - 1)) with
    | Some el =>
        displayed <- call (IsDisplayed el) ;;
        if displayed then ret el else throw "Элемент найден, но не видим"
    | None => throw "Cannot read properties of undefined (reading 'isDisplayed')"
    end.

(** The [for] loop over the locators: the element returned, or the
    record of what was tried. *)
Fixpoint tryLocators (locs : list Locator) (elementNumber : option Z)
         (timeoutExpectation pollingInterval : Z) (t : Tried) : M (Element + Tried) :=
  match locs with
  | [] => ret (inr t)
  | loc :: rest =>
      let t1 := {| attempted := attempted t ++ [loc];
                   failed := failed t; lastErr := lastErr t |} in
      r <- try_ (tryLocator loc elementNumber timeoutExpectation pollingInterval) ;;
      match r with
      | inr el => ret (inl el)
      | inl e =>
          tryLocators rest elementNumber timeoutExpectation pollingInterval
            {| attempted := attempted t1; failed := failed t1 ++ [loc]; lastErr := Some e |}
      end
  end.

Definition joinLocators (l : list Locator) : string :=
  Array_join ", " (map String_Locator l).

Definition notFoundMessage (timeoutExpectation currentScroll : Z) (t : Tried) : string :=
  let locatorsInfo :=
    if (0 <? length (failed t))%nat then
      ("Локаторы не найдены: " ++ joinLocators (failed t)
         ++ " из списка " ++ joinLocators (attempted t))%string
    else if (0 <? length (attempted t))%nat then
      ("Пробовали локаторы: " ++ joinLocators (attempted t))%string
    else "Локаторов нет" in
  let head :=
    ("Элементы не найдены за '" ++ String_Z timeoutExpectation ++ "' секунд после '"
       ++ String_Z currentScroll ++ "' скроллов. " ++ locatorsInfo)%string in
  match lastErr t with
  | Some message => (head ++ ". Причина: " ++ message)%string
  | None => head
  end.

(** The [while (true)] loop of [waitForElements]. *)
Fixpoint waitForElements_loop (fuel : nat) (element : option PageElement.t)
         (elementNumber : option Z) (timeoutExpectation pollingInterval scrollCount : Z)
         (scrollCapacity : Q) (scrollDirection : ScrollDirection)
         (currentScroll : Z) (t : Tried) : M Element :=
  match fuel with
  | O => outOfFuel
  | S f =>
      r <- tryLocators (locatorsOf element) elementNumber
                       timeoutExpectation pollingInterval t ;;
      match r with
      | inl el => ret el
      | inr t' =>
          if (0 <? scrollCount)%Z && (currentScroll <? scrollCount)%Z then
            performScroll_with (fun _ => outOfFuel) None 1 scrollCapacity scrollDirection ;;;
            waitForElements_loop f element elementNumber timeoutExpectation
              pollingInterval scrollCount scrollCapacity scrollDirection
              (currentScroll + 1)%Z t'
          else throw (notFoundMessage timeoutExpectation currentScroll t')
      end
  end.

Definition waitForElements (element : option PageElement.t) (elementNumber : option Z)
           (timeoutBeforeExpectation timeoutExpectation pollingInterval scrollCount : Z)
           (scrollCapacity : Q) (scrollDirection : ScrollDirection) : M Element :=
  waitForUIStable timeoutBeforeExpectation pollingInterval ;;;
  waitForElements_loop (S (Z.to_nat scrollCount)) element elementNumber
    timeoutExpectation pollingInterval scrollCount scrollCapacity scrollDirection
    0%Z {| attempted := []; failed := []; lastErr := None |}.

Definition performScroll (element : option PageElement.t) (scrollCount : Z)
           (scrollCapacity : Q) (scrollDirection : ScrollDirection) : M unit :=
  performScroll_with
    (fun e => waitForElements (Some e) None DEFAULT_TIMEOUT_BEFORE_EXPECTATION
                DEFAULT_TIMEOUT_EXPECTATION DEFAULT_POLLING_INTERVAL DEFAULT_SCROLL_COUNT
                DEFAULT_SCROLL_CAPACITY DEFAULT_SCROLL_DIRECTION)
    element scrollCount scrollCapacity scrollDirection.

Definition scrollDown (scrollCount : Z) (scrollCapacity : Q) : M unit :=
  performScroll None scrollCount scrollCapacity Down.

Definition scrollUp (scrollCount : Z) (scrollCapacity : Q) : M unit :=
  performScroll None scrollCount scrollCapacity Up.

Definition scrollRight (scrollCount : Z) (scrollCapacity : Q) : M unit :=
  performScroll None scrollCount scrollCapacity Right.

Definition scrollLeft (scrollCount : Z) (scrollCapacity : Q) : M unit :=
  performScroll None scrollCount scrollCapacity Left.

Definition swipeDown (element : option PageElement.t) (scrollCount : Z)
           (scrollCapacity : Q) : M unit :=
  performScroll element scrollCount scrollCapacity Down.

Definition swipeUp (element : option PageElement.t) (scrollCount : Z)
           (scrollCapacity : Q) : M unit :=
  performScroll element scrollCount scrollCapacity Up.

Definition swipeRight (element : option PageElement.t) (scrollCount : Z)
           (scrollCapacity : Q) : M unit :=
  performScroll element scrollCount scrollCapacity Right.

Definition swipeLeft (element : option PageElement.t) (scrollCount : Z)
           (scrollCapacity : Q) : M unit :=
  performScroll element scrollCount scrollCapacity Left.

End Actions.

(** ** [MobileActions.tapArea], [tapElementArea] and [checkVisible] *)

Section ElementActions.

Context {session : Session}.

Local Notation "x <- m ;; k" := (bind m (fun x => k))
  (at level 100, m at next level, right associativity).
Local Notation "m ;;; k" := (bind m (fun _ => k))
  (at level 100, right associativity).

(** The [while] loop of [tapArea] when a [waitCondition] is given. *)
Fixpoint tapArea_loop (fuel : nat) (waitCondition : M bool) (start timeoutMs : Z)
  : M unit :=
  match fuel with
  | O => outOfFuel
  | S f =>
      now <- Date_now ;;
      if (now - start <? timeoutMs)%Z then
        ok <- waitCondition ;;
        if ok then ret tt
        else
          sleep DEFAULT_POLLING_INTERVAL ;;;
          tapArea_loop f waitCondition start timeoutMs
      else ret tt
  end.

(** The pointer sequence of a tap. *)
Definition tapActions (x y : Z) : list PointerAction :=
  [pointerMove 0 x y; pointerDown 0; pointerUp 0].

Definition tapArea (x y : Z) (timeoutBeforeExpectation : Z)
           (waitCondition : option (M bool)) : M unit :=
  match waitCondition with
  | Some cond =>
      let timeoutMs := (timeoutBeforeExpectation * 1000)%Z in
      start <- Date_now ;;
      tapArea_loop (S (Z.to_nat timeoutMs)) cond start timeoutMs
  | None =>
      if (0 <? timeoutBeforeExpectation)%Z
      then waitForUIStable timeoutBeforeExpectation DEFAULT_POLLING_INTERVAL
      else ret tt
  end ;;;
  call (PerformActions (tapActions x y)) ;;;
  call ReleaseActions.

Definition tapElementArea (element : option PageElement.t) (x y : Z)
           (timeoutBeforeExpectation timeoutExpectation pollingInterval scrollCount : Z)
           (scrollCapacity : Q) (scrollDirection : ScrollDirection) : M unit :=
  found <- waitForElements element None timeoutBeforeExpectation timeoutExpectation
             pollingInterval scrollCount scrollCapacity scrollDirection ;;
  loc <- call (GetLocation found) ;;
  let (locX, locY) := loc in
  tapArea (Math_round locX + x)%Z (Math_round locY + y)%Z 0 None.

(** [checkVisible] on a [PageElement] or [null], the first overload. *)
Definition checkVisible (element : option PageElement.t) (elementNumber : option Z)
           (timeoutBeforeExpectation timeoutExpectation pollingInterval scrollCount : Z)
           (scrollCapacity : Q) (scrollDirection : ScrollDirection) : M unit :=
  el <- waitForElements element elementNumber timeoutBeforeExpectation timeoutExpectation
          pollingInterval scrollCount scrollCapacity scrollDirection ;;
  displayed <- call (IsDisplayed el) ;;
  if displayed then ret tt else throw "Элемент найден, но не отображается".

End ElementActions.

(** ** The factories of [PageElement] and [escapeXPath] *)

(** [l.map((p, i) => f(p, i))], the indices counted from [i]. *)
Fixpoint mapi {A B} (f : A -> nat -> B) (i : nat) (l : list A) : list B :=
  match l with
  | [] => []
  | a :: r => f a i :: mapi f (S i) r
  end.

Module PageElementFactories.
Import PageElement.

Definition AccessibilityId (accessibilityId : string) : Locator :=
  By "accessibility id" accessibilityId.

Definition AndroidUIAutomator (expr : string) : Locator :=
  By "-android uiautomator" expr.

Definition IOSClassChain (expr : string) : Locator :=
  By "-ios class chain" expr.

Definition IOSPredicateString (expr : string) : Locator :=
  By "-ios predicate string" expr.

(** [new PageElement(opts)]: a field [opts] leaves out is [null]. *)
Definition byAccessibilityId (accessibilityId : string) : t :=
  let loc := AccessibilityId accessibilityId in
  {| android := Some loc; ios := Some loc; androidList := None; iosList := None |}.

Definition byAndroidAccessibilityId (accessibilityId : string) : t :=
  {| android := Some (AccessibilityId accessibilityId); ios := None;
     androidList := None; iosList := None |}.

Definition byIOSAccessibilityId (accessibilityId : string) : t :=
  {| android := None; ios := Some (AccessibilityId accessibilityId);
     androidList := None; iosList := None |}.

Definition byAndroidUIAutomator (expr : string) : t :=
  {| android := Some (AndroidUIAutomator expr); ios := None;
     androidList := None; iosList := None |}.

Definition byIOSClassChain (expr : string) : t :=
  {| android := None; ios := Some (IOSClassChain expr);
     androidList := None; iosList := None |}.

Definition byIOSPredicateString (expr : string) : t :=
  {| android := None; ios := Some (IOSPredicateString expr);
     androidList := None; iosList := None |}.

Definition byAndroidLocators (locators : list Locator) : t :=
  {| android := None; ios := None; androidList := Some locators; iosList := None |}.

Definition byIOSLocators (locators : list Locator) : t :=
  {| android := None; ios := None; androidList := None; iosList := Some locators |}.

Definition byLocators (androidLocators iosLocators : option (list Locator)) : t :=
  {| android := None; ios := None;
     androidList := androidLocators; iosList := iosLocators |}.

(** [s.split(c)] for a separator of one character. *)
Fixpoint String_split (c : ascii) (s : string) : list string :=
  match s with
  | EmptyString => [EmptyString]
  | String a r =>
      if Ascii.eqb a c then EmptyString :: String_split c r
      else
        match String_split c r with
        | p :: ps => String a p :: ps
        | [] => [String a EmptyString]
        end
  end.

Definition apostrophe : string := "'".
Definition doubleQuote : string := String Ref.dq EmptyString.

Definition escapeXPath (s : string) : string :=
  if negb (includes s apostrophe) then (apostrophe ++ s ++ apostrophe)%string
  else if negb (includes s doubleQuote) then (doubleQuote ++ s ++ doubleQuote)%string
  else
    let parts := String_split "'"%char s in
    ("concat("
       ++ Array_join ","
            (mapi (fun p i =>
                     match i with
                     | O => doubleQuote ++ p ++ doubleQuote
                     | S _ => doubleQuote ++ apostrophe ++ doubleQuote ++ ","
                                ++ doubleQuote ++ p ++ doubleQuote
                     end) 0 parts)
       ++ ")")%string.

(** What an XPath 1.0 processor reads [escapeXPath]'s results as: a
    literal is a text between two apostrophes without an apostrophe, or
    between two double quotes without a double quote, and [concat(...)]
    joins the literals it is given; white space may stand around the
    literals.  [xpath_value e] is the string [e] denotes, [None] when [e]
    is neither a literal nor such a call. *)
Inductive Reading : Type :=
| BeforeLiteral
| InLiteral (q : ascii)
| AfterLiteral
| AfterCall.

Definition is_quote (c : ascii) : bool :=
  Ascii.eqb c "'"%char || Ascii.eqb c Ref.dq.

Fixpoint read_literals (inCall : bool) (st : Reading) (e : string) : option string :=
  match e with
  | EmptyString =>
      match st with
      | AfterLiteral => if inCall then None else Some EmptyString
      | AfterCall => Some EmptyString
      | _ => None
      end
  | String c r =>
      match st with
      | BeforeLiteral =>
          if Ref.is_ws c then read_literals inCall BeforeLiteral r
          else if is_quote c then read_literals inCall (InLiteral c) r
          else None
      | InLiteral q =>
          if Ascii.eqb c q then read_literals inCall AfterLiteral r
          else option_map (String c) (read_literals inCall (InLiteral q) r)
      | AfterLiteral =>
          if Ref.is_ws c then read_literals inCall AfterLiteral r
          else if inCall && Ascii.eqb c ","%char then read_literals inCall BeforeLiteral r
          else if inCall && Ascii.eqb c ")"%char then read_literals inCall AfterCall r
          else None
      | AfterCall =>
          if Ref.is_ws c then read_literals inCall AfterCall r else None
      end
  end.

(** [s] without the prefix [p], when it has it. *)
Fixpoint after_prefix (p s : string) : option string :=
  match p with
  | EmptyString => Some s
  | String a p' =>
      match s with
      | String b s' => if Ascii.eqb a b then after_prefix p' s' else None
      | EmptyString => None
      end
  end.

Definition xpath_value (e : string) : option string :=
  match after_prefix "concat(" e with
  | Some args => read_literals true BeforeLiteral args
  | None => read_literals false BeforeLiteral e
  end.

End PageElementFactories.

(** ** [WebServer.handleBatch] *)

Module WebServer.

(** What [handleBatch] reads of the request: [url.toString()],
    [url.search], [req.socket.remoteAddress] when there is one,
    [req.headers] and the body [readBody] resolves with. *)
Record Request : Type := {
  url_toString : string;
  url_search : string;
  socket_remoteAddress : option string;
  req_headers : list (string * list string);
  bodyText : string
}.

(** The response sent, or the error the handler's promise is rejected
    with when it sends none. *)
Inductive Reply : Type :=
| Sent (statusCode : Z) (text : string)
| Unanswered (error : string).

Section HandleBatch.

Context {RT : Runtime}.

(** [typeof v === "string" && v ? v : fallback] *)
Definition nonEmptyString (v : option json) (fallback : string) : string :=
  match v with
  | Some (JStr s) => if String.eqb s "" then fallback else s
  | _ => fallback
  end.

(** The integer a number is, read off its [String(n)] image; [None] for
    a number that is not written as an integer, which [event_num] of
    this model does not carry. *)
Definition Number_Z (repr : string) : option Z :=
  option_map Z.of_int (NilZero.int_of_string repr).

(** [url.search ? url.search.replace(/^\?/, "") : null] *)
Definition queryOf (search : string) : option string :=
  match search with
  | EmptyString => None
  | String c r => if Ascii.eqb c "?"%char then Some r else Some search
  end.

(** [(req.socket && (req.socket.remoteAddress || null)) || null] *)
Definition remoteAddressOf (a : option string) : option string :=
  match a with
  | Some s => if String.eqb s "" then None else Some s
  | None => None
  end.

(** The callback of [eventsData.map]; [now] is [new Date().toISOString()]
    at that moment. *)
Definition parseEvent (now : string) (req : Request) (metaData : json) (baseNum : Z)
           (evJson : json) (idx : nat) : option Event :=
  let evObj :=
    if String.eqb (typeof evJson) "object" && truthy evJson then evJson else JObj [] in
  let evTime := nonEmptyString (getProp evObj "event_time") now in
  let evName := nonEmptyString (getProp evObj "name") "UNKNOWN" in
  let singleRecord := JObj [("meta", metaData); ("event", evJson)] in
  let data := {| uri := url_toString req;
                 remoteAddress := remoteAddressOf (socket_remoteAddress req);
                 headers := req_headers req;
                 query := queryOf (url_search req);
                 body := JSON_stringify singleRecord |} in
  let numFromClient :=
    match getProp evObj "event_num" with
    | Some (JNum repr) => Some (Number_Z repr)
    | _ => None
    end in
  match numFromClient with
  | Some client =>
      option_map (fun n => {| event_time := evTime; event_num := n;
                              name := evName; data := Some data |}) client
  | None =>
      Some {| event_time := evTime; event_num := (baseNum + Z.of_nat idx + 1)%Z;
              name := evName; data := Some data |}
  end.

Fixpoint all_some {A} (l : list (option A)) : option (list A) :=
  match l with
  | [] => Some []
  | Some a :: r => option_map (cons a) (all_some r)
  | None :: _ => None
  end.

(** [handleBatch]: the reply and the storage it leaves; [now i] is the
    time read for the event at index [i].  [None] only when a client
    number is not an integer. *)
Definition handleBatch (now : nat -> string) (req : Request) (st : Storage)
  : option (Reply * Storage) :=
  let root :=
    if String.eqb (bodyText req) "" then Some (JObj []) else JSON_parse (bodyText req) in
  match root with
  | None => Some (Sent 400 "Bad JSON", st)
  | Some JNull => Some (Unanswered "Cannot convert undefined or null to object", st)
  | Some root =>
      let metaData :=
        match getProp root "meta" with Some m => m | None => JNull end in
      let eventsData :=
        match getProp root "events" with Some (JArr l) => l | _ => [] end in
      let baseNum :=
        match getLastEvent st with Some e => event_num e | None => 0%Z end in
      match all_some (mapi
                        (fun evJson idx => parseEvent (now idx) req metaData baseNum evJson idx)
                        0 eventsData) with
      | Some parsedEvents => Some (Sent 200 "OK", addEvents st parsedEvents)
      | None => None
      end
  end.

End HandleBatch.

End WebServer.

(** * Properties *)

(** ** The matcher terminates and satisfies its defining equation *)

Section MatcherFacts.

Context {RT : Runtime}.

(** *** Termination measure *)

Lemma jsize_JArr l : jsize (JArr l) = S (jsize_items l).
Proof. reflexivity. Qed.

Lemma jsize_JObj l : jsize (JObj l) = S (jsize_members l).
Proof.
  simpl. f_equal. induction l as [|[k x] r IH]; simpl; [reflexivity|].
  now rewrite IH.
Qed.

Lemma jsize_pos v : 1 <= jsize v.
Proof. destruct v; simpl; lia. Qed.

Lemma jsize_items_In x l : In x l -> jsize x <= jsize_items l.
Proof.
  induction l as [|y r IH]; simpl; [tauto|].
  intros [->|H]; [lia|]. specialize (IH H). lia.
Qed.

Lemma jsize_assoc k l v : assoc k l = Some v -> jsize v <= jsize_members l.
Proof.
  induction l as [|[k' x] r IH]; simpl; [discriminate|].
  destruct (String.eqb k' k).
  - intros [= ->]. lia.
  - intros H. specialize (IH H). lia.
Qed.

Lemma tryParseJSON_size s : jsize (tryParseJSON s) <= S (String.length s).
Proof.
  unfold tryParseJSON. destruct (JSON_parse s) as [v|] eqn:E.
  - apply JSON_parse_size in E. lia.
  - simpl. lia.
Qed.

Lemma tryParseJSON_size_nonnull s :
  isNull (tryParseJSON s) = false -> jsize (tryParseJSON s) <= String.length s.
Proof.
  unfold tryParseJSON. destruct (JSON_parse s) as [v|] eqn:E.
  - intros _. now apply JSON_parse_size.
  - discriminate.
Qed.

(** *** [every_opt] and [some_opt] against [forallb] and [existsb] *)

Lemma every_opt_forallb {A} (g : A -> option bool) (h : A -> bool) l :
  (forall x, In x l -> g x = Some (h x)) -> every_opt g l = Some (forallb h l).
Proof.
  induction l as [|x r IH]; simpl; intros H; [reflexivity|].
  rewrite (H x (or_introl eq_refl)).
  destruct (h x); simpl; [|reflexivity].
  apply IH. intros y Hy. apply H. now right.
Qed.

Lemma some_opt_existsb {A} (g : A -> option bool) (h : A -> bool) l :
  (forall x, In x l -> g x = Some (h x)) -> some_opt g l = Some (existsb h l).
Proof.
  induction l as [|x r IH]; simpl; intros H; [reflexivity|].
  rewrite (H x (or_introl eq_refl)).
  destruct (h x); simpl; [reflexivity|].
  apply IH. intros y Hy. apply H. now right.
Qed.

(** *** Enough fuel gives the result *)

Lemma isPrimitive_string_inv v :
  isPrimitive v && String.eqb (typeof v) "string" = true -> exists s, v = JStr s.
Proof. destruct v; simpl; try discriminate. eauto. Qed.

Lemma object_branch_inv v :
  truthy v && String.eqb (typeof v) "object" && negb (Array_isArray v) = true ->
  exists l, v = JObj l.
Proof. destruct v; simpl; try discriminate; try (destruct b; discriminate);
       try (rewrite andb_false_r; discriminate). eauto. Qed.

Lemma matchJsonElement_fuel_total fuel :
  forall ev se, jsize ev <= fuel ->
    exists b, matchJsonElement_fuel fuel ev se = Some b.
Proof.
  induction fuel as [|f IH]; intros ev se Hsz.
  - pose proof (jsize_pos ev). lia.
  - cbn [matchJsonElement_fuel].
    destruct (isPrimitive ev && isPrimitive se); [eauto|].
    cbv zeta.
    destruct (isPrimitive ev && String.eqb (typeof ev) "string") eqn:Estr.
    + apply isPrimitive_string_inv in Estr as [s ->]. cbn [String_].
      destruct (isNull (tryParseJSON s)) eqn:En; cbn [negb].
      * cbn. rewrite andb_false_r. cbn. eauto.
      * apply IH. apply tryParseJSON_size_nonnull in En. simpl in Hsz. lia.
    + cbn [isNull negb].
      destruct (truthy ev && String.eqb (typeof ev) "object" && negb (Array_isArray ev)) eqn:Eo.
      * apply object_branch_inv in Eo as [el ->].
        cbn [andb].
        destruct (truthy se && String.eqb (typeof se) "object" && negb (Array_isArray se)) eqn:Es.
        -- erewrite every_opt_forallb with
             (h := fun ksv => match getProp (JObj el) (fst ksv) with
                              | Some v => match matchJsonElement_fuel f v (snd ksv) with
                                          | Some b => b | None => false end
                              | None => matchInherited (fst ksv) (snd ksv) end); [eauto|].
           intros [k sv] _. cbn [fst snd getProp].
           destruct (assoc k el) as [v|] eqn:Ea; [|reflexivity].
           apply jsize_assoc in Ea. rewrite jsize_JObj in Hsz.
           destruct (IH v sv ltac:(lia)) as [b ->]. reflexivity.
        -- cbn. eauto.
      * cbn [andb].
        destruct (Array_isArray ev && Array_isArray se) eqn:Ea; [|eauto].
        destruct ev as [| | | |el|]; try discriminate.
        destruct se as [| | | |sl|]; try discriminate.
        cbn [items].
        erewrite every_opt_forallb with
          (h := fun se => existsb (fun ee => match matchJsonElement_fuel f ee se with
                                             | Some b => b | None => false end) el);
          [eauto|].
        intros x _. apply some_opt_existsb. intros ee Hee.
        apply jsize_items_In in Hee. rewrite jsize_JArr in Hsz.
        destruct (IH ee x ltac:(lia)) as [b ->]. reflexivity.
Qed.

Lemma every_opt_mono {A} (g g' : A -> option bool) l b :
  (forall x c, In x l -> g x = Some c -> g' x = Some c) ->
  every_opt g l = Some b -> every_opt g' l = Some b.
Proof.
  induction l as [|x r IH]; simpl; intros H; [trivial|].
  destruct (g x) as [[|]|] eqn:E; try discriminate.
  - rewrite (H x true (or_introl eq_refl) E). apply IH. intros y c Hy. apply H. now right.
  - now rewrite (H x false (or_introl eq_refl) E).
Qed.

Lemma some_opt_mono {A} (g g' : A -> option bool) l b :
  (forall x c, In x l -> g x = Some c -> g' x = Some c) ->
  some_opt g l = Some b -> some_opt g' l = Some b.
Proof.
  induction l as [|x r IH]; simpl; intros H; [trivial|].
  destruct (g x) as [[|]|] eqn:E; try discriminate.
  - now rewrite (H x true (or_introl eq_refl) E).
  - rewrite (H x false (or_introl eq_refl) E). apply IH. intros y c Hy. apply H. now right.
Qed.

Lemma matchJsonElement_fuel_mono fuel :
  forall fuel' ev se b, fuel <= fuel' ->
    matchJsonElement_fuel fuel ev se = Some b ->
    matchJsonElement_fuel fuel' ev se = Some b.
Proof.
  induction fuel as [|f IH]; intros [|f'] ev se b Hle; try discriminate; try lia.
  assert (Hf : f <= f') by lia.
  cbn [matchJsonElement_fuel].
  destruct (isPrimitive ev && isPrimitive se); [trivial|].
  cbv zeta.
  destruct (negb (isNull _)); [now apply IH|].
  destruct (truthy ev && _ && _ && _ && _ && _).
  - apply every_opt_mono. intros [k sv] c _. cbn [fst snd].
    destruct (getProp ev k); [now apply IH | trivial].
  - destruct (Array_isArray ev && Array_isArray se); [|trivial].
    apply every_opt_mono. intros x c _. apply some_opt_mono.
    intros ee d _. now apply IH.
Qed.

Lemma matchJsonElement_fuel_sound fuel ev se :
  jsize ev <= fuel ->
  matchJsonElement_fuel fuel ev se = Some (matchJsonElement ev se).
Proof.
  intros Hsz. unfold matchJsonElement.
  destruct (matchJsonElement_fuel_total (jsize ev) ev se (le_n _)) as [b Hb].
  rewrite Hb. now apply matchJsonElement_fuel_mono with (fuel := jsize ev).
Qed.

(** *** The function's defining equation, as the source reads *)

Lemma matchJsonElement_eq ev se :
  matchJsonElement ev se =
    if isPrimitive ev && isPrimitive se then
      matchPrimitive (String_ ev) (String_ se)
    else
      let parsed :=
        if isPrimitive ev && String.eqb (typeof ev) "string"
        then tryParseJSON (String_ ev) else JNull in
      if negb (isNull parsed) then matchJsonElement parsed se
      else if truthy ev && String.eqb (typeof ev) "object" && negb (Array_isArray ev)
              && truthy se && String.eqb (typeof se) "object" && negb (Array_isArray se) then
        forallb (fun ksv : string * json =>
                   match getProp ev (fst ksv) with
                   | Some v => matchJsonElement v (snd ksv)
                   | None => matchInherited (fst ksv) (snd ksv)
                   end) (Object_entries se)
      else if Array_isArray ev && Array_isArray se then
        forallb (fun x => existsb (fun ee => matchJsonElement ee x) (items ev)) (items se)
      else false.
Proof.
  unfold matchJsonElement at 1.
  destruct (jsize ev) as [|n] eqn:En; [pose proof (jsize_pos ev); lia|].
  cbn [matchJsonElement_fuel].
  destruct (isPrimitive ev && isPrimitive se); [reflexivity|].
  cbv zeta.
  destruct (isPrimitive ev && String.eqb (typeof ev) "string") eqn:Estr.
  - apply isPrimitive_string_inv in Estr as [s ->]. cbn [String_].
    destruct (isNull (tryParseJSON s)) eqn:Enull; cbn [negb].
    + cbn. rewrite andb_false_r. reflexivity.
    + apply tryParseJSON_size_nonnull in Enull. simpl in En.
      rewrite matchJsonElement_fuel_sound by lia. reflexivity.
  - cbn [isNull negb].
    destruct (truthy ev && String.eqb (typeof ev) "object" && negb (Array_isArray ev)) eqn:Eo.
    + apply object_branch_inv in Eo as [el ->]. cbn [andb].
      destruct (truthy se && String.eqb (typeof se) "object" && negb (Array_isArray se));
        [|reflexivity].
      erewrite every_opt_forallb; [reflexivity|].
      intros [k sv] _. cbn [fst snd getProp].
      destruct (assoc k el) as [v|] eqn:Ea; [|reflexivity].
      apply jsize_assoc in Ea. rewrite jsize_JObj in En.
      apply matchJsonElement_fuel_sound. lia.
    + cbn [andb].
      destruct (Array_isArray ev && Array_isArray se) eqn:Ea; [|reflexivity].
      destruct ev as [| | | |el|]; try discriminate.
      destruct se as [| | | |sl|]; try discriminate.
      cbn [items].
      erewrite every_opt_forallb; [reflexivity|].
      intros x _. cbv beta. apply some_opt_existsb. intros ee Hee.
      apply jsize_items_In in Hee. rewrite jsize_JArr in En.
      apply matchJsonElement_fuel_sound. lia.
Qed.

(** *** The string built-ins *)

Lemma startsWith_spec p : forall s,
  startsWith s p = true <-> exists q, s = (p ++ q)%string.
Proof.
  induction p as [|a p IH]; intros s; simpl.
  - split; [eauto|reflexivity].
  - destruct s as [|b s].
    + split; [discriminate|intros [q Hq]; discriminate].
    + destruct (Ascii.eqb_spec a b) as [->|Hne]; simpl.
      * rewrite IH. split; intros [q Hq]; exists q; [now rewrite Hq|now inversion Hq].
      * split; [discriminate|intros [q Hq]; inversion Hq; congruence].
Qed.

Lemma includes_spec s : forall sub,
  includes s sub = true <-> exists a b, s = (a ++ sub ++ b)%string.
Proof.
  induction s as [|c r IH]; intros sub.
  - simpl. rewrite orb_false_r, startsWith_spec. split.
    + intros [q Hq]. exists EmptyString, q. exact Hq.
    + intros (a & b & H). destruct a; [exists b; exact H|discriminate].
  - cbn [includes]. rewrite orb_true_iff, startsWith_spec, IH. split.
    + intros [[q Hq]|(a & b & H)].
      * exists EmptyString, q. exact Hq.
      * exists (String c a), b. simpl. now rewrite H.
    + intros (a & b & H). destruct a as [|c' a].
      * left. exists b. exact H.
      * right. exists a, b. simpl in H. now inversion H.
Qed.

Lemma tilde_rest_spec s rest : tilde_rest s = Some rest <-> s = String "~"%char rest.
Proof.
  destruct s as [|c r]; simpl; [split; discriminate|].
  destruct (Ascii.eqb_spec c "~"%char) as [->|Hne]; split; intros H; inversion H; subst;
    try reflexivity; contradiction.
Qed.

(** *** Consequences of the defining equation *)

Lemma matchJsonElement_both_primitive ev se :
  isPrimitive ev = true -> isPrimitive se = true ->
  matchJsonElement ev se = matchPrimitive (String_ ev) (String_ se).
Proof. intros He Hs. rewrite matchJsonElement_eq, He, Hs. reflexivity. Qed.

Lemma matchJsonElement_objects el sl :
  matchJsonElement (JObj el) (JObj sl) =
    forallb (fun ksv : string * json =>
               match assoc (fst ksv) el with
               | Some v => matchJsonElement v (snd ksv)
               | None => matchInherited (fst ksv) (snd ksv)
               end) sl.
Proof. rewrite matchJsonElement_eq. reflexivity. Qed.

Lemma matchJsonElement_arrays el sl :
  matchJsonElement (JArr el) (JArr sl) =
    forallb (fun se => existsb (fun ee => matchJsonElement ee se) el) sl.
Proof. rewrite matchJsonElement_eq. reflexivity. Qed.

Lemma matchJsonElement_array_object el sl :
  matchJsonElement (JArr el) (JObj sl) = false.
Proof. rewrite matchJsonElement_eq. reflexivity. Qed.

Lemma matchJsonElement_null_nonprimitive se :
  isPrimitive se = false -> matchJsonElement JNull se = false.
Proof. intros Hs. rewrite matchJsonElement_eq. cbn. rewrite Hs. reflexivity. Qed.

Lemma matchJsonElement_string_redispatch s se :
  isPrimitive se = false ->
  matchJsonElement (JStr s) se = matchJsonElement (tryParseJSON s) se.
Proof.
  intros Hs. rewrite matchJsonElement_eq. cbn [isPrimitive typeof String.eqb negb].
  rewrite Hs. cbn.
  destruct (isNull (tryParseJSON s)) eqn:En; cbn.
  - destruct (tryParseJSON s); try discriminate.
    rewrite matchJsonElement_null_nonprimitive by exact Hs.
    now rewrite andb_false_r.
  - reflexivity.
Qed.

Lemma notAnObject_false_inv v :
  notAnObject v = false -> (exists l, v = JObj l) \/ (exists l, v = JArr l).
Proof.
  destruct v; unfold notAnObject; simpl; try discriminate; eauto.
  all: try (rewrite orb_true_r; discriminate).
Qed.


(** C1 (as amended). Against the empty-object pattern every object
    candidate matches and every array candidate fails: the object branch
    of [matchJsonElement] excludes arrays on the candidate side, and the
    array branch needs an array pattern. *)
Theorem matchJsonElement_empty_object_pattern :
  (forall members, matchJsonElement (JObj members) (JObj []) = true) /\
  (forall items, matchJsonElement (JArr items) (JObj []) = false).
Proof.
  split; intros l.
  - now rewrite matchJsonElement_objects.
  - apply matchJsonElement_array_object.
Qed.

(** C3. On two primitives the match is decided on [String(candidate)] and
    [String(pattern)]: the pattern text ["*"] matches everything; [""]
    matches exactly the candidate text [""]; a pattern text ["~rest"]
    matches exactly the candidates that contain [rest]; any other pattern
    text matches exactly the equal candidate text. *)
Theorem matchJsonElement_primitive_rules ev se :
  isPrimitive ev = true ->
  isPrimitive se = true ->
  (String_ se = "*" -> matchJsonElement ev se = true) /\
  (String_ se = "" -> (matchJsonElement ev se = true <-> String_ ev = "")) /\
  (forall rest, String_ se = String "~"%char rest ->
     (matchJsonElement ev se = true <->
      exists a b, String_ ev = (a ++ rest ++ b)%string)) /\
  (String_ se <> "*" -> String_ se <> "" ->
   (forall rest, String_ se <> String "~"%char rest) ->
     (matchJsonElement ev se = true <-> String_ ev = String_ se)).
Proof.
  intros He Hs. rewrite (matchJsonElement_both_primitive _ _ He Hs).
  unfold matchPrimitive. split; [|split; [|split]].
  - intros ->. reflexivity.
  - intros ->. cbn. apply String.eqb_eq.
  - intros rest ->. cbn. apply includes_spec.
  - intros Hstar Hempty Htilde.
    destruct (String.eqb_spec (String_ se) "*"); [contradiction|].
    destruct (String.eqb_spec (String_ se) ""); [contradiction|].
    destruct (tilde_rest (String_ se)) as [rest|] eqn:Et.
    + apply tilde_rest_spec in Et. now destruct (Htilde rest).
    + apply String.eqb_eq.
Qed.

(** C4. Two arrays match exactly when every element of the pattern array
    matches some element of the candidate array; positions play no part
    and one candidate element may serve several pattern elements.  So a
    pattern element that no candidate element matches makes the match
    fail. *)
Theorem matchJsonElement_arrays_existential el sl :
  (matchJsonElement (JArr el) (JArr sl) = true <->
   (forall se, In se sl -> exists ee, In ee el /\ matchJsonElement ee se = true)) /\
  ((exists se, In se sl /\ forall ee, In ee el -> matchJsonElement ee se = false) ->
   matchJsonElement (JArr el) (JArr sl) = false).
Proof.
  assert (Hiff : matchJsonElement (JArr el) (JArr sl) = true <->
                 (forall se, In se sl ->
                             exists ee, In ee el /\ matchJsonElement ee se = true)).
  { rewrite matchJsonElement_arrays, forallb_forall. split.
    - intros H se Hse. apply existsb_exists. now apply H.
    - intros H se Hse. apply existsb_exists. now apply H. }
  split; [exact Hiff|].
  intros (se & Hse & Hnone).
  destruct (matchJsonElement (JArr el) (JArr sl)) eqn:E; [|reflexivity].
  destruct (proj1 Hiff eq_refl se Hse) as (ee & Hee & Hm).
  rewrite (Hnone ee Hee) in Hm. discriminate.
Qed.


(** C5. A candidate string is matched against a non-primitive pattern
    through its parsed form, so a candidate whose ["body"] is the text of
    [{"x":1}] matches the pattern [{"body":{"x":1}}]. *)
Theorem matchJsonElement_string_promotion :
  (forall s se, isPrimitive se = false ->
     matchJsonElement (JStr s) se = matchJsonElement (tryParseJSON s) se) /\
  (forall text, JSON_parse text = Some (JObj [("x", JNum "1")]) ->
     matchJsonElement (JObj [("body", JStr text)])
                      (JObj [("body", JObj [("x", JNum "1")])]) = true).
Proof.
  split.
  - apply matchJsonElement_string_redispatch.
  - intros text Hp. rewrite matchJsonElement_objects. cbn -[matchJsonElement].
    rewrite matchJsonElement_string_redispatch by reflexivity.
    unfold tryParseJSON. rewrite Hp.
    rewrite matchJsonElement_objects. cbn -[matchJsonElement].
    rewrite matchJsonElement_both_primitive by reflexivity. reflexivity.
Qed.


Lemma matchNull_eq se : matchNull se = matchJsonElement JNull se.
Proof.
  rewrite matchJsonElement_eq. unfold matchNull. cbn.
  destruct (isPrimitive se); reflexivity.
Qed.




End MatcherFacts.

(** ** The reference runtime never returns more than it read *)

Module RefFacts.
Import Ref.

Ltac break_match_hyp H :=
  match type of H with
  | context [match ?x with _ => _ end] => destruct x eqn:?
  | context [if ?x then _ else _] => destruct x eqn:?
  end.

Ltac break_all H :=
  repeat (first [discriminate H | break_match_hyp H]); try discriminate H.

Lemma skip_ws_length s : String.length (skip_ws s) <= String.length s.
Proof.
  induction s as [|c r IH]; simpl; [lia|].
  destruct (is_ws c); simpl; lia.
Qed.

Lemma skip_ws_cons s c r :
  skip_ws s = String c r -> S (String.length r) <= String.length s.
Proof.
  intros H. pose proof (skip_ws_length s) as L. rewrite H in L. simpl in L. lia.
Qed.

Lemma strip_length p : forall s r,
  strip p s = Some r -> String.length s = String.length p + String.length r.
Proof.
  induction p as [|a p IH]; simpl; intros s r H.
  - now inversion H.
  - destruct s as [|b s]; [discriminate|].
    destruct (Ascii.eqb a b); [|discriminate].
    simpl. now rewrite (IH _ _ H).
Qed.

Lemma take_digits_length s : forall ds r,
  take_digits s = (ds, r) -> String.length s = String.length ds + String.length r.
Proof.
  induction s as [|c s IH]; simpl; intros ds r H.
  - now inversion H.
  - destruct (is_digit c).
    + destruct (take_digits s) as [ds' r'] eqn:E. inversion H; subst.
      simpl. now rewrite (IH _ _ eq_refl).
    + inversion H; subst. reflexivity.
Qed.

Lemma parse_number_length s repr r :
  parse_number s = Some (repr, r) -> S (String.length r) <= String.length s.
Proof.
  unfold parse_number. intros H.
  destruct s as [|c s0].
  - simpl in H. discriminate.
  - destruct (Ascii.eqb c "-"%char).
    + destruct (take_digits s0) as [ds rest] eqn:E.
      apply take_digits_length in E.
      destruct ds as [|d more]; [discriminate|].
      break_all H; inversion H; subst; simpl in *; lia.
    + destruct (take_digits (String c s0)) as [ds rest] eqn:E.
      apply take_digits_length in E.
      destruct ds as [|d more]; [discriminate|].
      break_all H; inversion H; subst; simpl in *; lia.
Qed.

Lemma push_inv c o str r :
  push c o = Some (str, r) -> exists str', o = Some (str', r) /\ str = String c str'.
Proof.
  destruct o as [[s' r']|]; simpl; [|discriminate].
  intros H. inversion H; subst. eauto.
Qed.

Lemma parse_chars_length n : forall s str r,
  String.length s <= n ->
  parse_chars s = Some (str, r) ->
  String.length str + 1 + String.length r <= String.length s.
Proof.
  induction n as [|n IH]; intros s str r Hn H.
  - destruct s; [discriminate|simpl in Hn; lia].
  - destruct s as [|c s1]; [discriminate|].
    simpl in H, Hn.
    destruct (Ascii.eqb c dq).
    { inversion H; subst. simpl. lia. }
    destruct (Ascii.eqb c bs).
    + destruct s1 as [|e r1]; [discriminate|].
      destruct (Ascii.eqb e "u"%char).
      * destruct r1 as [|h1 [|h2 [|h3 [|h4 r2]]]]; try discriminate.
        destruct (hex4 h1 h2 h3 h4) as [k|]; [|discriminate].
        destruct (k <? 256)%nat; [|discriminate].
        apply push_inv in H as (str' & H & ->).
        apply IH in H; simpl in *; lia.
      * destruct (unescape e) as [d|]; [|discriminate].
        apply push_inv in H as (str' & H & ->).
        apply IH in H; simpl in *; lia.
    + destruct (nat_of_ascii c <? 32)%nat; [discriminate|].
      apply push_inv in H as (str' & H & ->).
      apply IH in H; simpl in *; lia.
Qed.

Lemma obj_set_size k v l :
  jsize_members (obj_set k v l) <= jsize_members l + jsize v.
Proof.
  induction l as [|[k' v'] r IH]; simpl; [lia|].
  destruct (String.eqb k' k); simpl; lia.
Qed.

Lemma mk_object_size ms : jsize_members (mk_object ms) <= jsize_members ms.
Proof.
  unfold mk_object.
  assert (G : forall acc,
             jsize_members (fold_left (fun acc kv => obj_set (fst kv) (snd kv) acc) ms acc)
             <= jsize_members acc + jsize_members ms).
  { induction ms as [|[k v] r IH]; intros acc; simpl; [lia|].
    specialize (IH (obj_set k v acc)). pose proof (obj_set_size k v acc). lia. }
  apply (G []).
Qed.

Lemma parse_value_size fuel :
  (forall s v r, parse_value fuel s = Some (v, r) ->
                 jsize v + String.length r <= String.length s) /\
  (forall s vs r, parse_elements fuel s = Some (vs, r) ->
                  jsize_items vs + 1 + String.length r <= String.length s) /\
  (forall s ms r, parse_members fuel s = Some (ms, r) ->
                  jsize_members ms + 1 + String.length r <= String.length s).
Proof.
  induction fuel as [|f (IHv & IHe & IHm)].
  - repeat split; intros; discriminate.
  - repeat split.
    + intros s v r H. cbn [parse_value] in H.
      destruct (skip_ws s) as [|c t] eqn:Es; [discriminate|].
      apply skip_ws_cons in Es.
      destruct (Ascii.eqb c "{"%char).
      { destruct (skip_ws t) as [|c' t'] eqn:Et; [discriminate|].
        apply skip_ws_cons in Et.
        destruct (Ascii.eqb c' "}"%char).
        - inversion H; subst. simpl. lia.
        - destruct (parse_members f t) as [[ms r'']|] eqn:Em; [|discriminate].
          inversion H; subst. apply IHm in Em.
          rewrite jsize_JObj. pose proof (mk_object_size ms). lia. }
      destruct (Ascii.eqb c "["%char).
      { destruct (skip_ws t) as [|c' t'] eqn:Et; [discriminate|].
        apply skip_ws_cons in Et.
        destruct (Ascii.eqb c' "]"%char).
        - inversion H; subst. simpl. lia.
        - destruct (parse_elements f t) as [[vs r'']|] eqn:Ee; [|discriminate].
          inversion H; subst. apply IHe in Ee. rewrite jsize_JArr. lia. }
      destruct (Ascii.eqb c dq).
      { destruct (parse_chars t) as [[str r']|] eqn:Ec; [|discriminate].
        inversion H; subst.
        apply (parse_chars_length _ _ _ _ (le_n _)) in Ec. simpl. lia. }
      destruct (strip "null" (String c t)) as [r'|] eqn:E1.
      { inversion H; subst. apply strip_length in E1. simpl in *. lia. }
      destruct (strip "true" (String c t)) as [r'|] eqn:E2.
      { inversion H; subst. apply strip_length in E2. simpl in *. lia. }
      destruct (strip "false" (String c t)) as [r'|] eqn:E3.
      { inversion H; subst. apply strip_length in E3. simpl in *. lia. }
      destruct (parse_number (String c t)) as [[repr r']|] eqn:E4; [|discriminate].
      inversion H; subst. apply parse_number_length in E4. simpl in *. lia.
    + intros s vs r H. cbn [parse_elements] in H.
      destruct (parse_value f s) as [[v r1]|] eqn:Ev; [|discriminate].
      apply IHv in Ev.
      destruct (skip_ws r1) as [|c t] eqn:Es; [discriminate|].
      apply skip_ws_cons in Es.
      destruct (Ascii.eqb c ","%char).
      * destruct (parse_elements f t) as [[vs' r'']|] eqn:Ee; [|discriminate].
        inversion H; subst. apply IHe in Ee. simpl. lia.
      * destruct (Ascii.eqb c "]"%char); [|discriminate].
        inversion H; subst. simpl. lia.
    + intros s ms r H. cbn [parse_members] in H.
      destruct (skip_ws s) as [|c t] eqn:Es; [discriminate|].
      apply skip_ws_cons in Es.
      destruct (negb (Ascii.eqb c dq)); [discriminate|].
      destruct (parse_chars t) as [[k r1]|] eqn:Ec; [|discriminate].
      apply (parse_chars_length _ _ _ _ (le_n _)) in Ec.
      destruct (skip_ws r1) as [|c1 r2] eqn:Es1; [discriminate|].
      apply skip_ws_cons in Es1.
      destruct (negb (Ascii.eqb c1 ":"%char)); [discriminate|].
      destruct (parse_value f r2) as [[v r3]|] eqn:Ev; [|discriminate].
      apply IHv in Ev.
      destruct (skip_ws r3) as [|c3 r4] eqn:Es3; [discriminate|].
      apply skip_ws_cons in Es3.
      destruct (Ascii.eqb c3 ","%char).
      * destruct (parse_members f r4) as [[ms' r5]|] eqn:Em; [|discriminate].
        inversion H; subst. apply IHm in Em. simpl. lia.
      * destruct (Ascii.eqb c3 "}"%char); [|discriminate].
        inversion H; subst. simpl. lia.
Qed.

Lemma parse_size s v : parse s = Some v -> jsize v <= String.length s.
Proof.
  unfold parse. intros H.
  destruct (parse_value (S (String.length s)) s) as [[v' r]|] eqn:E; [|discriminate].
  destruct (skip_ws r); [|discriminate].
  inversion H; subst.
  apply (proj1 (parse_value_size _)) in E. lia.
Qed.

End RefFacts.

(** The reference runtime. *)
#[export] Instance reference : Runtime := {|
  JSON_parse := Ref.parse;
  JSON_stringify := Ref.stringify;
  JSON_parse_size := RefFacts.parse_size
|}.

(** ** The event storage keeps one event per number *)

Module EventStorageFacts.

Definition nums (st : Storage) : list Z := map event_num (getEvents st).

Lemma eventExists_spec st n :
  eventExists st n = true <-> exists e, In e (events st) /\ event_num e = n.
Proof.
  unfold eventExists. rewrite existsb_exists. split.
  - intros (e & He & Hn). exists e. split; [now apply in_rev|now apply Z.eqb_eq].
  - intros (e & He & Hn). exists e. split; [now apply in_rev in He|now apply Z.eqb_eq].
Qed.

Lemma eventExists_nums st n : eventExists st n = true <-> In n (nums st).
Proof.
  rewrite eventExists_spec. unfold nums, getEvents. rewrite in_map_iff.
  split; intros (e & H1 & H2); exists e; tauto.
Qed.

Lemma addEvent_events st e :
  events (addEvent st e) =
    if eventExists st (event_num e) then events st else events st ++ [e].
Proof. unfold addEvent. now destruct (eventExists st (event_num e)). Qed.

Lemma addEvent_matched st e : matchedEvents (addEvent st e) = matchedEvents st.
Proof. unfold addEvent. now destruct (eventExists st (event_num e)). Qed.

Lemma addEvents_matched l : forall st, matchedEvents (addEvents st l) = matchedEvents st.
Proof.
  induction l as [|e l IH]; intros st; simpl; [reflexivity|].
  unfold addEvents in *. simpl. now rewrite IH, addEvent_matched.
Qed.

Lemma addEvents_extends l : forall st,
  exists suffix, events (addEvents st l) = events st ++ suffix /\
                 (forall e, In e suffix -> In e l).
Proof.
  induction l as [|e l IH]; intros st.
  - exists []. split; [now rewrite app_nil_r|tauto].
  - destruct (IH (addEvent st e)) as (suf & Hs & Hin).
    unfold addEvents in *. cbn [fold_left]. rewrite Hs, addEvent_events.
    destruct (eventExists st (event_num e)).
    + exists suf. split; [reflexivity|]. intros x Hx. right. now apply Hin.
    + exists (e :: suf). split; [now rewrite <- app_assoc|].
      intros x [->|Hx]; [now left|right; now apply Hin].
Qed.

Lemma addEvent_NoDup st e : NoDup (nums st) -> NoDup (nums (addEvent st e)).
Proof.
  intros H. unfold nums, getEvents. rewrite addEvent_events.
  destruct (eventExists st (event_num e)) eqn:E; [exact H|].
  rewrite map_app. cbn [map].
  apply NoDup_app. split; [exact H|]. split.
  - intros n Hn Hn'. apply list_elem_of_In in Hn, Hn'.
    destruct Hn' as [<-|[]]. apply eventExists_nums in Hn. congruence.
  - apply NoDup_singleton.
Qed.

Lemma addEvents_NoDup l : forall st, NoDup (nums st) -> NoDup (nums (addEvents st l)).
Proof.
  induction l as [|e l IH]; intros st H; [exact H|].
  unfold addEvents in *. cbn [fold_left]. apply IH. now apply addEvent_NoDup.
Qed.

Lemma run_NoDup_from ops : forall st, NoDup (nums st) -> NoDup (nums (fold_left step ops st)).
Proof.
  induction ops as [|o ops IH]; intros st H; [exact H|].
  cbn [fold_left]. apply IH. destruct o; cbn [step].
  - now apply addEvents_NoDup.
  - exact H.
  - constructor.
Qed.

(** C10. [addEvents] stores an incoming event exactly when no stored
    event has its [event_num]; what was stored stays, in place, as a
    prefix of the new list; and after any sequence of calls on the
    storage the events returned by [getEvents] have pairwise distinct
    [event_num]. *)
Theorem addEvents_deduplicates :
  (forall st e,
      getEvents (addEvent st e) =
        if eventExists st (event_num e) then getEvents st else getEvents st ++ [e]) /\
  (forall st n,
      eventExists st n = true <-> exists e, In e (getEvents st) /\ event_num e = n) /\
  (forall st batch,
      exists suffix, getEvents (addEvents st batch) = getEvents st ++ suffix /\
                     (forall e, In e suffix -> In e batch)) /\
  (forall ops, NoDup (map event_num (getEvents (run ops)))).
Proof.
  repeat split.
  - apply addEvent_events.
  - now apply eventExists_spec.
  - now apply eventExists_spec.
  - intros st batch. apply addEvents_extends.
  - intros ops. apply (run_NoDup_from ops empty). constructor.
Qed.

End EventStorageFacts.

(** ** A wait takes an event at most once *)

Section EventCheckFacts.

Context {RT : Runtime}.

Lemma accepts_name st eventName data ev :
  accepts st eventName data ev = true -> EventStorage.name ev = eventName.
Proof.
  unfold accepts.
  destruct (isEventAlreadyMatched st (event_num ev)); [discriminate|].
  destruct (String.eqb_spec (EventStorage.name ev) eventName); [trivial|discriminate].
Qed.

Lemma accepts_unmatched st eventName data ev :
  accepts st eventName data ev = true -> event_num ev ∉ matchedEvents st.
Proof.
  unfold accepts, isEventAlreadyMatched.
  destruct (bool_decide_reflect (event_num ev ∈ matchedEvents st)); [discriminate|trivial].
Qed.

Lemma accepts_noData st eventName ev :
  event_num ev ∉ matchedEvents st ->
  EventStorage.name ev = eventName ->
  accepts st eventName None ev = true.
Proof.
  intros Hn Hname. unfold accepts, isEventAlreadyMatched.
  rewrite bool_decide_eq_false_2 by exact Hn.
  rewrite Hname, String.eqb_refl. reflexivity.
Qed.

(** Every stored event named [eventName] is already matched. *)
Definition consumed (eventName : string) (st : Storage) : Prop :=
  forall e, In e (events st) -> EventStorage.name e = eventName ->
            event_num e ∈ matchedEvents st.

Lemma consumed_find eventName data st :
  consumed eventName st -> List.find (accepts st eventName data) (getEvents st) = None.
Proof.
  intros Hc. destruct (List.find _ _) as [e|] eqn:E; [|reflexivity].
  apply find_some in E as [Hin Hacc].
  pose proof (accepts_unmatched _ _ _ _ Hacc) as Hn.
  apply accepts_name in Hacc. exfalso. apply Hn. now apply Hc.
Qed.

Lemma consumed_addEvents eventName st batch :
  Forall (fun e => EventStorage.name e <> eventName) batch ->
  consumed eventName st -> consumed eventName (addEvents st batch).
Proof.
  intros Hb Hc e He Hname.
  rewrite EventStorageFacts.addEvents_matched.
  destruct (EventStorageFacts.addEvents_extends batch st) as (suf & Hs & Hin).
  rewrite Hs in He. apply in_app_or in He as [He|He].
  - now apply Hc.
  - apply Hin in He. rewrite List.Forall_forall in Hb. now destruct (Hb e He).
Qed.

Lemma checkHasEvent_consumed eventName data timeout arrivals : forall st,
  Forall (Forall (fun e => EventStorage.name e <> eventName)) arrivals ->
  consumed eventName st ->
  fst (checkHasEvent eventName data timeout arrivals st)
    = Rejected (timeoutMessage eventName data timeout) /\
  matchedEvents (snd (checkHasEvent eventName data timeout arrivals st))
    = matchedEvents st.
Proof.
  induction arrivals as [|batch later IH]; intros st Ha Hc.
  - split; reflexivity.
  - cbn [checkHasEvent]. cbv zeta. rewrite consumed_find by exact Hc.
    inversion Ha as [|? ? Hb Hl]; subst.
    destruct (IH (addEvents st batch) Hl (consumed_addEvents _ _ _ Hb Hc)) as [H1 H2].
    split; [exact H1|]. now rewrite H2, EventStorageFacts.addEvents_matched.
Qed.

Lemma find_only (f : Event -> bool) (g : Event -> bool) l ev :
  (forall e, f e = true -> g e = true) ->
  List.filter g l = [ev] -> f ev = true -> List.find f l = Some ev.
Proof.
  intros Hfg. induction l as [|e l IH]; cbn [List.filter List.find]; [discriminate|].
  destruct (g e) eqn:Eg.
  - intros H Hf. inversion H; subst. now rewrite Hf.
  - intros H Hf. destruct (f e) eqn:Ef.
    + apply Hfg in Ef. congruence.
    + now apply IH.
Qed.

Lemma checkHasEvent_resolved eventName data timeout arrivals : forall st st',
  checkHasEvent eventName data timeout arrivals st = (Resolved, st') ->
  exists ev, In ev (events st') /\
             EventStorage.name ev = eventName /\
             (event_num ev ∉ matchedEvents st) /\
             matchedEvents st' = ({[event_num ev]} ∪ matchedEvents st).
Proof.
  induction arrivals as [|batch later IH]; intros st st' H.
  - discriminate.
  - cbn [checkHasEvent] in H. cbv zeta in H.
    destruct (List.find (accepts st eventName data) (getEvents st)) as [ev|] eqn:E.
    + inversion H; subst. apply find_some in E as [Hin Hacc].
      exists ev. repeat split.
      * exact Hin.
      * now apply accepts_name in Hacc.
      * now apply accepts_unmatched in Hacc.
    + apply IH in H as (ev & H1 & H2 & H3 & H4).
      rewrite EventStorageFacts.addEvents_matched in H3, H4. eauto.
Qed.

(** C2. With exactly one stored event named [X], not yet matched, the
    first of two sequential waits for [X] resolves on its first poll and
    marks that event's number; the second wait, during which no further
    event named [X] arrives, is rejected with the timeout message and
    marks nothing.  In general a wait that resolves marks exactly one
    number, the number of a stored event with the awaited name, and that
    number was not marked before. *)
Theorem checkHasEvent_at_most_once :
  (forall (X : string) (st : Storage) (ev : Event) (t1 t2 : Z)
          (batch : list Event) (later arrivals2 : list (list Event)),
      List.filter (fun e => String.eqb (EventStorage.name e) X) (getEvents st) = [ev] ->
      event_num ev ∉ matchedEvents st ->
      Forall (Forall (fun e => EventStorage.name e <> X)) arrivals2 ->
      let st1 := markEventAsMatched st (event_num ev) in
      checkHasEvent X None t1 (batch :: later) st = (Resolved, st1) /\
      isEventAlreadyMatched st1 (event_num ev) = true /\
      fst (checkHasEvent X None t2 arrivals2 st1) = Rejected (timeoutMessage X None t2) /\
      matchedEvents (snd (checkHasEvent X None t2 arrivals2 st1)) = matchedEvents st1) /\
  (forall (X : string) (data : option string) (t : Z) (arrivals : list (list Event))
          (st st' : Storage),
      checkHasEvent X data t arrivals st = (Resolved, st') ->
      exists ev, In ev (getEvents st') /\
                 EventStorage.name ev = X /\
                 (event_num ev ∉ matchedEvents st) /\
                 matchedEvents st' = ({[event_num ev]} ∪ matchedEvents st)).
Proof.
  split.
  - intros X st ev t1 t2 batch later arrivals2 Hone Hfresh Hnone st1.
    assert (Hin : In ev (getEvents st) /\ String.eqb (EventStorage.name ev) X = true).
    { apply (proj1 (List.filter_In (fun e => String.eqb (EventStorage.name e) X)
                                   ev (getEvents st))).
      rewrite Hone. now left. }
    destruct Hin as [Hin Hname]. apply String.eqb_eq in Hname.
    assert (Hfind : List.find (accepts st X None) (getEvents st) = Some ev).
    { apply find_only with (g := fun e => String.eqb (EventStorage.name e) X).
      - intros e He. apply accepts_name in He. now apply String.eqb_eq.
      - exact Hone.
      - now apply accepts_noData. }
    assert (Hc : consumed X st1).
    { intros e He Hn. subst st1. cbn [markEventAsMatched matchedEvents events] in *.
      assert (Hf : In e (List.filter (fun e => String.eqb (EventStorage.name e) X)
                                     (getEvents st))).
      { apply (proj2 (List.filter_In (fun e => String.eqb (EventStorage.name e) X)
                                     e (getEvents st))).
        split; [exact He|now apply String.eqb_eq]. }
      rewrite Hone in Hf. destruct Hf as [->|[]]. set_solver. }
    repeat split.
    + cbn [checkHasEvent]. cbv zeta. now rewrite Hfind.
    + subst st1. unfold isEventAlreadyMatched, markEventAsMatched. cbn.
      apply bool_decide_eq_true_2. set_solver.
    + now apply checkHasEvent_consumed.
    + now apply checkHasEvent_consumed.
  - intros X data t arrivals st st' H. now apply checkHasEvent_resolved in H.
Qed.

End EventCheckFacts.

(** ** What [PageElement.get] and [PageElement.getAll] return *)

Module PageElementFacts.
Import PageElement.

(** C9 (as amended). [get] returns the platform's single query when one
    is configured, else the first element of the platform's list when
    that list has one, else null.  [getAll] returns the platform's list,
    as declared, when one is configured, else the one-element list of the
    single query when that query is truthy, else null.  With neither
    configured both return null. *)
Theorem get_getAll_spec (platform : Platform) (e : t) :
  (forall loc, configuredQuery platform e = Some loc -> get platform e = Some loc) /\
  (configuredQuery platform e = None ->
   forall loc rest, configuredList platform e = Some (loc :: rest) ->
                    get platform e = Some loc) /\
  (configuredQuery platform e = None -> configuredList platform e = Some [] ->
   get platform e = None) /\
  (forall l, configuredList platform e = Some l -> getAll platform e = Some l) /\
  (configuredList platform e = None ->
   forall loc, configuredQuery platform e = Some loc ->
               getAll platform e = if truthy loc then Some [loc] else None) /\
  (configuredQuery platform e = None -> configuredList platform e = None ->
   get platform e = None /\ getAll platform e = None).
Proof.
  destruct platform; cbn [configuredQuery configuredList get getAll];
    unfold firstOf, allOf; repeat split; intros; subst;
    repeat match goal with H : _ = _ |- _ => rewrite H end; reflexivity.
Qed.

End PageElementFacts.

(** ** Scrolling and element resolution *)

Section ActionsFacts.

Context {session : Session}.

(** *** The recursion bounds of the loops are never reached *)

(** [m] ends with a value or a thrown error, later on the clock. *)
Definition settles {A} (m : M A) : Prop :=
  forall w r w', m w = (r, w') -> r <> OutOfFuel /\ (clock w <= clock w')%Z.

Ltac settle_now :=
  let H := fresh in
  intros ? ? ? H; cbn in H; inversion H; subst; cbn; split; [discriminate|lia].

Lemma settles_ret {A} (a : A) : settles (ret a).
Proof. settle_now. Qed.

Lemma settles_throw {A} (m : string) : settles (throw (A := A) m).
Proof. settle_now. Qed.

Lemma settles_Date_now : settles Date_now.
Proof. settle_now. Qed.

Lemma settles_sleep ms : settles (sleep ms).
Proof. settle_now. Qed.

Lemma settles_call {A} (c : Call A) : settles (call c).
Proof.
  intros w r w' H. unfold call in H.
  destruct (respond A (dev w) c) as [[e|a] d]; inversion H; subst; cbn;
    (split; [discriminate|lia]).
Qed.

Lemma settles_bind {A B} (m : M A) (k : A -> M B) :
  settles m -> (forall a, settles (k a)) -> settles (bind m k).
Proof.
  intros Hm Hk w r w' H. unfold bind in H.
  destruct (m w) as [[a|e|] w1] eqn:E; destruct (Hm _ _ _ E) as [H1 H2].
  - destruct (Hk a _ _ _ H) as [H3 H4]. split; [exact H3|lia].
  - inversion H; subst. split; [discriminate|exact H2].
  - contradiction.
Qed.

Lemma settles_try {A} (m : M A) : settles m -> settles (try_ m).
Proof.
  intros Hm w r w' H. unfold try_ in H.
  destruct (m w) as [[a|e|] w1] eqn:E; destruct (Hm _ _ _ E) as [H1 H2];
    inversion H; subst; try (split; [discriminate|exact H2]).
  contradiction.
Qed.

Lemma settles_both {A B} (a : M A) (b : M B) :
  settles a -> settles b -> settles (both a b).
Proof.
  intros Ha Hb. unfold both.
  apply settles_bind; [now apply settles_try|]. intros ra.
  apply settles_bind; [now apply settles_try|]. intros rb.
  destruct ra, rb; auto using settles_ret, settles_throw.
Qed.

Lemma settles_search loc : settles (search loc).
Proof. destruct loc; apply settles_call. Qed.

(** After [sleep] at least a millisecond has passed. *)
Lemma sleep_then {A} ms (k : M A) w :
  bind (sleep ms) (fun _ => k) w
  = k {| dev := idle (dev w) (Z.max 1 ms);
         clock := clock w + Z.max 1 ms; issued := issued w |}.
Proof. reflexivity. Qed.

Lemma findAllByLocator_loop_settles loc start timeoutMs pollMs fuel :
  forall lastErr w r w',
    (1 <= Z.of_nat fuel)%Z ->
    (timeoutMs - (clock w - start) + 1 <= Z.of_nat fuel)%Z ->
    findAllByLocator_loop fuel loc start timeoutMs pollMs lastErr w = (r, w') ->
    r <> OutOfFuel /\ (clock w <= clock w')%Z.
Proof.
  induction fuel as [|f IH]; intros lastErr w r w' H1 H2 H; [lia|].
  cbn [findAllByLocator_loop] in H. unfold bind at 1 in H. cbn [Date_now] in H.
  destruct (clock w - start <? timeoutMs)%Z eqn:Ec.
  - apply Z.ltb_lt in Ec. unfold bind at 1 in H.
    destruct (try_ (search loc) w) as [[[e|[|el els]]|e|] w1] eqn:Es;
      destruct (settles_try _ (settles_search loc) _ _ _ Es) as [Hs1 Hs2];
      try contradiction.
    + rewrite sleep_then in H. apply IH in H; cbn [clock] in *; try lia.
      destruct H as [G1 G2]. split; [exact G1|lia].
    + rewrite sleep_then in H. apply IH in H; cbn [clock] in *; try lia.
      destruct H as [G1 G2]. split; [exact G1|lia].
    + inversion H; subst. split; [discriminate|exact Hs2].
    + inversion H; subst. split; [discriminate|exact Hs2].
  - destruct lastErr; inversion H; subst; (split; [discriminate|lia]).
Qed.

Lemma settles_findAllByLocator loc timeoutSec pollMs :
  settles (findAllByLocator loc timeoutSec pollMs).
Proof.
  intros w r w' H. unfold findAllByLocator in H. unfold bind in H. cbn [Date_now] in H.
  apply findAllByLocator_loop_settles in H; [exact H|lia|lia].
Qed.

Lemma waitForUIStable_loop_settles start timeoutMs pollMs fuel :
  forall prev w r w',
    (1 <= Z.of_nat fuel)%Z ->
    (timeoutMs - (clock w - start) + 1 <= Z.of_nat fuel)%Z ->
    waitForUIStable_loop fuel start timeoutMs pollMs prev w = (r, w') ->
    r <> OutOfFuel /\ (clock w <= clock w')%Z.
Proof.
  induction fuel as [|f IH]; intros prev w r w' H1 H2 H; [lia|].
  cbn [waitForUIStable_loop] in H. unfold bind at 1 in H. cbn [Date_now] in H.
  destruct (clock w - start <? timeoutMs)%Z eqn:Ec.
  - apply Z.ltb_lt in Ec. rewrite sleep_then in H.
    match type of H with context [call GetPageSource] =>
      match type of H with bind _ _ ?w0 = _ => set (w1 := w0) in H end end.
    assert (Hc : clock w1 = (clock w + Z.max 1 pollMs)%Z) by reflexivity.
    clearbody w1. unfold bind at 1 in H.
    destruct (call GetPageSource w1) as [[cur|e|] w2] eqn:Eg;
      destruct (settles_call _ _ _ _ Eg) as [Hg1 Hg2]; try contradiction.
    + destruct (String.eqb cur prev).
      * inversion H; subst. split; [discriminate|lia].
      * apply IH in H; try lia. destruct H as [G1 G2]. split; [exact G1|lia].
    + inversion H; subst. split; [discriminate|lia].
  - inversion H; subst. split; [discriminate|lia].
Qed.

Lemma settles_waitForUIStable timeoutSec pollMs :
  settles (waitForUIStable timeoutSec pollMs).
Proof.
  unfold waitForUIStable. destruct (timeoutSec <=? 0)%Z; [apply settles_ret|].
  apply settles_bind; [apply settles_call|]. intros prev w r w' H.
  unfold bind in H. cbn [Date_now] in H.
  apply waitForUIStable_loop_settles in H; [exact H|lia|lia].
Qed.

Lemma settles_times n body : settles body -> settles (times n body).
Proof.
  intros Hb. induction n as [|n IH]; cbn [times]; [apply settles_ret|].
  apply settles_bind; auto.
Qed.

Lemma settles_touchAndMoveVertical a b c : settles (touchAndMoveVertical a b c).
Proof. apply settles_bind; [apply settles_call|intros _; apply settles_call]. Qed.

Lemma settles_touchAndMoveHorizontal a b c : settles (touchAndMoveHorizontal a b c).
Proof. apply settles_bind; [apply settles_call|intros _; apply settles_call]. Qed.

Lemma settles_performScroll_with waitFor element scrollCount c direction :
  (forall e, element = Some e -> settles (waitFor e)) ->
  settles (performScroll_with waitFor element scrollCount c direction).
Proof.
  intros Hw. unfold performScroll_with.
  destruct (negb (capacityInRange c)); [apply settles_throw|].
  destruct element as [e|].
  - apply settles_bind; [now apply Hw|]. intros el.
    apply settles_bind; [apply settles_both; apply settles_call|]. intros rect.
    apply settles_times. unfold swipeInRect.
    destruct (isHorizontal direction);
      [apply settles_touchAndMoveHorizontal|apply settles_touchAndMoveVertical].
  - apply settles_bind; [apply settles_call|]. intros size.
    apply settles_times. unfold scrollInWindow.
    destruct (isHorizontal direction);
      [apply settles_touchAndMoveHorizontal|apply settles_touchAndMoveVertical].
Qed.

Lemma settles_tryLocator loc elementNumber timeoutExpectation pollingInterval :
  settles (tryLocator loc elementNumber timeoutExpectation pollingInterval).
Proof.
  unfold tryLocator. apply settles_bind; [apply settles_findAllByLocator|].
  intros els. destruct (length els =? 0)%nat; [apply settles_throw|].
  cbv zeta. destruct (_ || _); [apply settles_throw|].
  destruct (nth_error els _); [|apply settles_throw].
  apply settles_bind; [apply settles_call|].
  intros []; [apply settles_ret|apply settles_throw].
Qed.

Lemma settles_tryLocators locs elementNumber timeoutExpectation pollingInterval :
  forall t, settles (tryLocators locs elementNumber timeoutExpectation pollingInterval t).
Proof.
  induction locs as [|loc rest IH]; intros t; cbn [tryLocators]; [apply settles_ret|].
  cbv zeta. apply settles_bind; [apply settles_try, settles_tryLocator|].
  intros [e|el]; [apply IH|apply settles_ret].
Qed.

Lemma waitForElements_loop_settles element elementNumber timeoutExpectation
      pollingInterval scrollCount c direction fuel :
  forall currentScroll t,
    (1 <= Z.of_nat fuel)%Z ->
    (scrollCount - currentScroll + 1 <= Z.of_nat fuel)%Z ->
    settles (waitForElements_loop fuel element elementNumber timeoutExpectation
               pollingInterval scrollCount c direction currentScroll t).
Proof.
  induction fuel as [|f IH]; intros currentScroll t H1 H2; [lia|].
  cbn [waitForElements_loop].
  apply settles_bind; [apply settles_tryLocators|].
  intros [el|t']; [apply settles_ret|].
  destruct ((0 <? scrollCount)%Z && (currentScroll <? scrollCount)%Z) eqn:Ec;
    [|apply settles_throw].
  apply andb_true_iff in Ec as [_ Ec]. apply Z.ltb_lt in Ec.
  apply settles_bind.
  - apply settles_performScroll_with. discriminate.
  - intros _. apply IH; lia.
Qed.

(** [waitForElements] and [performScroll] always end with a value or a
    thrown error. *)
Lemma settles_waitForElements element elementNumber before timeoutExpectation
      pollingInterval scrollCount c direction :
  settles (waitForElements element elementNumber before timeoutExpectation
             pollingInterval scrollCount c direction).
Proof.
  unfold waitForElements.
  apply settles_bind; [apply settles_waitForUIStable|]. intros _.
  apply waitForElements_loop_settles; lia.
Qed.

Lemma settles_performScroll element scrollCount c direction :
  settles (performScroll element scrollCount c direction).
Proof.
  unfold performScroll. apply settles_performScroll_with.
  intros e _. apply settles_waitForElements.
Qed.

(** The scroll inside [waitForElements] is [performScroll(null, 1, ...)]. *)
Lemma performScroll_null waitFor scrollCount c direction :
  performScroll_with waitFor None scrollCount c direction
  = performScroll None scrollCount c direction.
Proof. reflexivity. Qed.

(** *** The capacity check *)

Lemma capacityInRange_spec c :
  capacityInRange c = true <-> (0 < c /\ c <= 1)%Q.
Proof.
  unfold capacityInRange. rewrite andb_true_iff, negb_true_iff, Qle_bool_iff.
  split; intros [H1 H2]; split; try exact H2.
  - apply Qnot_le_lt. intros H. apply Qle_bool_iff in H. congruence.
  - destruct (Qle_bool c 0) eqn:E; [|reflexivity].
    apply Qle_bool_iff in E. exfalso. now apply (Qlt_not_le _ _ H1).
Qed.

Lemma performScroll_with_out_of_range waitFor element scrollCount c direction w :
  capacityInRange c = false ->
  performScroll_with waitFor element scrollCount c direction w
    = (Throw (capacityMessage c), w).
Proof. intros H. unfold performScroll_with. rewrite H. reflexivity. Qed.

(** C8. With a capacity outside (0, 1], [performScroll] and each of the
    eight scroll and swipe entry points throw the capacity error at once:
    the world is returned as it was, so no device call was issued, no
    time passed and nothing was retried. *)
Theorem scroll_capacity_out_of_range
        (element : option PageElement.t) (scrollCount : Z) (c : Q)
        (direction : ScrollDirection) (w : World) :
  ~ (0 < c /\ c <= 1)%Q ->
  performScroll element scrollCount c direction w = (Throw (capacityMessage c), w) /\
  scrollDown scrollCount c w = (Throw (capacityMessage c), w) /\
  scrollUp scrollCount c w = (Throw (capacityMessage c), w) /\
  scrollRight scrollCount c w = (Throw (capacityMessage c), w) /\
  scrollLeft scrollCount c w = (Throw (capacityMessage c), w) /\
  swipeDown element scrollCount c w = (Throw (capacityMessage c), w) /\
  swipeUp element scrollCount c w = (Throw (capacityMessage c), w) /\
  swipeRight element scrollCount c w = (Throw (capacityMessage c), w) /\
  swipeLeft element scrollCount c w = (Throw (capacityMessage c), w).
Proof.
  intros Hout.
  assert (H : capacityInRange c = false).
  { destruct (capacityInRange c) eqn:E; [|reflexivity].
    apply capacityInRange_spec in E. contradiction. }
  unfold scrollDown, scrollUp, scrollRight, scrollLeft,
    swipeDown, swipeUp, swipeRight, swipeLeft, performScroll.
  repeat split; now apply performScroll_with_out_of_range.
Qed.

Lemma append_cancel_l (p a b : string) : (p ++ a)%string = (p ++ b)%string -> a = b.
Proof. induction p as [|c p IH]; simpl; intros H; [exact H|]. inversion H. auto. Qed.

Lemma notFoundMessage_cause timeoutExpectation currentScroll att fl m1 m2 :
  notFoundMessage timeoutExpectation currentScroll
    {| attempted := att; failed := fl; lastErr := Some m1 |}
  = notFoundMessage timeoutExpectation currentScroll
      {| attempted := att; failed := fl; lastErr := Some m2 |} ->
  m1 = m2.
Proof.
  unfold notFoundMessage. cbn [lastErr failed attempted]. cbv zeta.
  intros H. apply append_cancel_l in H. now apply append_cancel_l in H.
Qed.

Lemma outOfRange_not_notFound elementNumber found :
  outOfRangeMessage elementNumber found <> "elements not found".
Proof. unfold outOfRangeMessage. simpl. discriminate. Qed.

(** The start of the first round of [waitForElements] for one locator
    and no pre-wait. *)
Lemma waitForElements_single e loc elementNumber before timeoutExpectation
      pollingInterval scrollCount c direction w :
  locatorsOf (Some e) = [loc] ->
  (before <= 0)%Z ->
  waitForElements (Some e) elementNumber before timeoutExpectation pollingInterval
                  scrollCount c direction w
  = match try_ (tryLocator loc elementNumber timeoutExpectation pollingInterval) w with
    | (Ok (inr el), w') => (Ok el, w')
    | (Ok (inl m), w') =>
        let t := {| attempted := [loc]; failed := [loc]; lastErr := Some m |} in
        if (0 <? scrollCount)%Z && (0 <? scrollCount)%Z then
          bind (performScroll_with (fun _ => outOfFuel) None 1 c direction)
               (fun _ => waitForElements_loop (Z.to_nat scrollCount) (Some e) elementNumber
                           timeoutExpectation pollingInterval scrollCount c direction 1%Z t) w'
        else (Throw (notFoundMessage timeoutExpectation 0 t), w')
    | (Throw m, w') => (Throw m, w')
    | (OutOfFuel, w') => (OutOfFuel, w')
    end.
Proof.
  intros Hloc Hb. unfold waitForElements, waitForUIStable.
  assert (Hle : (before <=? 0)%Z = true) by now apply Z.leb_le.
  rewrite Hle. unfold bind at 1. unfold ret at 1.
  cbn [waitForElements_loop]. rewrite Hloc. cbn [tryLocators].
  unfold bind at 1 2.
  destruct (try_ (tryLocator loc elementNumber timeoutExpectation pollingInterval) w)
    as [[[m|el]|m|] w'] eqn:Et; cbn; try reflexivity.
  destruct ((0 <? scrollCount)%Z && (0 <? scrollCount)%Z); reflexivity.
Qed.




End ActionsFacts.

(** ** Worked examples on the reference runtime and a scripted device *)

Module Scenarios.

(** The text of [{"x":1}]. *)
Definition x1_text : string :=
  String "{"%char (String Ref.dq (String "x"%char (String Ref.dq ":1}"))).

Example x1_text_parses : JSON_parse x1_text = Some (JObj [("x", JNum "1")]).
Proof. reflexivity. Qed.

(** The spec's examples of the matcher. *)
Example array_subset_matches :
  matchJsonElement (JArr [JObj [("a", JNum "1")]; JObj [("a", JNum "2")]])
                   (JArr [JObj [("a", JNum "2")]]) = true.
Proof. reflexivity. Qed.

Example array_unmatched_pattern_element_fails :
  matchJsonElement (JArr [JObj [("a", JNum "1")]])
                   (JArr [JObj [("a", JNum "1")]; JObj [("a", JNum "2")]]) = false.
Proof. reflexivity. Qed.

Example array_match_is_not_injective :
  matchJsonElement (JArr [JNum "1"]) (JArr [JNum "1"; JNum "1"]) = true.
Proof. reflexivity. Qed.

Example array_match_is_not_positional :
  matchJsonElement (JArr [JNum "1"; JNum "2"]) (JArr [JNum "2"; JNum "1"]) = true.
Proof. reflexivity. Qed.

Example substring_misses :
  matchJsonElement (JStr "hello") (JStr "~world") = false.
Proof. reflexivity. Qed.

Example wildcard_matches_null : matchJsonElement JNull (JStr "*") = true.
Proof. reflexivity. Qed.

Example empty_pattern_rejects_text : matchJsonElement (JStr "x") (JStr "") = false.
Proof. reflexivity. Qed.

(** C1, counterexample: the empty array against the empty-object pattern. *)
Lemma empty_array_against_empty_object :
  matchJsonElement (JArr []) (JObj []) = false.
Proof. reflexivity. Qed.

(** C3, witness: ["hello world"] against ["~world"]. *)
Lemma matchJsonElement_primitive_rules_witness :
  isPrimitive (JStr "hello world") = true /\
  isPrimitive (JStr "~world") = true /\
  String_ (JStr "~world") = String "~"%char "world" /\
  matchJsonElement (JStr "hello world") (JStr "~world") = true.
Proof.
  split; [reflexivity|]. split; [reflexivity|]. split; [reflexivity|].
  apply (proj1 (proj2 (proj2 (matchJsonElement_primitive_rules
                                (JStr "hello world") (JStr "~world")
                                eq_refl eq_refl)))
         "world" eq_refl).
  exists "hello ", "". reflexivity.
Defined.

(** C5, witness: the candidate [{"body": "{\"x\":1}"}]. *)
Lemma matchJsonElement_string_promotion_witness :
  JSON_parse x1_text = Some (JObj [("x", JNum "1")]) /\
  matchJsonElement (JObj [("body", JStr x1_text)])
                   (JObj [("body", JObj [("x", JNum "1")])]) = true.
Proof.
  split; [reflexivity|].
  apply (proj2 matchJsonElement_string_promotion x1_text). reflexivity.
Defined.

(** An event text with the envelope, and one without. *)
Definition envelope_text : string :=
  JSON_stringify
    (JObj [("body",
            JStr (JSON_stringify
                    (JObj [("event", JObj [("data", JObj [("x", JNum "1")])])])))]).

Example envelope_found : containsJsonData envelope_text x1_text = true.
Proof. reflexivity. Qed.

Example unparsable_event_text : containsJsonData "{" x1_text = false.
Proof. reflexivity. Qed.

Example unparsable_search_text : containsJsonData envelope_text "{" = false.
Proof. reflexivity. Qed.

Example missing_body : containsJsonData "{}" x1_text = false.
Proof. reflexivity. Qed.



Example inherited_constructor_matches :
  matchJsonElement (JObj []) (JObj [("constructor", JStr "*")]) = true /\
  matchJsonElement (JObj []) (JObj [("constructor", JStr "~native code")]) = true /\
  matchJsonElement (JObj [("constructor", JNum "1")])
                   (JObj [("constructor", JStr "~native code")]) = false /\
  matchJsonElement (JObj []) (JObj [("__proto__", JObj [])]) = true /\
  matchJsonElement (JObj []) (JObj [("missing", JStr "*")]) = false.
Proof. repeat split. Qed.

(** A log with one event named ["X"]. *)
Definition eventX : Event :=
  {| event_time := "2026-01-01T00:00:00.000Z"; event_num := 1; name := "X"; data := None |}.

Definition eventY : Event :=
  {| event_time := "2026-01-01T00:00:01.000Z"; event_num := 2; name := "Y"; data := None |}.

Definition log : Storage := addEvents empty [eventY; eventX; eventX].

Example log_events : getEvents log = [eventY; eventX].
Proof. reflexivity. Qed.

(** C2, witness: two sequential waits for ["X"] on [log]; a ["Y"] event
    arrives during the second wait. *)
Lemma checkHasEvent_at_most_once_witness :
  checkHasEvent "X" None 15 [[]] log = (Resolved, markEventAsMatched log 1) /\
  fst (checkHasEvent "X" None 15 [[eventY]; []] (markEventAsMatched log 1))
    = Rejected (timeoutMessage "X" None 15).
Proof.
  assert (Hone : List.filter (fun e => String.eqb (EventStorage.name e) "X")
                             (getEvents log) = [eventX]) by reflexivity.
  assert (Hfresh : event_num eventX ∉ matchedEvents log).
  { cbn. apply not_elem_of_empty. }
  assert (Hnone : Forall (Forall (fun e => EventStorage.name e <> "X")) [[eventY]; []]).
  { repeat constructor. discriminate. }
  pose proof (proj1 checkHasEvent_at_most_once "X" log eventX 15%Z 15%Z
                    [] [] [[eventY]; []] Hone Hfresh Hnone) as H.
  cbv zeta in H. destruct H as (H1 & _ & H3 & _).
  split; [exact H1|exact H3].
Defined.

(** C9, counterexample: an element whose single Android query is the
    empty string; [get] returns the query and [getAll] returns null. *)
Definition emptyQuery : PageElement.t :=
  {| PageElement.android := Some (Selector "");
     PageElement.ios := None;
     PageElement.androidList := None;
     PageElement.iosList := None |}.

Lemma getAll_drops_an_empty_query :
  PageElement.get ANDROID emptyQuery = Some (Selector "") /\
  PageElement.getAll ANDROID emptyQuery = None.
Proof. split; reflexivity. Qed.

(** C9, witness: a list of two Android queries. *)
Definition twoQueries : PageElement.t :=
  {| PageElement.android := None;
     PageElement.ios := None;
     PageElement.androidList := Some [Selector "//a"; By "xpath" "//b"];
     PageElement.iosList := None |}.

Lemma get_getAll_spec_witness :
  PageElement.get ANDROID twoQueries = Some (Selector "//a") /\
  PageElement.getAll ANDROID twoQueries = Some [Selector "//a"; By "xpath" "//b"] /\
  PageElement.get IOS twoQueries = None /\
  PageElement.getAll IOS twoQueries = None.
Proof.
  pose proof (PageElementFacts.get_getAll_spec ANDROID twoQueries)
    as (_ & H2 & _ & H4 & _).
  pose proof (PageElementFacts.get_getAll_spec IOS twoQueries)
    as (_ & _ & _ & _ & _ & H6).
  split; [exact (H2 eq_refl _ _ eq_refl)|].
  split; [exact (H4 _ eq_refl)|].
  exact (H6 eq_refl eq_refl).
Defined.

(** A device that shows two elements under the selector ["//item"] and
    nothing under any other. *)
Definition scripted (A : Type) (d : unit) (c : Call A) : (string + A) * unit :=
  match c in Call T return (string + T) * unit with
  | GetPageSource => (inr "<hierarchy/>", tt)
  | FindAll selector =>
      (inr (if String.eqb selector "//item"
            then [ElementRef "first"; ElementRef "second"] else []), tt)
  | FindElements _ _ => (inr [], tt)
  | IsDisplayed _ => (inr true, tt)
  | GetLocation _ => (inr {| x := 0; y := 0 |}, tt)
  | GetSize _ => (inr {| width := 100; height := 40 |}, tt)
  | GetWindowSize => (inr {| width := 1080; height := 1920 |}, tt)
  | PerformActions _ => (inr tt, tt)
  | ReleaseActions => (inr tt, tt)
  end.

(** [String(n)] on the capacities the examples use. *)
Definition printCapacity (q : Q) : string :=
  if Qeq_bool q (3 # 2) then "1.5" else String_Z (Qfloor q).

#[local] Instance device : Session := {|
  DevState := unit;
  respond := scripted;
  latency := fun _ _ _ => 5%Z;
  idle := fun d _ => d;
  platform := ANDROID;
  String_number := printCapacity
|}.

Definition start : World := {| dev := tt; clock := 0; issued := [] |}.

Definition item : PageElement.t :=
  {| PageElement.android := Some (Selector "//item");
     PageElement.ios := None;
     PageElement.androidList := None;
     PageElement.iosList := None |}.

Definition absent : PageElement.t :=
  {| PageElement.android := Some (Selector "//absent");
     PageElement.ios := None;
     PageElement.androidList := None;
     PageElement.iosList := None |}.

Definition afterOneSearch : World :=
  {| dev := tt; clock := 5; issued := [Issue (FindAll "//item")] |}.

Example search_finds_two :
  findAllByLocator (Selector "//item") 10 1000 start
    = (Ok [ElementRef "first"; ElementRef "second"], afterOneSearch).
Proof. reflexivity. Qed.


(** C4, witness: the spec's failing pair; the pattern element [{"a":2}]
    has no match in the candidate. *)
Lemma matchJsonElement_arrays_existential_witness :
  (exists se, In se [JObj [("a", JNum "1")]; JObj [("a", JNum "2")]] /\
              forall ee, In ee [JObj [("a", JNum "1")]] ->
                         matchJsonElement ee se = false) /\
  matchJsonElement (JArr [JObj [("a", JNum "1")]])
                   (JArr [JObj [("a", JNum "1")]; JObj [("a", JNum "2")]]) = false.
Proof.
  assert (H : exists se, In se [JObj [("a", JNum "1")]; JObj [("a", JNum "2")]] /\
                         forall ee, In ee [JObj [("a", JNum "1")]] ->
                                    matchJsonElement ee se = false).
  { exists (JObj [("a", JNum "2")]). split; [right; now left|].
    intros ee [<-|[]]. reflexivity. }
  split; [exact H|].
  exact (proj2 (matchJsonElement_arrays_existential _ _) H).
Defined.

(** Two alternatives, the first with two elements and the second with
    none: the cause kept is that of the last locator tried. *)
Definition itemThenAbsent : PageElement.t :=
  {| PageElement.android := None;
     PageElement.ios := None;
     PageElement.androidList := Some [Selector "//item"; Selector "//absent"];
     PageElement.iosList := None |}.

Example last_alternative_gives_the_cause :
  fst (waitForElements (Some itemThenAbsent) (Some 5%Z) 0 2 1000 0 1 Down start)
    = Throw ("Элементы не найдены за '2' секунд после '0' скроллов. "
             ++ "Локаторы не найдены: //item, //absent из списка //item, //absent. "
             ++ "Причина: elements not found")%string.
Proof. reflexivity. Qed.


(** Inside [waitForElements] the capacity is checked when the first
    scroll is due, after the first search. *)
Example resolution_checks_capacity_when_scrolling :
  waitForElements (Some absent) None 0 1 1000 1 0 Down start
    = (Throw "scrollCapacity=0, допустимый диапазон (0.0; 1.0]",
       {| dev := tt; clock := 1005; issued := [Issue (FindAll "//absent")] |}).
Proof. reflexivity. Qed.

Example no_elements_diagnostic :
  fst (waitForElements (Some absent) (Some 5%Z) 0 2 1000 0 1 Down start)
    = Throw ("Элементы не найдены за '2' секунд после '0' скроллов. "
             ++ "Локаторы не найдены: //absent из списка //absent. "
             ++ "Причина: elements not found")%string.
Proof. reflexivity. Qed.

Example first_element_without_ordinal :
  fst (waitForElements (Some item) None 0 10 1000 0 1 Down start)
    = Ok (ElementRef "first").
Proof. reflexivity. Qed.

(** C8, witness: capacities 0 and 1.5. *)
Lemma scroll_capacity_out_of_range_witness :
  ~ (0 < 0 /\ 0 <= 1)%Q /\
  ~ (0 < 3 # 2 /\ 3 # 2 <= 1)%Q /\
  scrollDown 1 0 start
    = (Throw "scrollCapacity=0, допустимый диапазон (0.0; 1.0]", start) /\
  swipeLeft (Some item) 2 (3 # 2) start
    = (Throw "scrollCapacity=1.5, допустимый диапазон (0.0; 1.0]", start).
Proof.
  assert (H0 : ~ (0 < 0 /\ 0 <= 1)%Q) by (intros [H _]; discriminate H).
  assert (H1 : ~ (0 < 3 # 2 /\ 3 # 2 <= 1)%Q) by (intros [_ H]; now apply H).
  split; [exact H0|]. split; [exact H1|]. split.
  - exact (proj1 (proj2 (scroll_capacity_out_of_range None 1 0 Down start H0))).
  - pose proof (scroll_capacity_out_of_range (Some item) 2 (3 # 2) Left start H1)
      as (_ & _ & _ & _ & _ & _ & _ & _ & H).
    exact H.
Defined.

Example valid_scroll_issues_calls :
  scrollDown 1 1 start
    = (Ok tt,
       {| dev := tt; clock := 15;
          issued := [Issue GetWindowSize;
                     Issue (PerformActions [pointerMove 0 540 1440; pointerDown 0;
                                            pause 500; pointerMove 500 540 0;
                                            pointerUp 0]);
                     Issue ReleaseActions] |}).
Proof. reflexivity. Qed.

(** A batch that repeats stored numbers changes nothing. *)
Example repeated_number_is_ignored :
  getEvents (addEvents log [eventX; eventY]) = getEvents log.
Proof. reflexivity. Qed.

End Scenarios.

(** * Further properties *)

(** ** The matcher: subsets, kinds, self-match, tree search *)

Section MatcherProperties.

Context {RT : Runtime}.

Lemma assoc_app k el extra v :
  assoc k el = Some v -> assoc k (el ++ extra) = Some v.
Proof.
  induction el as [|[k' x] r IH]; simpl; [discriminate|].
  destruct (String.eqb k' k); auto.
Qed.

Lemma matchJsonElement_objects_iff el sl :
  matchJsonElement (JObj el) (JObj sl) = true <->
  (forall k sv, In (k, sv) sl ->
                (exists v, assoc k el = Some v /\ matchJsonElement v sv = true) \/
                (assoc k el = None /\ matchInherited k sv = true)).
Proof.
  rewrite matchJsonElement_objects, forallb_forall. split.
  - intros H k sv Hin. specialize (H (k, sv) Hin). cbn [fst snd] in H.
    destruct (assoc k el) as [v|]; [left; eauto|right; auto].
  - intros H [k sv] Hin. cbn [fst snd].
    destruct (H k sv Hin) as [(v & -> & Hm)|[-> Hm]]; exact Hm.
Qed.

Lemma matchJsonElement_own_members el sl :
  (forall k sv, In (k, sv) sl ->
                exists v, assoc k el = Some v /\ matchJsonElement v sv = true) ->
  matchJsonElement (JObj el) (JObj sl) = true.
Proof.
  intros H. apply matchJsonElement_objects_iff. intros k sv Hin. left. now apply H.
Qed.

(** X1. An object pattern against an object candidate.  It matches
    exactly when every key of the pattern is an own key of the candidate
    whose value matches the pattern's value or, the candidate having no
    such own key, a member inherited from [Object.prototype] that
    matches: a built-in function, compared by the text it prints as, or
    the prototype itself under [__proto__].  A match through own keys is
    not undone by members added after the candidate's own.  A key that
    is neither own nor inherited fails; an inherited function matches
    the wildcard, so the pattern with the one member [constructor]
    against ["*"] matches every object without an own [constructor]. *)
Theorem matchJsonElement_object_subset el sl :
  (matchJsonElement (JObj el) (JObj sl) = true <->
   (forall k sv, In (k, sv) sl ->
                 (exists v, assoc k el = Some v /\ matchJsonElement v sv = true) \/
                 (assoc k el = None /\ matchInherited k sv = true))) /\
  ((forall k sv, In (k, sv) sl ->
                 exists v, assoc k el = Some v /\ matchJsonElement v sv = true) ->
   forall extra, matchJsonElement (JObj (el ++ extra)) (JObj sl) = true) /\
  (forall k sv, In (k, sv) sl -> assoc k el = None ->
                prototypeFunction k = None -> k <> "__proto__" ->
                matchJsonElement (JObj el) (JObj sl) = false) /\
  (forall k name, assoc k el = None -> prototypeFunction k = Some name ->
                  matchJsonElement (JObj el) (JObj [(k, JStr "*")]) = true) /\
  (assoc "constructor" el = None ->
   matchJsonElement (JObj el) (JObj [("constructor", JStr "*")]) = true).
Proof.
  assert (Hfun : forall k name, assoc k el = None -> prototypeFunction k = Some name ->
                   matchJsonElement (JObj el) (JObj [(k, JStr "*")]) = true).
  { intros k name Ha Hp. rewrite matchJsonElement_objects. cbn [forallb fst snd].
    rewrite Ha. unfold matchInherited. rewrite Hp. reflexivity. }
  split; [apply matchJsonElement_objects_iff|]. split; [|split; [|split]].
  - intros H extra. apply matchJsonElement_own_members.
    intros k sv Hin. destruct (H k sv Hin) as (v & Ha & Hm).
    exists v. split; [now apply assoc_app|exact Hm].
  - intros k sv Hin Ha Hp Hk.
    destruct (matchJsonElement (JObj el) (JObj sl)) eqn:E; [|reflexivity].
    destruct (proj1 (matchJsonElement_objects_iff el sl) E k sv Hin)
      as [(v & Hv & _)|[_ Hm]]; [congruence|].
    unfold matchInherited in Hm. rewrite Hp in Hm.
    apply String.eqb_neq in Hk. rewrite Hk in Hm. discriminate.
  - exact Hfun.
  - intros Ha. now apply (Hfun "constructor" "Object").
Qed.

(** X2. Kinds do not mix: a primitive pattern, the wildcard included,
    never matches an object or an array; an object or array pattern
    never matches a candidate that is null, a boolean or a number; an
    object never matches an array pattern, nor an array an object
    pattern. *)
Theorem matchJsonElement_kind_mismatch :
  (forall ev se, isPrimitive ev = false -> isPrimitive se = true ->
                 matchJsonElement ev se = false) /\
  (forall el, matchJsonElement (JObj el) (JStr "*") = false) /\
  (forall el, matchJsonElement (JArr el) (JStr "*") = false) /\
  (forall ev se, isPrimitive ev = true -> typeof ev <> "string" ->
                 isPrimitive se = false -> matchJsonElement ev se = false) /\
  (forall el sl, matchJsonElement (JObj el) (JArr sl) = false) /\
  (forall el sl, matchJsonElement (JArr el) (JObj sl) = false).
Proof.
  assert (H1 : forall ev se, isPrimitive ev = false -> isPrimitive se = true ->
                             matchJsonElement ev se = false).
  { intros ev se He Hs. rewrite matchJsonElement_eq.
    destruct ev; try discriminate; destruct se; try discriminate;
      cbn; rewrite ?andb_false_r; reflexivity. }
  split; [exact H1|].
  split; [intros el; now apply H1|].
  split; [intros el; now apply H1|].
  split.
  - intros ev se He Ht Hs. rewrite matchJsonElement_eq.
    destruct ev; try discriminate; try (exfalso; now apply Ht);
      destruct se; try discriminate; cbn; rewrite ?andb_false_r; reflexivity.
  - split; intros el sl; rewrite matchJsonElement_eq; reflexivity.
Qed.

Lemma append_empty_r (s : string) : (s ++ "")%string = s.
Proof.
  induction s as [|c r IH]; [reflexivity|].
  change (String c (r ++ "")%string = String c r). now rewrite IH.
Qed.

Lemma matchPrimitive_refl s : matchPrimitive s s = true.
Proof.
  unfold matchPrimitive.
  destruct (String.eqb s "*"); [reflexivity|].
  destruct (String.eqb_spec s ""); [subst; reflexivity|].
  destruct (tilde_rest s) as [rest|] eqn:E.
  - apply tilde_rest_spec in E. subst. apply includes_spec.
    exists "~", "". change (String "~"%char rest = String "~"%char (rest ++ "")%string).
    now rewrite append_empty_r.
  - apply String.eqb_refl.
Qed.

Lemma keysDistinct_assoc l : forall k v,
  keysDistinct l = true -> In (k, v) l -> assoc k l = Some v.
Proof.
  induction l as [|[k' x] r IH]; intros k v Hd Hin; [destruct Hin|].
  cbn [keysDistinct] in Hd. apply andb_true_iff in Hd as [Hfresh Hd].
  cbn [assoc]. destruct Hin as [Heq|Hin].
  - inversion Heq; subst. now rewrite String.eqb_refl.
  - destruct (String.eqb_spec k' k) as [->|Hne]; [|now apply IH].
    apply negb_true_iff in Hfresh.
    assert (Hex : existsb (fun kv : string * json => String.eqb (fst kv) k) r = true).
    { apply existsb_exists. exists (k, v). split; [exact Hin|apply String.eqb_refl]. }
    congruence.
Qed.

Lemma jsize_members_In k x l : In (k, x) l -> jsize x <= jsize_members l.
Proof.
  induction l as [|[k' y] r IH]; simpl; [tauto|].
  intros [H|H]; [inversion H; subst; lia|]. specialize (IH H). lia.
Qed.

Lemma matchJsonElement_self_bounded n : forall v,
  jsize v <= n -> distinctKeys v = true -> matchJsonElement v v = true.
Proof.
  induction n as [|n IH]; intros v Hn Hd.
  - pose proof (jsize_pos v). lia.
  - destruct v as [|b|r|s|l|l].
    + rewrite matchJsonElement_both_primitive by reflexivity. apply matchPrimitive_refl.
    + rewrite matchJsonElement_both_primitive by reflexivity. apply matchPrimitive_refl.
    + rewrite matchJsonElement_both_primitive by reflexivity. apply matchPrimitive_refl.
    + rewrite matchJsonElement_both_primitive by reflexivity. apply matchPrimitive_refl.
    + rewrite matchJsonElement_arrays. apply forallb_forall. intros se Hse.
      apply existsb_exists. exists se. split; [exact Hse|]. apply IH.
      * apply jsize_items_In in Hse. rewrite jsize_JArr in Hn. lia.
      * cbn [distinctKeys] in Hd. rewrite forallb_forall in Hd. now apply Hd.
    + cbn [distinctKeys] in Hd. apply andb_true_iff in Hd as [Hk Hv].
      apply matchJsonElement_own_members. intros k sv Hin.
      exists sv. split; [now apply keysDistinct_assoc|]. apply IH.
      * apply jsize_members_In in Hin. rewrite jsize_JObj in Hn. lia.
      * rewrite forallb_forall in Hv. now apply (Hv (k, sv)).
Qed.

(** X3. A value whose objects have distinct keys, used as the pattern,
    matches itself. *)
Theorem matchJsonElement_self v :
  distinctKeys v = true -> matchJsonElement v v = true.
Proof. apply (matchJsonElement_self_bounded (jsize v)). lia. Qed.

Lemma findKeyValueInTree_array l key sv :
  findKeyValueInTree (JArr l) key sv
  = existsb (fun it => findKeyValueInTree it key sv) l.
Proof. cbn [findKeyValueInTree]. induction l as [|x r IH]; simpl; [reflexivity|]. now rewrite IH. Qed.

Lemma findKeyValueInTree_object l key sv :
  findKeyValueInTree (JObj l) key sv
  = existsb (fun kv : string * json =>
               (String.eqb (fst kv) key && matchJsonElement (snd kv) sv)
               || findKeyValueInTree (snd kv) key sv) l.
Proof.
  cbn [findKeyValueInTree]. induction l as [|[k x] r IH]; simpl; [reflexivity|].
  rewrite IH. now destruct ((String.eqb k key && matchJsonElement x sv)
                            || findKeyValueInTree x key sv).
Qed.

Lemma findKeyValueInTree_found_bounded key sv n : forall element,
  jsize element <= n ->
  findKeyValueInTree element key sv = true ->
  exists members v, inside (JObj members) element /\ In (key, v) members /\
                    matchJsonElement v sv = true.
Proof.
  induction n as [|n IH]; intros element Hn H.
  - pose proof (jsize_pos element). lia.
  - destruct element as [|b|r|s|l|l]; try discriminate.
    + rewrite findKeyValueInTree_array in H. apply existsb_exists in H as (it & Hin & Hit).
      apply IH in Hit as (members & v & Hi & Hm & Hv).
      * exists members, v. split; [now apply inside_item with it|auto].
      * apply jsize_items_In in Hin. rewrite jsize_JArr in Hn. lia.
    + rewrite findKeyValueInTree_object in H.
      apply existsb_exists in H as ([k x] & Hin & Hkv). cbn [fst snd] in Hkv.
      apply orb_true_iff in Hkv as [Hhere|Hdeep].
      * apply andb_true_iff in Hhere as [Hk Hv]. apply String.eqb_eq in Hk. subst k.
        exists l, x. split; [apply inside_here|auto].
      * apply IH in Hdeep as (members & v & Hi & Hm & Hv).
        -- exists members, v. split; [now apply inside_member with k x|auto].
        -- apply jsize_members_In in Hin. rewrite jsize_JObj in Hn. lia.
Qed.

Lemma findKeyValueInTree_inside key sv members v element :
  inside (JObj members) element -> In (key, v) members ->
  matchJsonElement v sv = true ->
  findKeyValueInTree element key sv = true.
Proof.
  intros Hi Hm Hv. induction Hi as [|l x Hin _ IH|l k x Hin _ IH].
  - rewrite findKeyValueInTree_object. apply existsb_exists.
    exists (key, v). split; [exact Hm|]. cbn [fst snd].
    now rewrite String.eqb_refl, Hv.
  - rewrite findKeyValueInTree_array. apply existsb_exists. eauto.
  - rewrite findKeyValueInTree_object. apply existsb_exists.
    exists (k, x). split; [exact Hin|]. cbn [fst snd]. rewrite IH. apply orb_true_r.
Qed.

(** X4. [findKeyValueInTree] answers [true] exactly when some object of
    the tree, reached through array elements and member values, has a
    member named [key] whose value matches [searchValue]; on a primitive
    root it answers [false]. *)
Theorem findKeyValueInTree_spec element key searchValue :
  (findKeyValueInTree element key searchValue = true <->
   exists members v, inside (JObj members) element /\ In (key, v) members /\
                     matchJsonElement v searchValue = true) /\
  (isPrimitive element = true -> findKeyValueInTree element key searchValue = false).
Proof.
  split; [split|].
  - apply (findKeyValueInTree_found_bounded key searchValue (jsize element)). lia.
  - intros (members & v & Hi & Hm & Hv). now apply findKeyValueInTree_inside with members v.
  - destruct element; try discriminate; reflexivity.
Qed.

End MatcherProperties.

(** ** The event storage: batches, the index window, clearing *)

Module EventStorageProperties.
Import EventStorageFacts.

Lemma addEvent_known st e : eventExists st (event_num e) = true -> addEvent st e = st.
Proof. unfold addEvent. intros ->. reflexivity. Qed.

Lemma eventExists_addEvent st e n :
  eventExists (addEvent st e) n = eventExists st n || (event_num e =? n)%Z.
Proof.
  destruct (Z.eqb_spec (event_num e) n) as [<-|Hne].
  - unfold addEvent. destruct (eventExists st (event_num e)) eqn:E; cbn [negb].
    + now rewrite E.
    + unfold eventExists. cbn [events]. rewrite rev_app_distr. cbn.
      now rewrite Z.eqb_refl.
  - rewrite orb_false_r. unfold addEvent.
    destruct (eventExists st (event_num e)); cbn [negb]; [reflexivity|].
    unfold eventExists. cbn [events]. rewrite rev_app_distr. cbn.
    now destruct (Z.eqb_spec (event_num e) n).
Qed.

Lemma eventExists_addEvents l : forall st n,
  eventExists (addEvents st l) n
  = eventExists st n || existsb (fun e => (event_num e =? n)%Z) l.
Proof.
  induction l as [|e l IH]; intros st n; cbn [existsb].
  - now rewrite orb_false_r.
  - unfold addEvents in *. cbn [fold_left].
    now rewrite IH, eventExists_addEvent, orb_assoc.
Qed.

Lemma addEvents_known l : forall st,
  (forall e, In e l -> eventExists st (event_num e) = true) -> addEvents st l = st.
Proof.
  induction l as [|e l IH]; intros st H; [reflexivity|].
  unfold addEvents in *. cbn [fold_left].
  rewrite addEvent_known by (apply H; now left).
  apply IH. intros x Hx. apply H. now right.
Qed.

(** X5. A batch whose numbers are all stored already changes nothing,
    so storing a batch twice is storing it once; and storing two
    batches one after the other is storing their concatenation. *)
Theorem addEvents_absorbs :
  (forall st batch,
      (forall e, In e batch -> eventExists st (event_num e) = true) ->
      addEvents st batch = st) /\
  (forall st batch, addEvents (addEvents st batch) batch = addEvents st batch) /\
  (forall st b1 b2, addEvents (addEvents st b1) b2 = addEvents st (b1 ++ b2)).
Proof.
  split; [intros st batch; apply addEvents_known|]. split.
  - intros st batch. apply addEvents_known. intros e He.
    rewrite eventExists_addEvents. apply orb_true_iff. right.
    apply existsb_exists. exists e. split; [exact He|apply Z.eqb_refl].
  - intros st b1 b2. unfold addEvents. now rewrite fold_left_app.
Qed.

Definition unmatched (st : Storage) (ev : Event) : bool :=
  negb (isEventAlreadyMatched st (event_num ev)).

Lemma getIndexEvents_eq st index :
  getIndexEvents st index =
    if (index <? 0)%Z then []
    else List.filter (unmatched st) (skipn (Z.to_nat index) (getEvents st)).
Proof.
  unfold getIndexEvents, getEvents.
  destruct (Z.ltb_spec index 0) as [Hneg|Hpos]; cbn [orb]; [reflexivity|].
  destruct (Z.leb_spec (Z.of_nat (length (events st))) index) as [Hout|Hin];
    [|reflexivity].
  rewrite skipn_all2 by lia. reflexivity.
Qed.

(** X6. [getIndexEvents] is the stored list from position [index] on,
    without the matched events: nothing for a negative index, and the
    test against the length changes nothing for the others.  Every event
    it returns is stored at a position not below [index] and is
    unmatched; after [markEventAsMatched n] no event numbered [n] is
    returned at any index. *)
Theorem getIndexEvents_spec st index :
  (getIndexEvents st index =
     if (index <? 0)%Z then []
     else List.filter (fun ev => negb (isEventAlreadyMatched st (event_num ev)))
                      (skipn (Z.to_nat index) (getEvents st))) /\
  (forall ev, In ev (getIndexEvents st index) ->
              exists k, (index <= Z.of_nat k)%Z /\
                        nth_error (getEvents st) k = Some ev /\
                        isEventAlreadyMatched st (event_num ev) = false) /\
  (forall n ev, In ev (getIndexEvents (markEventAsMatched st n) index) ->
                event_num ev <> n).
Proof.
  split; [apply getIndexEvents_eq|]. split.
  - intros ev. rewrite getIndexEvents_eq.
    destruct (Z.ltb_spec index 0) as [Hneg|Hpos]; [intros []|].
    intros Hin.
    apply (proj1 (List.filter_In (unmatched st) ev _)) in Hin as [Hin Hun].
    apply In_nth_error in Hin as [j Hj]. rewrite nth_error_skipn in Hj.
    exists (Z.to_nat index + j)%nat. split; [lia|]. split; [exact Hj|].
    now apply negb_true_iff in Hun.
  - intros n ev. rewrite getIndexEvents_eq.
    destruct (index <? 0)%Z; [intros []|].
    intros Hin.
    apply (proj1 (List.filter_In (unmatched (markEventAsMatched st n)) ev _)) in Hin
      as [_ Hun].
    apply negb_true_iff in Hun. unfold isEventAlreadyMatched in Hun.
    apply bool_decide_eq_false in Hun. cbn [markEventAsMatched matchedEvents] in Hun.
    intros Heq. apply Hun. rewrite Heq. set_solver.
Qed.

Lemma isEventAlreadyMatched_mark st n m :
  isEventAlreadyMatched (markEventAsMatched st n) m
  = (m =? n)%Z || isEventAlreadyMatched st m.
Proof.
  unfold isEventAlreadyMatched, markEventAsMatched. cbn [matchedEvents].
  destruct (Z.eqb_spec m n) as [->|Hne]; cbn [orb].
  - apply bool_decide_eq_true_2. apply elem_of_union_l, elem_of_singleton. reflexivity.
  - apply bool_decide_ext. rewrite elem_of_union, elem_of_singleton. tauto.
Qed.

Lemma run_app ops1 ops2 : run (ops1 ++ ops2) = fold_left step ops2 (run ops1).
Proof. unfold run. apply fold_left_app. Qed.

(** X7. [clear] forgets the events and the marks alike: a session of
    calls leaves what the calls after its last [clear] leave, a number
    stored before can be stored again, and nothing is matched.  Marks do
    not depend on what is stored: [markEventAsMatched] leaves the events
    as they are, accepts a number no stored event has, and marking twice
    or in another order gives the same storage; [addEvents] never
    changes what is matched. *)
Theorem clear_resets_marks_persist :
  (forall before after, run (before ++ Clear :: after) = run after) /\
  (forall st, getEvents (clear st) = [] /\ getLastEvent (clear st) = None /\
              forall n, isEventAlreadyMatched (clear st) n = false /\
                        eventExists (clear st) n = false) /\
  (forall st n m,
      getEvents (markEventAsMatched st n) = getEvents st /\
      isEventAlreadyMatched (markEventAsMatched st n) m
      = (m =? n)%Z || isEventAlreadyMatched st m) /\
  (forall st n, markEventAsMatched (markEventAsMatched st n) n = markEventAsMatched st n) /\
  (forall st n m, markEventAsMatched (markEventAsMatched st n) m
                  = markEventAsMatched (markEventAsMatched st m) n) /\
  (forall st batch n, isEventAlreadyMatched (addEvents st batch) n
                      = isEventAlreadyMatched st n).
Proof.
  split; [|split; [|split; [|split; [|split]]]].
  - intros before after. rewrite run_app. reflexivity.
  - intros st. repeat split.
  - intros st n m. split; [reflexivity|apply isEventAlreadyMatched_mark].
  - intros st n. unfold markEventAsMatched. cbn [events matchedEvents]. f_equal.
    now rewrite (assoc_L (∪)), (idemp_L (∪)).
  - intros st n m. unfold markEventAsMatched. cbn [events matchedEvents]. f_equal.
    now rewrite !(assoc_L (∪)), (comm_L (∪) {[m]} {[n]}).
  - intros st batch n. unfold isEventAlreadyMatched. now rewrite addEvents_matched.
Qed.

End EventStorageProperties.

(** ** Waiting for events: when a wait resolves, and in which order *)

Section EventCheckProperties.

Context {RT : Runtime}.

Lemma accepts_marks st1 st2 eventName data ev :
  matchedEvents st1 = matchedEvents st2 ->
  accepts st1 eventName data ev = accepts st2 eventName data ev.
Proof. unfold accepts, isEventAlreadyMatched. now intros ->. Qed.

Lemma accepts_addEvents st batch eventName data ev :
  accepts (addEvents st batch) eventName data ev = accepts st eventName data ev.
Proof. apply accepts_marks, EventStorageFacts.addEvents_matched. Qed.

Lemma find_ext {A} (f g : A -> bool) l :
  (forall x, f x = g x) -> List.find f l = List.find g l.
Proof.
  intros H. induction l as [|x l IH]; cbn [List.find]; [reflexivity|].
  now rewrite H, IH.
Qed.

Lemma checkHasEvent_rejected_state eventName data t arrivals : forall st r st',
  checkHasEvent eventName data t arrivals st = (r, st') ->
  r = Resolved \/
  (r = Rejected (timeoutMessage eventName data t) /\
   st' = fold_left addEvents arrivals st).
Proof.
  induction arrivals as [|batch later IH]; intros st r st' H.
  - inversion H. right. split; reflexivity.
  - cbn [checkHasEvent] in H. cbv zeta in H.
    destruct (List.find (accepts st eventName data) (getEvents st)).
    + inversion H. now left.
    + apply IH in H. exact H.
Qed.

Lemma checkHasEvent_resolved_iff eventName data t arrivals : forall st,
  fst (checkHasEvent eventName data t arrivals st) = Resolved <->
  exists k ev, (k < length arrivals)%nat /\
               In ev (getEvents (fold_left addEvents (firstn k arrivals) st)) /\
               accepts st eventName data ev = true.
Proof.
  induction arrivals as [|batch later IH]; intros st.
  - split; [discriminate|]. intros (k & ev & Hk & _). cbn in Hk. lia.
  - cbn [checkHasEvent]. cbv zeta.
    destruct (List.find (accepts st eventName data) (getEvents st)) as [ev|] eqn:E.
    + split; [intros _|reflexivity].
      apply find_some in E as [Hin Hacc].
      exists 0%nat, ev. split; [cbn; lia|]. split; [exact Hin|exact Hacc].
    + rewrite IH. split.
      * intros (k & ev & Hk & Hin & Hacc). exists (S k), ev.
        split; [cbn; lia|]. split; [exact Hin|].
        now rewrite accepts_addEvents in Hacc.
      * intros (k & ev & Hk & Hin & Hacc). destruct k as [|k].
        -- cbn in Hin. apply (find_none _ _ E) in Hin. congruence.
        -- exists k, ev. split; [cbn in Hk; lia|]. split; [exact Hin|].
           now rewrite accepts_addEvents.
Qed.

Lemma checkHasEvent_last_batch eventName data t batch arrivals : forall st,
  fst (checkHasEvent eventName data t (arrivals ++ [batch]) st)
  = fst (checkHasEvent eventName data t (arrivals ++ [[]]) st).
Proof.
  induction arrivals as [|b later IH]; intros st.
  - cbn. now destruct (List.find (accepts st eventName data) (getEvents st)).
  - cbn [app checkHasEvent]. cbv zeta.
    destruct (List.find (accepts st eventName data) (getEvents st)); [reflexivity|].
    apply IH.
Qed.

(** X8. A wait ends in one of two ways.  It resolves exactly when, at
    one of its polls, a stored event is acceptable: stored at the start
    or brought by a batch that arrived during an earlier poll's sleep.
    Otherwise it is rejected with the timeout message, every batch has
    been stored and nothing has been marked.  A wait with no poll is
    rejected whatever is stored, and the batch that arrives during the
    last sleep is stored but never looked at. *)
Theorem checkHasEvent_outcomes eventName data t arrivals st :
  (forall r st', checkHasEvent eventName data t arrivals st = (r, st') ->
     r = Resolved \/
     (r = Rejected (timeoutMessage eventName data t) /\
      st' = fold_left addEvents arrivals st /\
      matchedEvents st' = matchedEvents st)) /\
  (fst (checkHasEvent eventName data t arrivals st) = Resolved <->
   exists k ev, (k < length arrivals)%nat /\
                In ev (getEvents (fold_left addEvents (firstn k arrivals) st)) /\
                accepts st eventName data ev = true) /\
  checkHasEvent eventName data t [] st
  = (Rejected (timeoutMessage eventName data t), st) /\
  (forall batch,
      fst (checkHasEvent eventName data t (arrivals ++ [batch]) st)
      = fst (checkHasEvent eventName data t (arrivals ++ [[]]) st)).
Proof.
  split; [|split; [apply checkHasEvent_resolved_iff|split; [reflexivity|]]].
  - intros r st' H. apply checkHasEvent_rejected_state in H as [H|[H1 H2]];
      [now left|right].
    split; [exact H1|]. split; [exact H2|]. subst st'.
    clear. revert st. induction arrivals as [|b l IH]; intros st; [reflexivity|].
    cbn [fold_left]. now rewrite IH, EventStorageFacts.addEvents_matched.
  - intros batch. apply checkHasEvent_last_batch.
Qed.

(** [n] waits for the same event, one after the other. *)
Fixpoint waits (n : nat) (eventName : string) (data : option string) (t : Z)
         (arrivals : list (list Event)) (st : Storage) : list completion * Storage :=
  match n with
  | O => ([], st)
  | S n' =>
      let (r, st1) := checkHasEvent eventName data t arrivals st in
      let (rs, st2) := waits n' eventName data t arrivals st1 in
      (r :: rs, st2)
  end.

(** The stored events a wait would take, in the order they were stored. *)
Definition pending (eventName : string) (data : option string) (st : Storage)
  : list Event :=
  List.filter (accepts st eventName data) (getEvents st).

Lemma find_filter_head {A} (f : A -> bool) l x r :
  List.filter f l = x :: r -> List.find f l = Some x.
Proof.
  induction l as [|a l IH]; cbn [List.filter List.find]; [discriminate|].
  destruct (f a); [now intros [= -> _]|exact IH].
Qed.

Lemma accepts_after_mark st n eventName data ev :
  accepts (markEventAsMatched st n) eventName data ev
  = negb (event_num ev =? n)%Z && accepts st eventName data ev.
Proof.
  unfold accepts. rewrite EventStorageProperties.isEventAlreadyMatched_mark.
  destruct (Z.eqb_spec (event_num ev) n); cbn [orb negb andb]; reflexivity.
Qed.

Lemma filter_other_numbers (f : Event -> bool) n l :
  ~ In n (map event_num l) ->
  List.filter (fun e => negb (event_num e =? n)%Z && f e) l = List.filter f l.
Proof.
  induction l as [|b l IH]; [reflexivity|].
  cbn [List.filter map]. intros Hfresh.
  destruct (Z.eqb_spec (event_num b) n) as [Heq|Hne].
  - exfalso. apply Hfresh. left. exact Heq.
  - cbn [negb andb]. rewrite IH; [reflexivity|].
    intros Hin. apply Hfresh. now right.
Qed.

Lemma filter_drop_head (f : Event -> bool) l ev rest :
  NoDup (map event_num l) ->
  List.filter f l = ev :: rest ->
  List.filter (fun e => negb (event_num e =? event_num ev)%Z && f e) l = rest.
Proof.
  induction l as [|a l IH]; cbn [List.filter map]; [discriminate|].
  intros Hnd Hf. apply NoDup_cons in Hnd as [Hfresh Hnd].
  rewrite list_elem_of_In in Hfresh.
  destruct (f a) eqn:Efa.
  - inversion Hf; subst a. rewrite Z.eqb_refl. cbn [negb andb].
    now apply filter_other_numbers.
  - rewrite andb_false_r. now apply IH.
Qed.

Lemma pending_after_take eventName data st ev rest :
  NoDup (map event_num (getEvents st)) ->
  pending eventName data st = ev :: rest ->
  pending eventName data (markEventAsMatched st (event_num ev)) = rest.
Proof.
  intros Hnd Hp. unfold pending in *. cbn [getEvents markEventAsMatched events].
  rewrite <- (filter_drop_head (accepts st eventName data) (events st) ev rest Hnd Hp).
  apply List.filter_ext. intros e. apply accepts_after_mark.
Qed.

Lemma waits_serve eventName data t batch later : forall i st,
  NoDup (map event_num (getEvents st)) ->
  (i <= length (pending eventName data st))%nat ->
  waits i eventName data t (batch :: later) st
  = (repeat Resolved i,
     fold_left markEventAsMatched
               (map event_num (firstn i (pending eventName data st))) st).
Proof.
  induction i as [|i IH]; intros st Hnd Hi; [reflexivity|].
  destruct (pending eventName data st) as [|ev rest] eqn:Ep; [cbn in Hi; lia|].
  cbn [waits checkHasEvent]. cbv zeta.
  rewrite (find_filter_head _ _ _ _ Ep).
  rewrite IH.
  - rewrite (pending_after_take _ _ _ _ _ Hnd Ep). reflexivity.
  - exact Hnd.
  - rewrite (pending_after_take _ _ _ _ _ Hnd Ep). cbn in Hi. lia.
Qed.

Lemma pending_nil_find eventName data st :
  pending eventName data st = [] ->
  List.find (accepts st eventName data) (getEvents st) = None.
Proof.
  unfold pending. intros H.
  destruct (List.find _ _) as [e|] eqn:E; [|reflexivity].
  apply find_some in E.
  apply (proj2 (List.filter_In (accepts st eventName data) e (getEvents st))) in E.
  rewrite H in E. destruct E.
Qed.

Lemma pending_nil_addEvents eventName data st batch :
  Forall (fun e => EventStorage.name e <> eventName) batch ->
  pending eventName data st = [] ->
  pending eventName data (addEvents st batch) = [].
Proof.
  intros Hb Hp. unfold pending in *.
  destruct (EventStorageFacts.addEvents_extends batch st) as (suf & Hs & Hin).
  unfold getEvents in *. rewrite Hs, List.filter_app.
  rewrite (List.filter_ext _ (accepts st eventName data))
    by (intros e; apply accepts_addEvents).
  rewrite Hp. cbn [app].
  rewrite (List.filter_ext _ (accepts st eventName data))
    by (intros e; apply accepts_addEvents).
  clear Hs. induction suf as [|e suf IH]; [reflexivity|].
  cbn [List.filter].
  destruct (accepts st eventName data e) eqn:Eacc.
  - apply accepts_name in Eacc. rewrite List.Forall_forall in Hb.
    destruct (Hb e (Hin e (or_introl eq_refl)) Eacc).
  - apply IH. intros x Hx. apply Hin. now right.
Qed.

Lemma quiet_wait_rejected eventName data t arrivals : forall st,
  Forall (Forall (fun e => EventStorage.name e <> eventName)) arrivals ->
  pending eventName data st = [] ->
  fst (checkHasEvent eventName data t arrivals st)
  = Rejected (timeoutMessage eventName data t) /\
  pending eventName data (snd (checkHasEvent eventName data t arrivals st)) = [].
Proof.
  induction arrivals as [|batch later IH]; intros st Ha Hp.
  - split; [reflexivity|exact Hp].
  - cbn [checkHasEvent]. cbv zeta. rewrite pending_nil_find by exact Hp.
    inversion Ha as [|? ? Hb Hl]; subst.
    apply IH; [exact Hl|]. now apply pending_nil_addEvents.
Qed.

Lemma quiet_waits_rejected eventName data t arrivals : forall m st,
  Forall (Forall (fun e => EventStorage.name e <> eventName)) arrivals ->
  pending eventName data st = [] ->
  fst (waits m eventName data t arrivals st)
  = repeat (Rejected (timeoutMessage eventName data t)) m.
Proof.
  induction m as [|m IH]; intros st Ha Hp; [reflexivity|].
  cbn [waits].
  destruct (quiet_wait_rejected eventName data t arrivals st Ha Hp) as [H1 H2].
  destruct (checkHasEvent eventName data t arrivals st) as [r st1]. cbn [fst snd] in *.
  specialize (IH st1 Ha H2).
  destruct (waits m eventName data t arrivals st1) as [rs st2]. cbn [fst] in *.
  now rewrite H1, IH.
Qed.

Lemma waits_add a : forall b eventName data t arrivals st,
  fst (waits (a + b) eventName data t arrivals st)
  = fst (waits a eventName data t arrivals st)
    ++ fst (waits b eventName data t arrivals
                  (snd (waits a eventName data t arrivals st))).
Proof.
  induction a as [|a IH]; intros b eventName data t arrivals st; [reflexivity|].
  cbn [Nat.add waits].
  destruct (checkHasEvent eventName data t arrivals st) as [r st1].
  specialize (IH b eventName data t arrivals st1).
  destruct (waits (a + b) eventName data t arrivals st1) as [rs st2].
  destruct (waits a eventName data t arrivals st1) as [rs' st2'].
  cbn [fst snd] in *. now rewrite IH.
Qed.

Lemma pending_all_taken eventName data : forall l st,
  NoDup (map event_num (getEvents st)) ->
  pending eventName data st = l ->
  pending eventName data (fold_left markEventAsMatched (map event_num l) st) = [].
Proof.
  induction l as [|ev rest IH]; intros st Hnd Hp; [exact Hp|].
  cbn [map fold_left]. apply IH; [exact Hnd|].
  now apply pending_after_take.
Qed.

(** X9. Stored events are served first come, first served, one wait
    each.  When the stored events have distinct numbers and a wait gets
    at least one poll, the first [i] of a series of waits for the same
    event resolve, for every [i] up to the number of stored events a
    wait would take, and between them they mark exactly the first [i] of
    those events, in the order they were stored; when no further event
    with that name arrives, every wait after these is rejected. *)
Theorem checkHasEvent_first_come_first_served
        eventName data t batch later st :
  NoDup (map event_num (getEvents st)) ->
  (forall i, (i <= length (pending eventName data st))%nat ->
     waits i eventName data t (batch :: later) st
     = (repeat Resolved i,
        fold_left markEventAsMatched
                  (map event_num (firstn i (pending eventName data st))) st)) /\
  (Forall (Forall (fun e => EventStorage.name e <> eventName)) (batch :: later) ->
   forall m,
     fst (waits (length (pending eventName data st) + m) eventName data t
                (batch :: later) st)
     = repeat Resolved (length (pending eventName data st))
       ++ repeat (Rejected (timeoutMessage eventName data t)) m).
Proof.
  intros Hnd. split.
  - intros i Hi. now apply waits_serve.
  - intros Hquiet m. rewrite waits_add.
    rewrite (waits_serve eventName data t batch later _ st Hnd (Nat.le_refl _)).
    cbn [fst snd]. f_equal.
    apply quiet_waits_rejected; [exact Hquiet|].
    rewrite firstn_all. now apply pending_all_taken.
Qed.

Lemma in_skipn_nth {A} (x : A) n l :
  In x (skipn n l) -> exists k, (n <= k)%nat /\ nth_error l k = Some x.
Proof.
  intros Hin. apply In_nth_error in Hin as [j Hj]. rewrite nth_error_skipn in Hj.
  exists (n + j)%nat. split; [lia|exact Hj].
Qed.

Lemma checkHasEventAsync_loop_resolved eventName data t c arrivals : forall st st',
  checkHasEventAsync_loop eventName data t c arrivals st = (Resolved, st') ->
  exists k ev, (c <= k)%nat /\ nth_error (getEvents st') k = Some ev /\
               EventStorage.name ev = eventName /\
               matchedEvents st' = ({[event_num ev]} ∪ matchedEvents st).
Proof.
  induction arrivals as [|batch later IH]; intros st st' H; [discriminate|].
  cbn [checkHasEventAsync_loop] in H. cbv zeta in H.
  destruct (List.find (accepts st eventName data) (skipn c (getEvents st)))
    as [ev|] eqn:E.
  - inversion H; subst. apply find_some in E as [Hin Hacc].
    apply in_skipn_nth in Hin as (k & Hk & Hnth).
    exists k, ev. split; [exact Hk|]. split; [exact Hnth|].
    split; [now apply accepts_name in Hacc|reflexivity].
  - apply IH in H as (k & ev & Hk & Hnth & Hname & Hm).
    rewrite EventStorageFacts.addEvents_matched in Hm. eauto 8.
Qed.

Lemma checkHasEventAsync_loop_quiet eventName data t c arrivals : forall st,
  Forall (Forall (fun e => EventStorage.name e <> eventName)) arrivals ->
  (c <= length (getEvents st))%nat ->
  Forall (fun e => EventStorage.name e <> eventName) (skipn c (getEvents st)) ->
  fst (checkHasEventAsync_loop eventName data t c arrivals st)
  = Rejected (asyncTimeoutMessage eventName data t).
Proof.
  induction arrivals as [|batch later IH]; intros st Ha Hc Hnew; [reflexivity|].
  cbn [checkHasEventAsync_loop]. cbv zeta.
  destruct (List.find (accepts st eventName data) (skipn c (getEvents st)))
    as [ev|] eqn:E.
  - apply find_some in E as [Hin Hacc]. apply accepts_name in Hacc.
    rewrite List.Forall_forall in Hnew. destruct (Hnew ev Hin Hacc).
  - inversion Ha as [|? ? Hb Hl]; subst.
    destruct (EventStorageFacts.addEvents_extends batch st) as (suf & Hs & Hin).
    unfold getEvents in *. apply IH; [exact Hl| |].
    + rewrite Hs, length_app. lia.
    + rewrite Hs, skipn_app. apply Forall_app. split; [exact Hnew|].
      replace (c - length (events st))%nat with 0%nat by lia. cbn [skipn].
      rewrite List.Forall_forall in *. intros x Hx. apply Hb. now apply Hin.
Qed.

Lemma checkHasEventAsync_loop_zero eventName data t arrivals : forall st,
  snd (checkHasEventAsync_loop eventName data t 0 arrivals st)
  = snd (checkHasEvent eventName data t arrivals st) /\
  (fst (checkHasEventAsync_loop eventName data t 0 arrivals st) = Resolved <->
   fst (checkHasEvent eventName data t arrivals st) = Resolved).
Proof.
  induction arrivals as [|batch later IH]; intros st.
  - split; [reflexivity|]. split; discriminate.
  - cbn [checkHasEventAsync_loop checkHasEvent]. cbv zeta.
    change (skipn 0 (getEvents st)) with (getEvents st).
    destruct (List.find (accepts st eventName data) (getEvents st)).
    + split; [reflexivity|]. split; reflexivity.
    + apply IH.
Qed.

(** X10. The job of [checkHasEventAsync] looks only at what is stored
    after the call.  When it resolves, the event it marked sits at a
    position not below the number of events stored at the call.  When
    no event with the awaited name arrives it is rejected, whatever is
    stored: on a storage holding an acceptable event, with a poll to
    look at it, [checkHasEvent] resolves and the job does not.  Started
    on a storage without events, the job and [checkHasEvent] resolve
    together and leave the same storage. *)
Theorem checkHasEventAsync_sees_only_new eventName data t arrivals st :
  (forall st',
      checkHasEventAsync eventName data t arrivals st = (Resolved, st') ->
      exists k ev, (length (getEvents st) <= k)%nat /\
                   nth_error (getEvents st') k = Some ev /\
                   EventStorage.name ev = eventName /\
                   matchedEvents st' = ({[event_num ev]} ∪ matchedEvents st)) /\
  (Forall (Forall (fun e => EventStorage.name e <> eventName)) arrivals ->
   fst (checkHasEventAsync eventName data t arrivals st)
   = Rejected (asyncTimeoutMessage eventName data t) /\
   (forall ev, In ev (getEvents st) -> accepts st eventName data ev = true ->
               arrivals <> [] ->
               fst (checkHasEvent eventName data t arrivals st) = Resolved)) /\
  (getEvents st = [] ->
   snd (checkHasEventAsync eventName data t arrivals st)
   = snd (checkHasEvent eventName data t arrivals st) /\
   (fst (checkHasEventAsync eventName data t arrivals st) = Resolved <->
    fst (checkHasEvent eventName data t arrivals st) = Resolved)).
Proof.
  split; [|split].
  - intros st' H. now apply checkHasEventAsync_loop_resolved in H.
  - intros Hquiet. split.
    + apply checkHasEventAsync_loop_quiet; [exact Hquiet|lia|].
      rewrite skipn_all. constructor.
    + intros ev Hin Hacc Hne. apply checkHasEvent_resolved_iff.
      exists 0%nat, ev. split; [destruct arrivals; [congruence|cbn; lia]|].
      split; [exact Hin|exact Hacc].
  - intros Hempty. unfold checkHasEventAsync. rewrite Hempty. cbn [length].
    apply checkHasEventAsync_loop_zero.
Qed.

End EventCheckProperties.

(** ** Searching, waiting and gestures: what the device is asked *)

Section ActionsProperties.

Context {session : Session}.

Lemma bind_inv {A B} (m : M A) (k : A -> M B) w r w' :
  bind m k w = (r, w') ->
  (exists a w1, m w = (Ok a, w1) /\ k a w1 = (r, w')) \/
  (exists e, m w = (Throw e, w') /\ r = Throw e) \/
  (m w = (OutOfFuel, w') /\ r = OutOfFuel).
Proof.
  unfold bind. destruct (m w) as [[a|e|] w1]; intros H.
  - left. eauto.
  - right. left. inversion H. eauto.
  - right. right. inversion H. auto.
Qed.

Lemma bind_ok_inv {A B} (m : M A) (k : A -> M B) w b w' :
  bind m k w = (Ok b, w') ->
  exists a w1, m w = (Ok a, w1) /\ k a w1 = (Ok b, w').
Proof.
  intros H. apply bind_inv in H as [H|[(e & _ & H)|[_ H]]];
    [exact H|discriminate|discriminate].
Qed.

Lemma try_inv {A} (m : M A) w r w' :
  try_ m w = (Ok r, w') ->
  (exists a, r = inr a /\ m w = (Ok a, w')) \/
  (exists e, r = inl e /\ m w = (Throw e, w')).
Proof.
  unfold try_. destruct (m w) as [[a|e|] w1]; intros H; inversion H; subst; eauto.
Qed.

(** The searches among the calls issued. *)
Definition isSearch (i : Issued) : bool :=
  match i with
  | Issue c =>
      match c with
      | FindAll _ | FindElements _ _ => true
      | _ => false
      end
  end.

Lemma search_trace loc w r w' :
  search loc w = (r, w') ->
  exists i, issued w' = issued w ++ [i] /\ isSearch i = true /\
            (clock w <= clock w')%Z.
Proof.
  destruct loc as [s|u v]; cbn [search]; unfold call; intros H.
  - destruct (respond _ (dev w) (FindAll s)) as [[e|a] d]; inversion H; subst;
      cbn [issued clock]; exists (Issue (FindAll s)); (split; [reflexivity|split; [reflexivity|lia]]).
  - destruct (respond _ (dev w) (FindElements u v)) as [[e|a] d]; inversion H; subst;
      cbn [issued clock]; exists (Issue (FindElements u v));
      (split; [reflexivity|split; [reflexivity|lia]]).
Qed.

Lemma findAllByLocator_loop_polls loc start timeoutMs pollMs fuel :
  forall lastErr w r w',
    findAllByLocator_loop fuel loc start timeoutMs pollMs lastErr w = (r, w') ->
    (exists added,
        issued w' = issued w ++ added /\ forallb isSearch added = true /\
        (if (clock w - start <? timeoutMs)%Z
         then (Z.of_nat (length added) * Z.max 1 pollMs
               < timeoutMs - (clock w - start) + Z.max 1 pollMs)%Z
         else added = [])) /\
    ((r = Ok [] \/ exists e, r = Throw e) -> (timeoutMs <= clock w' - start)%Z) /\
    (forall el els, r = Ok (el :: els) ->
                    exists w0, search loc w0 = (Ok (el :: els), w')).
Proof.
  induction fuel as [|f IH]; intros lastErr w r w' H.
  - inversion H; subst. split; [|split].
    + exists []. split; [now rewrite app_nil_r|]. split; [reflexivity|].
      destruct (clock w' - start <? timeoutMs)%Z eqn:E; [|reflexivity].
      apply Z.ltb_lt in E. cbn [length]. lia.
    + intros [?|[e ?]]; discriminate.
    + intros el els ?; discriminate.
  - cbn [findAllByLocator_loop] in H. unfold bind at 1 in H. cbn [Date_now] in H.
    destruct (clock w - start <? timeoutMs)%Z eqn:Ec.
    + apply Z.ltb_lt in Ec. unfold bind at 1 in H. unfold try_ in H.
      destruct (search loc w) as [[[|el els]|e|] w1] eqn:Es;
        destruct (search_trace _ _ _ _ Es) as (i & Hi & Hsi & Hclk).
      * rewrite sleep_then in H. apply IH in H as ((added & Ha & Hs & Hn) & Hd & Hok).
        cbn [issued clock] in *. split; [|split; [exact Hd|exact Hok]].
        exists (i :: added). split; [now rewrite Ha, Hi, <- app_assoc|].
        split; [cbn [forallb]; now rewrite Hsi|].
        cbn [length]. rewrite Nat2Z.inj_succ.
        destruct (clock w1 + Z.max 1 pollMs - start <? timeoutMs)%Z eqn:E2.
        -- apply Z.ltb_lt in E2. lia.
        -- subst added. cbn [length]. lia.
      * inversion H; subst. split; [|split].
        -- exists [i]. split; [exact Hi|]. split; [cbn [forallb]; now rewrite Hsi|].
           cbn [length]. lia.
        -- intros [?|[e ?]]; discriminate.
        -- intros el0 els0 Heq. inversion Heq; subst. eauto.
      * rewrite sleep_then in H. apply IH in H as ((added & Ha & Hs & Hn) & Hd & Hok).
        cbn [issued clock] in *. split; [|split; [exact Hd|exact Hok]].
        exists (i :: added). split; [now rewrite Ha, Hi, <- app_assoc|].
        split; [cbn [forallb]; now rewrite Hsi|].
        cbn [length]. rewrite Nat2Z.inj_succ.
        destruct (clock w1 + Z.max 1 pollMs - start <? timeoutMs)%Z eqn:E2.
        -- apply Z.ltb_lt in E2. lia.
        -- subst added. cbn [length]. lia.
      * inversion H; subst. split; [|split].
        -- exists [i]. split; [exact Hi|]. split; [cbn [forallb]; now rewrite Hsi|].
           cbn [length]. lia.
        -- intros [?|[e ?]]; discriminate.
        -- intros el0 els0 ?; discriminate.
    + apply Z.ltb_ge in Ec. split; [|split].
      * exists []. destruct lastErr; inversion H; subst;
          (split; [now rewrite app_nil_r|split; reflexivity]).
      * intros _. destruct lastErr; inversion H; subst; lia.
      * intros el els Heq. destruct lastErr; inversion H; subst; discriminate.
Qed.

(** X11. [findAllByLocator] asks the device for nothing but the search,
    at most once per polling interval inside the timeout: the number of
    searches times the interval (a millisecond at least) stays below the
    timeout plus one interval, and with a timeout of zero or less there
    is no search at all and the result is the empty list.  A non-empty
    result is the answer of the last search.  The empty list, or the
    error of a failed search, comes only when the timeout has passed:
    until then a failing search is repeated.  The recursion bound is
    never reached. *)
Theorem findAllByLocator_polling loc timeoutSec pollMs w r w' :
  findAllByLocator loc timeoutSec pollMs w = (r, w') ->
  r <> OutOfFuel /\
  (exists added,
      issued w' = issued w ++ added /\ forallb isSearch added = true /\
      (Z.of_nat (length added) * Z.max 1 pollMs
       < Z.max 0 (timeoutSec * 1000) + Z.max 1 pollMs)%Z) /\
  ((timeoutSec <= 0)%Z -> r = Ok [] /\ w' = w) /\
  ((r = Ok [] \/ exists e, r = Throw e) ->
   (timeoutSec * 1000 <= clock w' - clock w)%Z) /\
  (forall el els, r = Ok (el :: els) ->
                  exists w0, search loc w0 = (Ok (el :: els), w')).
Proof.
  intros H.
  split; [exact (proj1 (settles_findAllByLocator loc timeoutSec pollMs w r w' H))|].
  assert (H0 := H).
  unfold findAllByLocator in H. unfold bind in H. cbn [Date_now] in H.
  apply findAllByLocator_loop_polls in H as ((added & Ha & Hs & Hn) & Hd & Hok).
  split; [|split; [|split; [exact Hd|exact Hok]]].
  - exists added. split; [exact Ha|]. split; [exact Hs|].
    destruct (clock w - clock w <? timeoutSec * 1000)%Z eqn:E.
    + apply Z.ltb_lt in E. lia.
    + subst added. cbn [length]. lia.
  - intros Hle. clear Ha Hs Hn Hd Hok.
    unfold findAllByLocator in H0. unfold bind in H0. cbn [Date_now] in H0.
    cbn [findAllByLocator_loop] in H0. unfold bind at 1 in H0. cbn [Date_now] in H0.
    replace (clock w - clock w <? timeoutSec * 1000)%Z with false in H0
      by (symmetry; apply Z.ltb_ge; lia).
    inversion H0. split; reflexivity.
Qed.

Lemma tryLocator_ok loc elementNumber t p w el w' :
  tryLocator loc elementNumber t p w = (Ok el, w') ->
  exists w0, call (IsDisplayed el) w0 = (Ok true, w').
Proof.
  unfold tryLocator. intros H. apply bind_ok_inv in H as (els & w1 & _ & H).
  destruct (length els =? 0)%nat; [discriminate|]. cbv zeta in H.
  destruct (_ || _); [discriminate|].
  destruct (nth_error els _) as [el0|]; [|discriminate].
  apply bind_ok_inv in H as (d & w2 & Hc & H).
  destruct d; [|discriminate]. inversion H; subst. eauto.
Qed.

Lemma tryLocators_ok locs elementNumber t p : forall tried w el w',
  tryLocators locs elementNumber t p tried w = (Ok (inl el), w') ->
  exists w0, call (IsDisplayed el) w0 = (Ok true, w').
Proof.
  induction locs as [|loc rest IH]; intros tried w el w' H; [discriminate|].
  cbn [tryLocators] in H. cbv zeta in H.
  apply bind_ok_inv in H as (r & w1 & Ht & H).
  apply try_inv in Ht as [(a & -> & Ht)|(e & -> & Ht)].
  - inversion H; subst. now apply tryLocator_ok in Ht.
  - now apply IH in H.
Qed.

Lemma waitForElements_loop_ok element elementNumber t p scrollCount c direction fuel :
  forall currentScroll tried w el w',
    waitForElements_loop fuel element elementNumber t p scrollCount c direction
                         currentScroll tried w = (Ok el, w') ->
    exists w0, call (IsDisplayed el) w0 = (Ok true, w').
Proof.
  induction fuel as [|f IH]; intros currentScroll tried w el w' H; [discriminate|].
  cbn [waitForElements_loop] in H.
  apply bind_ok_inv in H as ([el0|tried'] & w1 & Ht & H).
  - inversion H; subst. now apply tryLocators_ok in Ht.
  - destruct ((0 <? scrollCount)%Z && (currentScroll <? scrollCount)%Z);
      [|discriminate].
    apply bind_ok_inv in H as (u & w2 & _ & H). now apply IH in H.
Qed.

Lemma waitForElements_ok element elementNumber before t p scrollCount c direction
      w el w' :
  waitForElements element elementNumber before t p scrollCount c direction w
  = (Ok el, w') ->
  exists w0, call (IsDisplayed el) w0 = (Ok true, w').
Proof.
  unfold waitForElements. intros H.
  apply bind_ok_inv in H as (u & w1 & _ & H). now apply waitForElements_loop_ok in H.
Qed.

(** X12. An element [waitForElements] returns was reported displayed by
    the device in the very last call made; [checkVisible] asks once
    more, so when it returns the last two calls both asked whether that
    element is displayed and both were answered yes. *)
Theorem waitForElements_returns_displayed
        element elementNumber before t p scrollCount c direction w w' :
  (forall el,
      waitForElements element elementNumber before t p scrollCount c direction w
      = (Ok el, w') ->
      exists w0, call (IsDisplayed el) w0 = (Ok true, w') /\
                 issued w' = issued w0 ++ [Issue (IsDisplayed el)]) /\
  (checkVisible element elementNumber before t p scrollCount c direction w
   = (Ok tt, w') ->
   exists el w0 w1,
     call (IsDisplayed el) w0 = (Ok true, w1) /\
     call (IsDisplayed el) w1 = (Ok true, w') /\
     issued w' = issued w0 ++ [Issue (IsDisplayed el); Issue (IsDisplayed el)]).
Proof.
  assert (Htrace : forall el w0 w1,
             call (IsDisplayed el) w0 = (Ok true, w1) ->
             issued w1 = issued w0 ++ [Issue (IsDisplayed el)]).
  { intros el w0 w1 H. unfold call in H.
    destruct (respond bool (dev w0) (IsDisplayed el)) as [[e|a] d];
      inversion H; subst; reflexivity. }
  split.
  - intros el H. apply waitForElements_ok in H as (w0 & H). eauto.
  - intros H. unfold checkVisible in H.
    apply bind_ok_inv in H as (el & w1 & Hw & H).
    apply bind_ok_inv in H as (d & w2 & Hc & H).
    destruct d; [|discriminate]. inversion H; subst.
    apply waitForElements_ok in Hw as (w0 & Hw).
    exists el, w0, w1. split; [exact Hw|]. split; [exact Hc|].
    rewrite (Htrace _ _ _ Hc), (Htrace _ _ _ Hw), <- app_assoc. reflexivity.
Qed.

(** *** Counting the calls of one kind *)

Definition isGesture (i : Issued) : bool :=
  match i with
  | Issue c =>
      match c with
      | PerformActions _ => true
      | _ => false
      end
  end.

(** [m] only adds to the calls issued, and adds at most [n] calls of the
    kind [f]. *)
Definition emits {A} (f : Issued -> bool) (n : nat) (m : M A) : Prop :=
  forall w r w', m w = (r, w') ->
    exists added, issued w' = issued w ++ added /\
                  (length (List.filter f added) <= n)%nat.

Lemma emits_weaken {A} f n n' (m : M A) : (n <= n')%nat -> emits f n m -> emits f n' m.
Proof.
  intros Hn Hm w r w' H. destruct (Hm _ _ _ H) as (added & Ha & Hc).
  exists added. split; [exact Ha|lia].
Qed.

Ltac emits_nothing :=
  let H := fresh in
  intros ? ? ? H; cbn in H; inversion H; subst; exists []; cbn;
  split; [now rewrite app_nil_r|lia].

Lemma emits_ret {A} f (a : A) : emits f 0 (ret a).
Proof. emits_nothing. Qed.

Lemma emits_throw {A} f e : emits f 0 (throw (A := A) e).
Proof. emits_nothing. Qed.

Lemma emits_outOfFuel {A} f : emits f 0 (outOfFuel (A := A)).
Proof. emits_nothing. Qed.

Lemma emits_Date_now f : emits f 0 Date_now.
Proof. emits_nothing. Qed.

Lemma emits_sleep f ms : emits f 0 (sleep ms).
Proof. emits_nothing. Qed.

Lemma emits_call {A} f (c : Call A) :
  emits f (if f (Issue c) then 1 else 0) (call c).
Proof.
  intros w r w' H. unfold call in H. exists [Issue c].
  destruct (respond A (dev w) c) as [[e|a] d]; inversion H; subst; cbn [issued];
    (split; [reflexivity|]); cbn [List.filter]; destruct (f (Issue c)); cbn; lia.
Qed.

Lemma emits_call_other {A} f (c : Call A) : f (Issue c) = false -> emits f 0 (call c).
Proof. intros Hf. pose proof (emits_call f c) as H. now rewrite Hf in H. Qed.

Lemma emits_bind {A B} f n k (m : M A) (g : A -> M B) :
  emits f n m -> (forall a, emits f k (g a)) -> emits f (n + k) (bind m g).
Proof.
  intros Hm Hg w r w' H. apply bind_inv in H as [(a & w1 & H1 & H2)|[(e & H1 & _)|[H1 _]]].
  - destruct (Hm _ _ _ H1) as (ad1 & Ha1 & Hc1).
    destruct (Hg a _ _ _ H2) as (ad2 & Ha2 & Hc2).
    exists (ad1 ++ ad2). split; [now rewrite Ha2, Ha1, <- app_assoc|].
    rewrite List.filter_app, length_app. lia.
  - destruct (Hm _ _ _ H1) as (ad1 & Ha1 & Hc1). exists ad1. split; [exact Ha1|lia].
  - destruct (Hm _ _ _ H1) as (ad1 & Ha1 & Hc1). exists ad1. split; [exact Ha1|lia].
Qed.

Lemma emits_bind0 {A B} f (m : M A) (g : A -> M B) :
  emits f 0 m -> (forall a, emits f 0 (g a)) -> emits f 0 (bind m g).
Proof. intros Hm Hg. now apply (emits_bind f 0 0). Qed.

Lemma emits_try {A} f n (m : M A) : emits f n m -> emits f n (try_ m).
Proof.
  intros Hm w r w' H. unfold try_ in H.
  destruct (m w) as [[a|e|] w1] eqn:E; destruct (Hm _ _ _ E) as (ad & Ha & Hc);
    inversion H; subst; eauto.
Qed.

Lemma emits_both {A B} f (a : M A) (b : M B) :
  emits f 0 a -> emits f 0 b -> emits f 0 (both a b).
Proof.
  intros Ha Hb. unfold both.
  apply emits_bind0; [now apply emits_try|]. intros ra.
  apply emits_bind0; [now apply emits_try|]. intros rb.
  destruct ra, rb; auto using emits_ret, emits_throw.
Qed.

Lemma emits_times f k n body :
  emits f k body -> emits f (n * k) (times n body).
Proof.
  intros Hb. induction n as [|n IH]; cbn [times Nat.mul]; [apply emits_ret|].
  apply emits_bind; auto.
Qed.

Lemma emits_waitForUIStable_loop f start timeoutMs pollMs fuel :
  f (Issue GetPageSource) = false ->
  forall prev, emits f 0 (waitForUIStable_loop fuel start timeoutMs pollMs prev).
Proof.
  intros Hf. induction fuel as [|fuel IH]; intros prev; cbn [waitForUIStable_loop];
    [apply emits_outOfFuel|].
  apply emits_bind0; [apply emits_Date_now|]. intros now.
  destruct (now - start <? timeoutMs)%Z; [|apply emits_ret].
  apply emits_bind0; [apply emits_sleep|]. intros _.
  apply emits_bind0; [now apply emits_call_other|]. intros cur.
  destruct (String.eqb cur prev); [apply emits_ret|apply IH].
Qed.

Lemma emits_waitForUIStable f timeoutSec pollMs :
  f (Issue GetPageSource) = false -> emits f 0 (waitForUIStable timeoutSec pollMs).
Proof.
  intros Hf. unfold waitForUIStable. destruct (timeoutSec <=? 0)%Z; [apply emits_ret|].
  apply emits_bind0; [now apply emits_call_other|]. intros prev.
  apply emits_bind0; [apply emits_Date_now|]. intros start.
  now apply emits_waitForUIStable_loop.
Qed.

Lemma emits_tryLocators f locs elementNumber t p :
  (forall loc, emits f 0 (tryLocator loc elementNumber t p)) ->
  forall tried, emits f 0 (tryLocators locs elementNumber t p tried).
Proof.
  intros Hl. induction locs as [|loc rest IH]; intros tried; cbn [tryLocators];
    [apply emits_ret|].
  cbv zeta. apply emits_bind0; [apply emits_try, Hl|].
  intros [e|el]; [apply IH|apply emits_ret].
Qed.

Lemma budget_step (a b g : nat) :
  a = S b -> (0 + 1 * g + b * g <= a * g)%nat.
Proof. intros ->. rewrite Nat.mul_1_l, Nat.mul_succ_l. lia. Qed.

Section Counting.

(** A kind of call that is not a question to the device about the
    page: [perform] says whether it counts the gestures. *)
Variable f : Issued -> bool.
Variable perform : bool.
Hypothesis f_GetPageSource : f (Issue GetPageSource) = false.
Hypothesis f_GetWindowSize : f (Issue GetWindowSize) = false.
Hypothesis f_ReleaseActions : f (Issue ReleaseActions) = false.
Hypothesis f_GetLocation : forall el, f (Issue (GetLocation el)) = false.
Hypothesis f_GetSize : forall el, f (Issue (GetSize el)) = false.
Hypothesis f_IsDisplayed : forall el, f (Issue (IsDisplayed el)) = false.
Hypothesis f_PerformActions : forall acts, f (Issue (PerformActions acts)) = perform.

Definition perGesture : nat := if perform then 1 else 0.

Lemma emits_touch acts : 
  emits f perGesture (bind (call (PerformActions acts)) (fun _ => call ReleaseActions)).
Proof.
  apply emits_weaken with (n := (perGesture + 0)%nat); [lia|].
  apply emits_bind.
  - pose proof (emits_call f (PerformActions acts)) as H.
    now rewrite f_PerformActions in H.
  - intros _. now apply emits_call_other.
Qed.

Lemma emits_scrollInWindow size c direction :
  emits f perGesture (scrollInWindow size c direction).
Proof.
  unfold scrollInWindow. destruct (isHorizontal direction); apply emits_touch.
Qed.

Lemma emits_swipeInRect loc size c direction :
  emits f perGesture (swipeInRect loc size c direction).
Proof.
  unfold swipeInRect. destruct (isHorizontal direction); apply emits_touch.
Qed.

Lemma emits_performScroll_with k waitFor element scrollCount c direction :
  (forall e, element = Some e -> emits f k (waitFor e)) ->
  emits f (k + Z.to_nat scrollCount * perGesture)
        (performScroll_with waitFor element scrollCount c direction).
Proof.
  intros Hw. unfold performScroll_with.
  destruct (negb (capacityInRange c));
    [apply emits_weaken with (n := 0%nat); [apply Nat.le_0_l|apply emits_throw]|].
  destruct element as [e|].
  - apply emits_bind; [now apply Hw|]. intros el.
    apply emits_weaken with (n := (0 + Z.to_nat scrollCount * perGesture)%nat); [lia|].
    apply emits_bind.
    + apply emits_both; now apply emits_call_other.
    + intros rect. apply emits_times, emits_swipeInRect.
  - apply emits_weaken with (n := (0 + Z.to_nat scrollCount * perGesture)%nat); [lia|].
    apply emits_bind; [now apply emits_call_other|]. intros size.
    apply emits_times, emits_scrollInWindow.
Qed.

Lemma emits_waitForElements_loop element elementNumber t p scrollCount c direction fuel :
  (forall tried, emits f 0 (tryLocators (locatorsOf element) elementNumber t p tried)) ->
  forall currentScroll tried,
    emits f (Z.to_nat (scrollCount - currentScroll) * perGesture)
          (waitForElements_loop fuel element elementNumber t p scrollCount c direction
                                currentScroll tried).
Proof.
  intros Htry. induction fuel as [|fuel IH]; intros currentScroll tried;
    cbn [waitForElements_loop].
  - apply emits_weaken with (n := 0%nat); [apply Nat.le_0_l|apply emits_outOfFuel].
  - apply (emits_bind f 0); [apply Htry|].
    intros [el|tried'].
    + apply emits_weaken with (n := 0%nat); [apply Nat.le_0_l|apply emits_ret].
    + destruct ((0 <? scrollCount)%Z && (currentScroll <? scrollCount)%Z) eqn:Ec.
      * apply andb_true_iff in Ec as [_ Ec]. apply Z.ltb_lt in Ec.
        apply emits_weaken
          with (n := ((0 + Z.to_nat 1 * perGesture)
                      + Z.to_nat (scrollCount - (currentScroll + 1)) * perGesture)%nat).
        -- apply budget_step. lia.
        -- apply emits_bind.
           ++ apply emits_performScroll_with. discriminate.
           ++ intros _. apply IH.
      * apply emits_weaken with (n := 0%nat); [apply Nat.le_0_l|apply emits_throw].
Qed.

Lemma emits_waitForElements element elementNumber before t p scrollCount c direction :
  (forall tried, emits f 0 (tryLocators (locatorsOf element) elementNumber t p tried)) ->
  emits f (Z.to_nat scrollCount * perGesture)
        (waitForElements element elementNumber before t p scrollCount c direction).
Proof.
  intros Htry. unfold waitForElements.
  apply (emits_bind f 0); [now apply emits_waitForUIStable|]. intros _.
  replace scrollCount with (scrollCount - 0)%Z at 1 by lia.
  now apply emits_waitForElements_loop.
Qed.

End Counting.

Lemma emits_search loc : emits isGesture 0 (search loc).
Proof. destruct loc; now apply emits_call_other. Qed.

Lemma emits_findAllByLocator_loop loc start timeoutMs pollMs fuel :
  forall lastErr,
    emits isGesture 0 (findAllByLocator_loop fuel loc start timeoutMs pollMs lastErr).
Proof.
  induction fuel as [|fuel IH]; intros lastErr; cbn [findAllByLocator_loop];
    [apply emits_outOfFuel|].
  apply emits_bind0; [apply emits_Date_now|]. intros now.
  destruct (now - start <? timeoutMs)%Z.
  - apply emits_bind0; [apply emits_try, emits_search|].
    intros [e|[|el els]].
    + apply emits_bind0; [apply emits_sleep|]. intros _. apply IH.
    + apply emits_bind0; [apply emits_sleep|]. intros _. apply IH.
    + apply emits_ret.
  - destruct lastErr; [apply emits_throw|apply emits_ret].
Qed.

Lemma emits_findAllByLocator loc timeoutSec pollMs :
  emits isGesture 0 (findAllByLocator loc timeoutSec pollMs).
Proof.
  unfold findAllByLocator. apply emits_bind0; [apply emits_Date_now|].
  intros start. apply emits_findAllByLocator_loop.
Qed.

Lemma emits_tryLocator loc elementNumber t p :
  emits isGesture 0 (tryLocator loc elementNumber t p).
Proof.
  unfold tryLocator. apply emits_bind0; [apply emits_findAllByLocator|].
  intros els. destruct (length els =? 0)%nat; [apply emits_throw|].
  cbv zeta. destruct (_ || _); [apply emits_throw|].
  destruct (nth_error els _); [|apply emits_throw].
  apply emits_bind0; [now apply emits_call_other|].
  intros []; [apply emits_ret|apply emits_throw].
Qed.

Lemma gestures_waitForElements element elementNumber before t p scrollCount c direction :
  emits isGesture (Z.to_nat scrollCount)
        (waitForElements element elementNumber before t p scrollCount c direction).
Proof.
  apply emits_weaken with (n := (Z.to_nat scrollCount * perGesture true)%nat);
    [unfold perGesture; lia|].
  apply (emits_waitForElements isGesture true); try reflexivity.
  intros tried. apply emits_tryLocators. intros loc. apply emits_tryLocator.
Qed.

Lemma gestures_tapArea x y before :
  emits isGesture 1 (tapArea x y before None).
Proof.
  unfold tapArea. apply (emits_bind isGesture 0 1).
  - destruct (0 <? before)%Z; [now apply emits_waitForUIStable|apply emits_ret].
  - intros _. apply (emits_touch isGesture true); reflexivity.
Qed.

(** X13. Scrolling is bounded by [scrollCount]: [waitForElements], and
    [checkVisible] with it, perform at most [scrollCount] pointer
    gestures, none when [scrollCount] is zero or negative;
    [performScroll] at most [scrollCount], the search for its element
    adding none; [tapElementArea] one more, the tap; [tapArea] without a
    condition at most the tap's; [findAllByLocator] and
    [waitForUIStable] none.  The calls already issued are never taken
    back. *)
Theorem gesture_budget element elementNumber before t p scrollCount c direction x y :
  emits isGesture (Z.to_nat scrollCount)
        (waitForElements element elementNumber before t p scrollCount c direction) /\
  emits isGesture (Z.to_nat scrollCount)
        (checkVisible element elementNumber before t p scrollCount c direction) /\
  emits isGesture (Z.to_nat scrollCount)
        (performScroll element scrollCount c direction) /\
  emits isGesture (S (Z.to_nat scrollCount))
        (tapElementArea element x y before t p scrollCount c direction) /\
  emits isGesture 1 (tapArea x y before None) /\
  (forall loc, emits isGesture 0 (findAllByLocator loc t p)) /\
  emits isGesture 0 (waitForUIStable before p).
Proof.
  split; [apply gestures_waitForElements|].
  split; [|split; [|split; [|split; [|split]]]].
  - unfold checkVisible.
    apply emits_weaken with (n := (Z.to_nat scrollCount + 0)%nat); [lia|].
    apply emits_bind; [apply gestures_waitForElements|]. intros el.
    apply emits_bind0; [now apply emits_call_other|].
    intros []; [apply emits_ret|apply emits_throw].
  - unfold performScroll.
    apply emits_weaken with (n := (0 + Z.to_nat scrollCount * perGesture true)%nat);
      [unfold perGesture; lia|].
    apply (emits_performScroll_with isGesture true); try reflexivity.
    intros e _. apply (gestures_waitForElements (Some e) None _ _ _ 0%Z).
  - unfold tapElementArea.
    apply emits_weaken with (n := (Z.to_nat scrollCount + (0 + 1))%nat); [lia|].
    apply emits_bind; [apply gestures_waitForElements|]. intros el.
    apply emits_bind; [now apply emits_call_other|]. intros [locX locY].
    apply gestures_tapArea.
  - apply gestures_tapArea.
  - intros loc. apply emits_findAllByLocator.
  - now apply emits_waitForUIStable.
Qed.

Lemma call_trace {A} (c : Call A) w r w' :
  call c w = (r, w') -> issued w' = issued w ++ [Issue c].
Proof.
  unfold call. destruct (respond A (dev w) c) as [[e|a] d]; intros H;
    inversion H; subst; reflexivity.
Qed.

Lemma touch_ok_trace acts w w' :
  bind (call (PerformActions acts)) (fun _ => call ReleaseActions) w = (Ok tt, w') ->
  issued w' = issued w ++ [Issue (PerformActions acts); Issue ReleaseActions].
Proof.
  intros H. apply bind_ok_inv in H as (u & w1 & H1 & H2).
  apply call_trace in H1, H2. rewrite H2, H1, <- app_assoc. reflexivity.
Qed.

Lemma times_ok_trace body tr n : forall w w',
  (forall w0 w1, body w0 = (Ok tt, w1) -> issued w1 = issued w0 ++ tr) ->
  times n body w = (Ok tt, w') ->
  issued w' = issued w ++ concat (repeat tr n).
Proof.
  induction n as [|n IH]; intros w w' Hb H.
  - inversion H; subst. cbn. now rewrite app_nil_r.
  - cbn [times] in H. apply bind_ok_inv in H as ([] & w1 & H1 & H2).
    apply Hb in H1. apply IH in H2; [|exact Hb].
    rewrite H2, H1, <- app_assoc. reflexivity.
Qed.

(** The pointer sequence of [scrollInWindow]. *)
Definition windowGesture (size : Size) (c : Q) (direction : ScrollDirection)
  : list PointerAction :=
  let k := DEFAULT_SCROLL_COEFFICIENT in
  let extent := ((if isHorizontal direction then width size else height size) * c)%Q in
  let across :=
    Math_round ((if isHorizontal direction then height size else width size) / 2)%Q in
  let forward := isRight direction || isDown direction in
  let from := Math_round (if forward then extent * k else extent * (1 - k))%Q in
  let to := Math_round (if forward then 0 else extent)%Q in
  if isHorizontal direction
  then [pointerMove 0 from across; pointerDown 0; pause 500;
        pointerMove 500 to across; pointerUp 0]
  else [pointerMove 0 across from; pointerDown 0; pause 500;
        pointerMove 500 across to; pointerUp 0].

Lemma scrollInWindow_gesture size c direction :
  scrollInWindow size c direction
  = bind (call (PerformActions (windowGesture size c direction)))
         (fun _ => call ReleaseActions).
Proof. destruct direction; reflexivity. Qed.

(** X14. A window scroll that succeeds asks for the window size once,
    at the start, and then performs the same gesture [scrollCount]
    times, each followed by a release: the size is not read again
    between the gestures, and with [scrollCount] zero or negative the
    size is all that is asked.  The gesture presses at three quarters
    of the scrolled extent (one quarter when going up or left), at the
    middle of the other axis, holds for half a second and moves in half
    a second to the near edge (to the far end of the extent when going
    up or left). *)
Theorem performScroll_window_trace scrollCount c direction w w' :
  performScroll None scrollCount c direction w = (Ok tt, w') ->
  capacityInRange c = true /\
  exists size w1,
    call GetWindowSize w = (Ok size, w1) /\
    issued w' = issued w ++ Issue GetWindowSize
                  :: concat (repeat [Issue (PerformActions (windowGesture size c direction));
                                     Issue ReleaseActions]
                                    (Z.to_nat scrollCount)).
Proof.
  unfold performScroll, performScroll_with. intros H.
  destruct (capacityInRange c); [|discriminate]. split; [reflexivity|].
  cbn [negb] in H. apply bind_ok_inv in H as (size & w1 & H1 & H2).
  exists size, w1. split; [exact H1|].
  apply call_trace in H1.
  apply times_ok_trace
    with (tr := [Issue (PerformActions (windowGesture size c direction));
                 Issue ReleaseActions]) in H2.
  - rewrite H2, H1, <- app_assoc. reflexivity.
  - intros w0 w2 Hb. rewrite scrollInWindow_gesture in Hb. now apply touch_ok_trace.
Qed.

Lemma Math_round_mono a b : (a <= b)%Q -> (Math_round a <= Math_round b)%Z.
Proof. intros H. unfold Math_round. apply Qfloor_resp_le. lra. Qed.

Lemma Math_round_nonneg a : (0 <= a)%Q -> (0 <= Math_round a)%Z.
Proof. intros H. change 0%Z with (Math_round 0). now apply Math_round_mono. Qed.

Lemma capacity_bounds c : capacityInRange c = true -> (0 < c /\ c <= 1)%Q.
Proof. apply capacityInRange_spec. Qed.

(** X15. Gestures stay inside what they scroll.  In a window of
    non-negative size and with a capacity in (0, 1], the gesture of
    [scrollInWindow] starts and ends between the near edge and the
    window's extent along its axis; it ends on the near edge, not past
    its start, for down and right, and not before its start for up and
    left.  The gesture of [swipeInRect] starts and ends between the
    element's near edge and its far edge, before its start for down and
    right and after it for up and left. *)
Theorem gestures_stay_inside (size : Size) (loc : Point) (c : Q)
        (direction : ScrollDirection) :
  (0 <= width size)%Q -> (0 <= height size)%Q -> capacityInRange c = true ->
  (exists across from to,
      scrollInWindow size c direction
      = (if isHorizontal direction then touchAndMoveHorizontal across from to
         else touchAndMoveVertical across from to) /\
      let far :=
        Math_round (if isHorizontal direction then width size else height size) in
      (0 <= from <= far)%Z /\ (0 <= to <= far)%Z /\
      (if isRight direction || isDown direction
       then to = 0%Z /\ (to <= from)%Z else (from <= to)%Z)) /\
  (exists across from to,
      swipeInRect loc size c direction
      = (if isHorizontal direction then touchAndMoveHorizontal across from to
         else touchAndMoveVertical across from to) /\
      let near := Math_round (if isHorizontal direction then x loc else y loc) in
      let far :=
        Math_round (if isHorizontal direction
                    then x loc + width size else y loc + height size)%Q in
      (near <= from <= far)%Z /\ (near <= to <= far)%Z /\
      (if isRight direction || isDown direction
       then (to <= from)%Z else (from <= to)%Z)).
Proof.
  intros Hw Hh Hc. apply capacity_bounds in Hc as [Hc0 Hc1].
  split.
  - unfold scrollInWindow, DEFAULT_SCROLL_COEFFICIENT.
    destruct direction; cbn [isHorizontal isRight isDown orb];
      do 3 eexists; (split; [reflexivity|]); cbv zeta;
      repeat match goal with |- _ /\ _ => split end;
      first [ apply Math_round_nonneg; nra
            | apply Math_round_mono; nra
            | reflexivity ].
  - unfold swipeInRect, DEFAULT_SWIPE_COEFFICIENT.
    destruct direction; cbn [isHorizontal isRight isDown orb];
      do 3 eexists; (split; [reflexivity|]); cbv zeta;
      repeat match goal with |- _ /\ _ => split end;
      apply Math_round_mono; nra.
Qed.

Lemma waitForElements_loop_no_locators element elementNumber t p scrollCount c direction :
  locatorsOf element = [] ->
  forall fuel currentScroll tried w r w',
    waitForElements_loop fuel element elementNumber t p scrollCount c direction
                         currentScroll tried w = (r, w') ->
    forall el, r <> Ok el.
Proof.
  intros Hloc. induction fuel as [|fuel IH]; intros currentScroll tried w r w' H el.
  - inversion H. discriminate.
  - cbn [waitForElements_loop] in H. rewrite Hloc in H. cbn [tryLocators] in H.
    change (bind (ret (inr tried)) ?k w) with (k (inr tried) w) in H. cbv beta iota in H.
    destruct ((0 <? scrollCount)%Z && (currentScroll <? scrollCount)%Z).
    + apply bind_inv in H as [(a & w1 & _ & H)|[(e & _ & ->)|[_ ->]]];
        [exact (IH _ _ _ _ _ H el)|discriminate|discriminate].
    + inversion H. discriminate.
Qed.

Import PageElementFactories.

(** X16. Without a locator nothing is searched for.  When the element
    has no locator for the platform, [waitForElements] never returns an
    element and never asks the device for one: it throws, after the
    scrolls [scrollCount] asks for; with no wait before and no scroll
    it throws at once with the message ending in [Локаторов нет], the
    world unchanged.  That is the case for no element at all, for an
    element made by a factory for the other platform, and for an empty
    list of locators. *)
Theorem waitForElements_without_locators
        elementNumber before t p scrollCount c direction :
  (forall element, locatorsOf element = [] ->
     (forall w r w',
         waitForElements element elementNumber before t p scrollCount c direction w
         = (r, w') ->
         (exists message, r = Throw message) /\
         exists added, issued w' = issued w ++ added /\
                       List.filter isSearch added = []) /\
     ((before <= 0)%Z -> (scrollCount <= 0)%Z ->
      forall w,
        waitForElements element elementNumber before t p scrollCount c direction w
        = (Throw ("Элементы не найдены за '" ++ String_Z t
                    ++ "' секунд после '0' скроллов. Локаторов нет")%string, w))) /\
  locatorsOf None = [] /\
  locatorsOf (Some (byLocators None None)) = [] /\
  (platform = IOS ->
   forall s l,
     locatorsOf (Some (byAndroidAccessibilityId s)) = [] /\
     locatorsOf (Some (byAndroidUIAutomator s)) = [] /\
     locatorsOf (Some (byAndroidLocators l)) = [] /\
     locatorsOf (Some (byIOSLocators [])) = []) /\
  (platform = ANDROID ->
   forall s l,
     locatorsOf (Some (byIOSAccessibilityId s)) = [] /\
     locatorsOf (Some (byIOSClassChain s)) = [] /\
     locatorsOf (Some (byIOSPredicateString s)) = [] /\
     locatorsOf (Some (byIOSLocators l)) = [] /\
     locatorsOf (Some (byAndroidLocators [])) = []).
Proof.
  split; [|split; [reflexivity|split; [|split]]].
  - intros element Hloc. split.
    + intros w r w' H. split.
      * destruct (settles_waitForElements _ _ _ _ _ _ _ _ _ _ _ H) as [Hfuel _].
        unfold waitForElements in H.
        apply bind_inv in H as [(a & w1 & _ & H)|[(e & _ & ->)|[_ ->]]];
          [|eauto|contradiction].
        pose proof (waitForElements_loop_no_locators _ _ _ _ _ _ _ Hloc _ _ _ _ _ _ H)
          as Hno.
        destruct r as [el|message|]; [destruct (Hno el eq_refl)|eauto|contradiction].
      * assert (He : emits isSearch (Z.to_nat scrollCount * perGesture false)
                           (waitForElements element elementNumber before t p
                                            scrollCount c direction)).
        { apply (emits_waitForElements isSearch false); try reflexivity.
          intros tried. rewrite Hloc. apply emits_ret. }
        destruct (He _ _ _ H) as (added & Ha & Hn).
        exists added. split; [exact Ha|].
        unfold perGesture in Hn. rewrite Nat.mul_0_r in Hn.
        destruct (List.filter isSearch added); [reflexivity|cbn in Hn; lia].
    + intros Hb Hs w. unfold waitForElements, waitForUIStable.
      replace (before <=? 0)%Z with true by (symmetry; apply Z.leb_le; lia).
      change (bind (ret tt) ?k w) with (k tt w). cbv beta.
      cbn [waitForElements_loop]. rewrite Hloc. cbn [tryLocators].
      change (bind (ret (inr ?x)) ?k w) with (k (inr x) w). cbv beta iota.
      replace (0 <? scrollCount)%Z with false by (symmetry; apply Z.ltb_ge; lia).
      reflexivity.
  - unfold locatorsOf. destruct platform; reflexivity.
  - intros Hp s l. unfold locatorsOf. rewrite Hp. repeat split.
  - intros Hp s l. unfold locatorsOf. rewrite Hp. repeat split.
Qed.

Lemma tapArea_loop_ok cond start timeoutMs fuel : forall w w',
  tapArea_loop fuel cond start timeoutMs w = (Ok tt, w') ->
  (exists w0, cond w0 = (Ok true, w')) \/ (timeoutMs <= clock w' - start)%Z.
Proof.
  induction fuel as [|fuel IH]; intros w w' H; [discriminate|].
  cbn [tapArea_loop] in H. unfold bind at 1 in H. cbn [Date_now] in H.
  destruct (clock w - start <? timeoutMs)%Z eqn:Ec.
  - apply bind_ok_inv in H as (ok & w1 & Hc & H). destruct ok.
    + inversion H; subst. left. eauto.
    + rewrite sleep_then in H. now apply IH in H.
  - inversion H; subst. right. now apply Z.ltb_ge in Ec.
Qed.

Lemma tapArea_loop_settles cond start timeoutMs fuel :
  settles cond ->
  forall w r w',
    (1 <= Z.of_nat fuel)%Z ->
    (timeoutMs - (clock w - start) + 1 <= Z.of_nat fuel)%Z ->
    tapArea_loop fuel cond start timeoutMs w = (r, w') ->
    r <> OutOfFuel /\ (clock w <= clock w')%Z.
Proof.
  intros Hcond. induction fuel as [|f IH]; intros w r w' H1 H2 H; [lia|].
  cbn [tapArea_loop] in H. unfold bind at 1 in H. cbn [Date_now] in H.
  destruct (clock w - start <? timeoutMs)%Z eqn:Ec.
  - apply Z.ltb_lt in Ec. unfold bind at 1 in H.
    destruct (cond w) as [[[|]|e|] w1] eqn:Es;
      destruct (Hcond _ _ _ Es) as [Hs1 Hs2]; try contradiction.
    + inversion H; subst. split; [discriminate|exact Hs2].
    + rewrite sleep_then in H. apply IH in H; cbn [clock] in *;
        unfold DEFAULT_POLLING_INTERVAL in *; try lia.
      destruct H as [G1 G2]. split; [exact G1|lia].
    + inversion H; subst. split; [discriminate|exact Hs2].
  - inversion H; subst. split; [discriminate|lia].
Qed.

(** X17. [tapArea] that returns has tapped: its last two calls are the
    tap at the given point, a move, a press and a release of the
    pointer, and the release of the actions.  A [waitCondition] only
    delays the tap: when the tap is made either the condition has just
    answered yes or the time allowed for it has passed, so a condition
    that never holds does not prevent the tap.  With a condition that
    itself ends, [tapArea] ends. *)
Theorem tapArea_taps x y before waitCondition w :
  (forall w',
      tapArea x y before waitCondition w = (Ok tt, w') ->
      exists w0 w1,
        call (PerformActions (tapActions x y)) w0 = (Ok tt, w1) /\
        call ReleaseActions w1 = (Ok tt, w') /\
        issued w' = issued w0 ++ [Issue (PerformActions (tapActions x y));
                                  Issue ReleaseActions] /\
        (forall cond, waitCondition = Some cond ->
                      (exists wc, cond wc = (Ok true, w0)) \/
                      (before * 1000 <= clock w0 - clock w)%Z)) /\
  ((forall cond, waitCondition = Some cond -> settles cond) ->
   forall r w', tapArea x y before waitCondition w = (r, w') -> r <> OutOfFuel).
Proof.
  split.
  - intros w' H. unfold tapArea in H.
    apply bind_ok_inv in H as ([] & w0 & Hwait & H).
    apply bind_ok_inv in H as ([] & w1 & Hp & Hr).
    exists w0, w1. split; [exact Hp|]. split; [exact Hr|]. split.
    + apply call_trace in Hp, Hr. rewrite Hr, Hp, <- app_assoc. reflexivity.
    + intros cond ->. cbv zeta in Hwait. unfold bind in Hwait. cbn [Date_now] in Hwait.
      now apply tapArea_loop_ok in Hwait.
  - intros Hcond r w' H.
    assert (Hs : settles (tapArea x y before waitCondition)).
    { unfold tapArea. apply settles_bind.
      - destruct waitCondition as [cond|].
        + cbv zeta. intros w0 r0 w0' H0. unfold bind in H0. cbn [Date_now] in H0.
          apply tapArea_loop_settles in H0; [exact H0|now apply Hcond|lia|lia].
        + destruct (0 <? before)%Z; [apply settles_waitForUIStable|apply settles_ret].
      - intros _. apply settles_bind; [apply settles_call|intros _; apply settles_call]. }
    exact (proj1 (Hs _ _ _ H)).
Qed.

Lemma waitForUIStable_loop_ok start timeoutMs pollMs fuel : forall prev w w',
  (exists w0, call GetPageSource w0 = (Ok prev, w)) ->
  waitForUIStable_loop fuel start timeoutMs pollMs prev w = (Ok tt, w') ->
  (timeoutMs <= clock w' - start)%Z \/
  exists w0 w1 source,
    call GetPageSource w0 = (Ok source, w1) /\
    call GetPageSource (snd (sleep pollMs w1)) = (Ok source, w').
Proof.
  induction fuel as [|fuel IH]; intros prev w w' Hprev H; [discriminate|].
  cbn [waitForUIStable_loop] in H. unfold bind at 1 in H. cbn [Date_now] in H.
  destruct (clock w - start <? timeoutMs)%Z eqn:Ec.
  - rewrite sleep_then in H. apply bind_ok_inv in H as (cur & w2 & Hc & H).
    destruct (String.eqb_spec cur prev) as [->|Hne].
    + inversion H; subst. right. destruct Hprev as (w0 & Hprev).
      exists w0, w, prev. split; [exact Hprev|exact Hc].
    + apply IH in H; [exact H|]. eauto.
  - inversion H; subst. left. now apply Z.ltb_ge in Ec.
Qed.

(** X18. [waitForUIStable] returns in one of three ways: at once,
    without a call, when the timeout is zero or negative; when the page
    source read after a polling interval equals the one read before
    it; or when the timeout has passed.  A source that keeps changing
    never ends the wait before the timeout. *)
Theorem waitForUIStable_stable_or_late timeoutSec pollMs w w' :
  waitForUIStable timeoutSec pollMs w = (Ok tt, w') ->
  ((timeoutSec <= 0)%Z /\ w' = w) \/
  ((0 < timeoutSec)%Z /\
   ((timeoutSec * 1000 <= clock w' - clock w)%Z \/
    exists w0 w1 source,
      call GetPageSource w0 = (Ok source, w1) /\
      call GetPageSource (snd (sleep pollMs w1)) = (Ok source, w'))).
Proof.
  unfold waitForUIStable. intros H.
  destruct (Z.leb_spec timeoutSec 0) as [Hle|Hlt].
  - left. inversion H. split; [exact Hle|reflexivity].
  - right. split; [exact Hlt|].
    apply bind_ok_inv in H as (prev & w1 & Hprev & H).
    unfold bind in H. cbn [Date_now] in H.
    apply waitForUIStable_loop_ok in H as [H|H]; [left|right; exact H|eauto].
    destruct (settles_call _ _ _ _ Hprev) as [_ Hclk]. lia.
Qed.

End ActionsProperties.

(** ** [escapeXPath]: which strings survive the quoting *)

Module EscapeXPathFacts.
Import PageElementFactories.

Fixpoint count (c : ascii) (s : string) : nat :=
  match s with
  | EmptyString => 0
  | String a r => (if Ascii.eqb a c then 1 else 0) + count c r
  end.

Lemma append_cons a r b : (String a r ++ b)%string = String a (r ++ b)%string.
Proof. reflexivity. Qed.

Lemma append_nil b : (EmptyString ++ b)%string = b.
Proof. reflexivity. Qed.

Lemma count_app c a : forall b, count c (a ++ b)%string = (count c a + count c b)%nat.
Proof.
  induction a as [|x a IH]; intros b; [reflexivity|].
  rewrite append_cons. cbn [count]. rewrite IH. lia.
Qed.

Lemma startsWith_empty s : startsWith s EmptyString = true.
Proof. destruct s; reflexivity. Qed.

Lemma includes_char c s :
  includes s (String c EmptyString) = negb (count c s =? 0)%nat.
Proof.
  induction s as [|a r IH]; [reflexivity|].
  cbn [includes startsWith count]. rewrite IH, andb_true_r.
  rewrite (Ascii.eqb_sym c a). destruct (Ascii.eqb a c); [reflexivity|].
  cbn [orb Nat.add]. reflexivity.
Qed.

Lemma after_prefix_app p : forall q, after_prefix p (p ++ q)%string = Some q.
Proof.
  induction p as [|a p IH]; intros q; [reflexivity|].
  rewrite append_cons. cbn [after_prefix]. now rewrite Ascii.eqb_refl.
Qed.

Lemma read_literal_body inCall q s rest :
  count q s = 0%nat ->
  read_literals inCall (InLiteral q) (s ++ String q rest)%string
  = option_map (append s) (read_literals inCall AfterLiteral rest).
Proof.
  induction s as [|a s IH]; intros Hc.
  - rewrite append_nil. cbn [read_literals]. rewrite Ascii.eqb_refl.
    now destruct (read_literals inCall AfterLiteral rest).
  - cbn [count] in Hc. destruct (Ascii.eqb a q) eqn:E; [discriminate|].
    rewrite append_cons. cbn [read_literals]. rewrite E, IH by exact Hc.
    now destruct (read_literals inCall AfterLiteral rest).
Qed.

Lemma xpath_value_literal q s :
  is_quote q = true -> count q s = 0%nat ->
  xpath_value (String q EmptyString ++ s ++ String q EmptyString)%string = Some s.
Proof.
  intros Hq Hc. unfold xpath_value. rewrite append_cons, append_nil.
  assert (Hc' : after_prefix "concat(" (String q (s ++ String q EmptyString)) = None).
  { cbn [after_prefix]. destruct (Ascii.eqb_spec "c"%char q) as [<-|]; [|reflexivity].
    discriminate. }
  rewrite Hc'. cbn [read_literals].
  assert (Hws : Ref.is_ws q = false).
  { unfold is_quote in Hq. apply orb_true_iff in Hq as [Hq|Hq];
      apply Ascii.eqb_eq in Hq; subst q; reflexivity. }
  rewrite Hws, Hq, read_literal_body by exact Hc. cbn.
  f_equal. clear. induction s as [|a s IH]; [reflexivity|].
  rewrite append_cons. now rewrite IH.
Qed.

(** What the reader returns has no more apostrophes than the text it
    read; a literal opened by an apostrophe costs one; and when none is
    lost, no literal was opened by an apostrophe, so the result has no
    double quote. *)
Definition accounted (st : Reading) (e res : string) : Prop :=
  match st with
  | InLiteral q =>
      if Ascii.eqb q "'"%char
      then (S (count "'"%char res) <= count "'"%char e)%nat
      else (count "'"%char res <= count "'"%char e)%nat /\
           (count "'"%char res = count "'"%char e -> count Ref.dq res = 0%nat)
  | _ =>
      (count "'"%char res <= count "'"%char e)%nat /\
      (count "'"%char res = count "'"%char e -> count Ref.dq res = 0%nat)
  end.

Definition wellFormed (st : Reading) : Prop :=
  match st with
  | InLiteral q => is_quote q = true
  | _ => True
  end.

Lemma is_quote_cases q :
  is_quote q = true -> q = "'"%char \/ (q = Ref.dq /\ Ascii.eqb q "'"%char = false).
Proof.
  unfold is_quote. intros H. apply orb_true_iff in H as [H|H];
    apply Ascii.eqb_eq in H; subst q; [now left|right; split; reflexivity].
Qed.

Lemma read_accounted inCall : forall e st res,
  wellFormed st ->
  read_literals inCall st e = Some res -> accounted st e res.
Proof.
  induction e as [|c r IH]; intros st res Hwf H.
  - destruct st; cbn [read_literals] in H; try discriminate.
    + destruct inCall; [discriminate|]. inversion H. cbn. split; [lia|reflexivity].
    + inversion H. cbn. split; [lia|reflexivity].
  - destruct st as [|q| |]; cbn [read_literals] in H.
    + destruct (Ref.is_ws c) eqn:Ews.
      * apply IH in H; [|exact I]. cbn [accounted count] in *.
        destruct (Ascii.eqb_spec c "'"%char) as [->|_]; [discriminate|].
        cbn [Nat.add]. exact H.
      * destruct (is_quote c) eqn:Eq; [|discriminate].
        apply IH in H; [|exact Eq]. cbn [accounted count] in *.
        destruct (is_quote_cases c Eq) as [->|[-> Hne]].
        -- rewrite Ascii.eqb_refl in H |- *. split; lia.
        -- rewrite Hne in *. cbn [Nat.add]. exact H.
    + cbn [wellFormed] in Hwf. destruct (Ascii.eqb c q) eqn:Ecq.
      * apply Ascii.eqb_eq in Ecq. subst c.
        apply IH in H; [|exact I]. cbn [accounted count] in *.
        destruct (Ascii.eqb q "'"%char); cbn [Nat.add]; [lia|exact H].
      * destruct (read_literals inCall (InLiteral q) r) as [res'|] eqn:Er;
          [|discriminate].
        inversion H; subst res. apply IH in Er; [|exact Hwf].
        cbn [accounted count] in *.
        destruct (is_quote_cases q Hwf) as [->|[-> Hne]].
        -- rewrite Ascii.eqb_refl in Er |- *.
           rewrite Ecq. cbn [Nat.add]. exact Er.
        -- rewrite Hne in *. rewrite Ecq. cbn [Nat.add].
           destruct (Ascii.eqb c "'"%char); cbn [Nat.add]; split; lia.
    + assert (Hnot : forall st', st' <> InLiteral "'"%char ->
                 (forall q, st' = InLiteral q -> False) ->
                 read_literals inCall st' r = Some res ->
                 Ascii.eqb c "'"%char = false ->
                 accounted AfterLiteral (String c r) res).
      { intros st' _ Hst Hr Hc. apply IH in Hr; [|destruct st'; try exact I].
        - cbn [accounted count]. rewrite Hc. cbn [Nat.add].
          destruct st'; try exact Hr. destruct (Hst q eq_refl).
        - destruct (Hst q eq_refl). }
      destruct (Ref.is_ws c) eqn:Ews.
      * apply (Hnot AfterLiteral); [discriminate|discriminate|exact H|].
        destruct (Ascii.eqb_spec c "'"%char) as [->|_]; [discriminate|reflexivity].
      * destruct (inCall && Ascii.eqb c ","%char) eqn:Ecomma.
        -- apply (Hnot BeforeLiteral); [discriminate|discriminate|exact H|].
           apply andb_true_iff in Ecomma as [_ Ecomma].
           apply Ascii.eqb_eq in Ecomma. now subst c.
        -- destruct (inCall && Ascii.eqb c ")"%char) eqn:Eparen; [|discriminate].
           apply (Hnot AfterCall); [discriminate|discriminate|exact H|].
           apply andb_true_iff in Eparen as [_ Eparen].
           apply Ascii.eqb_eq in Eparen. now subst c.
    + destruct (Ref.is_ws c) eqn:Ews; [|discriminate].
      apply IH in H; [|exact I]. cbn [accounted count] in *.
      destruct (Ascii.eqb_spec c "'"%char) as [->|_]; [discriminate|].
      cbn [Nat.add]. exact H.
Qed.

Lemma String_split_shape c : forall s,
  exists p ps, String_split c s = p :: ps /\ length ps = count c s /\
               count c p = 0%nat /\ Forall (fun x => count c x = 0%nat) ps.
Proof.
  induction s as [|a s (p & ps & Hs & Hl & Hp & Hps)].
  - exists EmptyString, []. repeat split. constructor.
  - cbn [String_split count]. rewrite Hs. destruct (Ascii.eqb a c) eqn:E.
    + exists EmptyString, (p :: ps). repeat split; [cbn; lia|].
      constructor; assumption.
    + exists (String a p), ps. repeat split; [exact Hl| |exact Hps].
      cbn [count]. rewrite E. exact Hp.
Qed.

(** The pieces [escapeXPath] joins: the first part, and each later one
    behind a quoted apostrophe. *)
Definition firstPiece (p : string) : string :=
  (doubleQuote ++ p ++ doubleQuote)%string.

Definition laterPiece (p : string) : string :=
  (doubleQuote ++ apostrophe ++ doubleQuote ++ "," ++ doubleQuote ++ p ++ doubleQuote)%string.

Definition piece (p : string) (i : nat) : string :=
  match i with
  | O => firstPiece p
  | S _ => laterPiece p
  end.

Lemma mapi_later l : forall i, mapi piece (S i) l = map laterPiece l.
Proof. induction l as [|p l IH]; intros i; [reflexivity|]. cbn [mapi map]. now rewrite IH. Qed.

Definition total (c : ascii) (l : list string) : nat :=
  fold_right (fun x n => count c x + n)%nat 0%nat l.

Lemma count_join c l :
  Ascii.eqb ","%char c = false -> count c (Array_join "," l) = total c l.
Proof.
  intros Hc. induction l as [|x l IH]; [reflexivity|].
  destruct l as [|y r].
  - cbn [Array_join total fold_right]. lia.
  - change (Array_join "," (x :: y :: r))
      with (x ++ "," ++ Array_join "," (y :: r))%string.
    rewrite !count_app, IH. cbn [count total fold_right]. rewrite Hc. lia.
Qed.

Lemma total_laterPieces ps :
  Forall (fun x => count "'"%char x = 0%nat) ps ->
  total "'"%char (map laterPiece ps) = length ps.
Proof.
  induction 1 as [|p ps Hp _ IH]; [reflexivity|].
  cbn [map total fold_right length]. fold (total "'"%char (map laterPiece ps)).
  rewrite IH. unfold laterPiece. rewrite !count_app, Hp. reflexivity.
Qed.

Lemma escaped_apostrophes s :
  count "'"%char
        (Array_join "," (mapi piece 0 (String_split "'"%char s)) ++ ")")%string
  = count "'"%char s.
Proof.
  destruct (String_split_shape "'"%char s) as (p & ps & Hs & Hl & Hp & Hps).
  rewrite Hs. cbn [mapi]. rewrite mapi_later, count_app, count_join by reflexivity.
  cbn [total fold_right piece]. fold (total "'"%char (map laterPiece ps)).
  rewrite total_laterPieces by exact Hps.
  unfold firstPiece. rewrite !count_app, Hp, Hl. cbn. lia.
Qed.

Lemma escapeXPath_fallback s :
  includes s apostrophe = true -> includes s doubleQuote = true ->
  escapeXPath s
  = ("concat(" ++ Array_join "," (mapi piece 0 (String_split "'"%char s)) ++ ")")%string.
Proof. intros H1 H2. unfold escapeXPath. now rewrite H1, H2. Qed.

(** X19. [escapeXPath] keeps a string exactly when the string lacks one
    of the two quotes.  Without an apostrophe the result is the string
    between apostrophes, without a double quote the string between
    double quotes, and either is a literal an XPath processor reads back
    as the string.  A string with both an apostrophe and a double quote
    is never read back: what [concat(...)] is built to hold is either
    no XPath expression at all or denotes another string, because the
    parts are put between double quotes although they can contain one. *)
Theorem escapeXPath_denotes s :
  (includes s apostrophe = false ->
   escapeXPath s = (apostrophe ++ s ++ apostrophe)%string /\
   xpath_value (escapeXPath s) = Some s) /\
  (includes s apostrophe = true -> includes s doubleQuote = false ->
   escapeXPath s = (doubleQuote ++ s ++ doubleQuote)%string /\
   xpath_value (escapeXPath s) = Some s) /\
  (includes s apostrophe = true -> includes s doubleQuote = true ->
   xpath_value (escapeXPath s) <> Some s).
Proof.
  split; [|split].
  - intros H. unfold escapeXPath. rewrite H. cbn [negb]. split; [reflexivity|].
    apply xpath_value_literal; [reflexivity|].
    unfold apostrophe in H. rewrite includes_char in H.
    apply negb_false_iff, Nat.eqb_eq in H. exact H.
  - intros H1 H2. unfold escapeXPath. rewrite H1, H2. cbn [negb]. split; [reflexivity|].
    apply xpath_value_literal; [reflexivity|].
    unfold doubleQuote in H2. rewrite includes_char in H2.
    apply negb_false_iff, Nat.eqb_eq in H2. exact H2.
  - intros H1 H2 Hread. rewrite escapeXPath_fallback in Hread by assumption.
    unfold xpath_value in Hread. rewrite after_prefix_app in Hread.
    apply read_accounted in Hread; [|exact I]. cbn [accounted] in Hread.
    destruct Hread as [_ Hdq]. rewrite escaped_apostrophes in Hdq.
    specialize (Hdq eq_refl).
    unfold doubleQuote in H2. rewrite includes_char, Hdq in H2. discriminate.
Qed.

End EscapeXPathFacts.

(** ** [handleBatch]: replies and the numbering of events *)

Section HandleBatchFacts.
Import WebServer.

Context {RT : Runtime}.

(** The value [evObj.event_num] is read from, and whether it is a
    number. *)
Definition hasClientNumber (evJson : json) : bool :=
  let evObj :=
    if String.eqb (typeof evJson) "object" && truthy evJson then evJson else JObj [] in
  match getProp evObj "event_num" with
  | Some (JNum _) => true
  | _ => false
  end.

Lemma parseEvent_unnumbered now req metaData baseNum evJson idx :
  hasClientNumber evJson = false ->
  exists e, parseEvent now req metaData baseNum evJson idx = Some e /\
            event_num e = (baseNum + Z.of_nat idx + 1)%Z.
Proof.
  unfold hasClientNumber, parseEvent. cbv zeta. intros H.
  destruct (getProp _ "event_num") as [[| |r| | |]|]; try discriminate;
    eexists; split; reflexivity.
Qed.

Lemma parse_unnumbered now req metaData baseNum evs : forall i0,
  Forall (fun ev => hasClientNumber ev = false) evs ->
  exists parsed,
    all_some (mapi (fun evJson idx => parseEvent (now idx) req metaData baseNum evJson idx)
                   i0 evs) = Some parsed /\
    map event_num parsed
    = map (fun i => (baseNum + Z.of_nat i + 1)%Z) (seq i0 (length evs)).
Proof.
  induction evs as [|ev evs IH]; intros i0 H.
  - exists []. split; reflexivity.
  - inversion H as [|? ? Hev Hrest]; subst.
    destruct (parseEvent_unnumbered (now i0) req metaData baseNum ev i0 Hev)
      as (e & He & Hn).
    destruct (IH (S i0) Hrest) as (parsed & Hp & Hnums).
    exists (e :: parsed). cbn [mapi all_some]. rewrite He, Hp. split; [reflexivity|].
    cbn [map length seq]. now rewrite Hn, Hnums.
Qed.

Lemma server_numbers n m : forall i,
  map (fun i => (Z.of_nat n + Z.of_nat i + 1)%Z) (seq i m)
  = map Z.of_nat (seq (S n + i) m).
Proof.
  induction m as [|m IH]; intros i; [reflexivity|].
  cbn [seq map]. rewrite IH. f_equal; [lia|].
  now rewrite Nat.add_succ_r.
Qed.

(** The stored numbers are 1, 2, ..., [n], in this order. *)
Definition inSequence (st : Storage) (n : nat) : Prop :=
  map event_num (getEvents st) = map Z.of_nat (seq 1 n).

Lemma inSequence_last st n :
  inSequence st n ->
  match getLastEvent st with Some e => event_num e | None => 0%Z end = Z.of_nat n.
Proof.
  unfold inSequence, getLastEvent, getEvents. intros H.
  destruct n as [|n].
  - destruct (events st); [reflexivity|discriminate].
  - rewrite seq_S, map_app in H. cbn [map] in H.
    destruct (events st) as [|e l] using rev_ind.
    + destruct (map Z.of_nat (seq 1 n)); discriminate.
    + rewrite map_app in H. cbn [map] in H.
      apply app_inj_tail in H as [_ H]. rewrite last_snoc. cbn. exact H.
Qed.

Lemma inSequence_fresh st n k :
  inSequence st n -> (n < k)%nat -> eventExists st (Z.of_nat k) = false.
Proof.
  intros H Hk. destruct (eventExists st (Z.of_nat k)) eqn:E; [|reflexivity].
  apply EventStorageFacts.eventExists_nums in E.
  unfold EventStorageFacts.nums in E. rewrite H in E.
  apply in_map_iff in E as (j & Hj & Hin). apply in_seq in Hin. lia.
Qed.

Lemma addEvents_in_sequence l : forall st n,
  inSequence st n ->
  map event_num l = map Z.of_nat (seq (S n) (length l)) ->
  getEvents (addEvents st l) = getEvents st ++ l /\
  inSequence (addEvents st l) (n + length l).
Proof.
  induction l as [|e l IH]; intros st n Hst Hl.
  - cbn. rewrite app_nil_r, Nat.add_0_r. split; [reflexivity|exact Hst].
  - cbn [map length seq] in Hl. inversion Hl as [[He Hrest]].
    unfold addEvents. cbn [fold_left]. fold (addEvents (addEvent st e) l).
    assert (Hadd : getEvents (addEvent st e) = getEvents st ++ [e]).
    { unfold getEvents. rewrite EventStorageFacts.addEvent_events, He.
      now rewrite (inSequence_fresh st n (S n) Hst) by lia. }
    assert (Hseq : inSequence (addEvent st e) (S n)).
    { unfold inSequence. rewrite Hadd, map_app, Hst, seq_S, map_app. cbn [map].
      now rewrite He. }
    destruct (IH (addEvent st e) (S n) Hseq Hrest) as [H1 H2].
    split.
    + rewrite H1, Hadd, <- app_assoc. reflexivity.
    + cbn [length]. now rewrite Nat.add_succ_r.
Qed.

(** X20. What [handleBatch] answers.  A body that is not JSON is
    answered 400 [Bad JSON]; an empty body, and a body without an array
    under [events], are answered 200 [OK]; in all of these the storage
    is left as it was.  The body [null] is not answered at all: the
    handler fails on it before it replies.  Whatever the request, the
    events stored before stay, in place, and nothing gets matched. *)
Theorem handleBatch_replies now req st :
  (bodyText req <> "" -> JSON_parse (bodyText req) = None ->
   handleBatch now req st = Some (Sent 400 "Bad JSON", st)) /\
  (bodyText req = "" -> handleBatch now req st = Some (Sent 200 "OK", st)) /\
  (bodyText req <> "" -> JSON_parse (bodyText req) = Some JNull ->
   handleBatch now req st
   = Some (Unanswered "Cannot convert undefined or null to object", st)) /\
  (forall root, bodyText req <> "" -> JSON_parse (bodyText req) = Some root ->
                root <> JNull ->
                (forall l, getProp root "events" <> Some (JArr l)) ->
                handleBatch now req st = Some (Sent 200 "OK", st)) /\
  (forall reply st', handleBatch now req st = Some (reply, st') ->
                     (exists added, getEvents st' = getEvents st ++ added) /\
                     matchedEvents st' = matchedEvents st).
Proof.
  split; [|split; [|split; [|split]]].
  - intros Hb Hp. unfold handleBatch.
    apply String.eqb_neq in Hb. now rewrite Hb, Hp.
  - intros Hb. unfold handleBatch. rewrite Hb. reflexivity.
  - intros Hb Hp. unfold handleBatch.
    apply String.eqb_neq in Hb. now rewrite Hb, Hp.
  - intros root Hb Hp Hroot Hev. unfold handleBatch.
    apply String.eqb_neq in Hb. rewrite Hb, Hp. cbv zeta.
    assert (Hnone : match getProp root "events" with
                    | Some (JArr l) => l
                    | _ => []
                    end = []).
    { destruct (getProp root "events") as [[| | | |l|]|]; try reflexivity.
      destruct (Hev l eq_refl). }
    rewrite Hnone. destruct root; try reflexivity. now destruct Hroot.
  - intros reply st' H. unfold handleBatch in H.
    destruct (if String.eqb (bodyText req) "" then Some (JObj []) else _) as [root|];
      [|inversion H; subst; split; [exists []; now rewrite app_nil_r|reflexivity]].
    cbv zeta in H.
    destruct (all_some _) as [parsed|] eqn:Ep.
    + assert (Hst : st' = st \/ st' = addEvents st parsed).
      { destruct root; inversion H; auto. }
      destruct Hst as [->| ->]; [split; [exists []; now rewrite app_nil_r|reflexivity]|].
      split; [|apply EventStorageFacts.addEvents_matched].
      destruct (EventStorageFacts.addEvents_extends parsed st) as (suffix & Hs & _).
      exists suffix. exact Hs.
    + destruct root; inversion H; subst. split; [exists []; now rewrite app_nil_r|reflexivity].
Qed.

(** X21. Numbering by the server.  An event without a numeric
    [event_num] gets the number of the last stored event plus its
    position in the batch.  When the stored numbers are 1 to [n] in
    order and no event of the batch brings a number, every event of the
    batch is stored, in order, and the numbers are then 1 to [n] plus
    the size of the batch: from an empty storage, batches without
    client numbers never lose an event.  The number of the last event is
    not always the largest: when the number after it is taken, by an
    event a client numbered, a batch of one event without a number is
    answered 200 [OK] and the event is dropped. *)
Theorem handleBatch_numbering now req st root evs :
  bodyText req <> "" ->
  JSON_parse (bodyText req) = Some root ->
  getProp root "events" = Some (JArr evs) ->
  Forall (fun ev => hasClientNumber ev = false) evs ->
  (forall n, inSequence st n ->
     exists parsed,
       handleBatch now req st = Some (Sent 200 "OK", addEvents st parsed) /\
       length parsed = length evs /\
       getEvents (addEvents st parsed) = getEvents st ++ parsed /\
       inSequence (addEvents st parsed) (n + length evs)) /\
  (forall lastEvent,
      getLastEvent st = Some lastEvent ->
      eventExists st (event_num lastEvent + 1) = true ->
      length evs = 1%nat ->
      handleBatch now req st = Some (Sent 200 "OK", st)).
Proof.
  intros Hb Hp Hevs Hnone.
  assert (Hroot : root <> JNull) by (intros ->; discriminate).
  apply String.eqb_neq in Hb.
  split.
  - intros n Hseq.
    destruct (parse_unnumbered now req
                (match getProp root "meta" with Some m => m | None => JNull end)
                (Z.of_nat n) evs 0 Hnone) as (parsed & Hparsed & Hnums).
    assert (Hlen : length parsed = length evs).
    { apply (f_equal (@length Z)) in Hnums. now rewrite !length_map, length_seq in Hnums. }
    assert (Hnums' : map event_num parsed = map Z.of_nat (seq (S n) (length parsed))).
    { rewrite Hnums, Hlen, server_numbers, Nat.add_0_r. reflexivity. }
    exists parsed.
    destruct (addEvents_in_sequence parsed st n Hseq Hnums') as [H1 H2].
    rewrite Hlen in H2. split; [|split; [exact Hlen|split; [exact H1|exact H2]]].
    unfold handleBatch. rewrite Hb, Hp. cbv zeta.
    rewrite Hevs, (inSequence_last st n Hseq), Hparsed.
    destruct root; try reflexivity. now destruct Hroot.
  - intros lastEvent Hlast Hexists Hone.
    destruct evs as [|ev [|]]; try discriminate.
    inversion Hnone as [|? ? Hev _]; subst.
    unfold handleBatch. rewrite Hb, Hp. cbv zeta. rewrite Hevs, Hlast.
    cbn [mapi all_some].
    destruct (parseEvent_unnumbered (now 0%nat) req
                (match getProp root "meta" with Some m => m | None => JNull end)
                (event_num lastEvent) ev 0 Hev) as (e & He & Hn).
    rewrite He. cbn [option_map].
    assert (Hsame : addEvents st [e] = st).
    { unfold addEvents. cbn [fold_left]. unfold addEvent.
      rewrite Hn. cbn [Z.of_nat]. rewrite Z.add_0_r, Hexists. reflexivity. }
    rewrite Hsame. destruct root; try reflexivity. now destruct Hroot.
Qed.

End HandleBatchFacts.

(** ** From the matcher to a wait: what a data pattern asks for *)

Section PatternProperties.

Context {RT : Runtime}.

Lemma findKeyValueInTree_inside_iff element key searchValue :
  findKeyValueInTree element key searchValue = true <->
  exists members v, inside (JObj members) element /\ In (key, v) members /\
                    matchJsonElement v searchValue = true.
Proof.
  split.
  - apply (findKeyValueInTree_found_bounded key searchValue (jsize element)). lia.
  - intros (members & v & Hi & Hm & Hv). now apply findKeyValueInTree_inside with members v.
Qed.

(** X22. What a data pattern asks of an event.  When the event text is
    an object whose [body] is the text of an object with an object under
    [event] that has a member [data], and the pattern text is an object,
    [containsJsonData] holds exactly when every member of the pattern is
    found somewhere in the data: some object inside it has a member of
    that name whose value matches.  Each member is looked for on its
    own, so two members of the pattern may be found in different
    objects.  [checkHasEvent] takes an unmatched event of the awaited
    name under the same condition. *)
Theorem containsJsonData_searches_the_data
        eventJson searchJson eventMembers bodyText bodyMembers evMembers dataElement
        patternMembers :
  JSON_parse eventJson = Some (JObj eventMembers) ->
  assoc "body" eventMembers = Some (JStr bodyText) ->
  JSON_parse bodyText = Some (JObj bodyMembers) ->
  assoc "event" bodyMembers = Some (JObj evMembers) ->
  assoc "data" evMembers = Some dataElement ->
  JSON_parse searchJson = Some (JObj patternMembers) ->
  (containsJsonData eventJson searchJson = true <->
   forall key searchValue, In (key, searchValue) patternMembers ->
     exists members v, inside (JObj members) dataElement /\ In (key, v) members /\
                       matchJsonElement v searchValue = true) /\
  (forall st eventName ev d,
      EventStorage.data ev = Some d ->
      JSON_stringify (eventDataJson d) = eventJson ->
      eventJson <> "" -> searchJson <> "" ->
      EventStorage.name ev = eventName ->
      isEventAlreadyMatched st (event_num ev) = false ->
      accepts st eventName (Some searchJson) ev
      = containsJsonData eventJson searchJson).
Proof.
  intros He Hb Hbody Hev Hdata Hs.
  split.
  - assert (Hobj : forall l, notAnObject (JObj l) = false) by reflexivity.
    unfold containsJsonData, tryParseJSON.
    rewrite He, Hobj. cbn [getProp]. rewrite Hb, Hbody, Hobj. cbn [getProp].
    rewrite Hev, Hobj. cbn [getProp]. rewrite Hdata, Hs, Hobj. cbn [Object_entries].
    rewrite forallb_forall. split.
    + intros H key searchValue Hin.
      apply findKeyValueInTree_inside_iff. exact (H (key, searchValue) Hin).
    + intros H [key searchValue] Hin. cbn [fst snd].
      apply findKeyValueInTree_inside_iff. now apply H.
  - intros st eventName ev d Hd Hjson Hne Hpat Hname Hun.
    unfold accepts. rewrite Hun, Hname, String.eqb_refl. cbn [negb noData].
    apply String.eqb_neq in Hpat. rewrite Hpat, Hd, Hjson.
    apply String.eqb_neq in Hne. rewrite Hne. reflexivity.
Qed.

End PatternProperties.

(** * Further scenarios *)

Module FurtherScenarios.
Import Scenarios.

#[local] Existing Instance Scenarios.device.

(** X3, witness: an object with an array and a nested object. *)
Definition nested : json :=
  JObj [("a", JArr [JNum "1"; JStr "x"]); ("b", JObj [("c", JNull)])].

Lemma matchJsonElement_self_witness :
  distinctKeys nested = true /\ matchJsonElement nested nested = true.
Proof.
  split; [reflexivity|]. apply (matchJsonElement_self nested). reflexivity.
Defined.

(** A value with a repeated key does not match itself: the pattern's
    second member is compared with the candidate's first. *)
Example repeated_key_misses_itself :
  matchJsonElement (JObj [("a", JNum "1"); ("a", JNum "2")])
                   (JObj [("a", JNum "1"); ("a", JNum "2")]) = false.
Proof. reflexivity. Qed.

(** X9, witness: two stored events named ["X"] around one named ["Y"];
    of three waits the first two resolve. *)
Definition eventX3 : Event :=
  {| event_time := "2026-01-01T00:00:02.000Z"; event_num := 3; name := "X"; data := None |}.

Definition log2 : Storage := addEvents empty [eventX; eventY; eventX3].

Lemma checkHasEvent_first_come_first_served_witness :
  NoDup (map event_num (getEvents log2)) /\
  waits 2 "X" None 15 [[]] log2
  = ([Resolved; Resolved], markEventAsMatched (markEventAsMatched log2 1) 3) /\
  fst (waits 3 "X" None 15 [[]] log2)
  = [Resolved; Resolved; Rejected (timeoutMessage "X" None 15)].
Proof.
  assert (Hnd : NoDup (map event_num (getEvents log2))).
  { apply NoDup_ListNoDup. repeat constructor; cbn; intuition discriminate. }
  pose proof (checkHasEvent_first_come_first_served "X" None 15 [] [] log2 Hnd)
    as [Hserve Hquiet].
  split; [exact Hnd|]. split.
  - exact (Hserve 2%nat (Nat.le_refl 2)).
  - apply (Hquiet ltac:(repeat constructor) 1%nat).
Defined.

(** X11, witness: the search that finds two elements at once. *)
Lemma findAllByLocator_polling_witness :
  findAllByLocator (Selector "//item") 10 1000 start
  = (Ok [ElementRef "first"; ElementRef "second"], afterOneSearch) /\
  exists w0, search (Selector "//item") w0
             = (Ok [ElementRef "first"; ElementRef "second"], afterOneSearch).
Proof.
  split; [reflexivity|].
  exact (proj2 (proj2 (proj2 (proj2
           (findAllByLocator_polling (Selector "//item") 10 1000 start _ _ eq_refl))))
         _ _ eq_refl).
Defined.

Example search_gives_up_at_the_deadline :
  findAllByLocator (Selector "//absent") 2 1000 start
  = (Ok [],
     {| dev := tt; clock := 2010;
        issued := [Issue (FindAll "//absent"); Issue (FindAll "//absent")] |}).
Proof. reflexivity. Qed.

(** X14, witness: two scrolls down of the whole window. *)
Definition afterTwoScrolls : World :=
  {| dev := tt; clock := 25;
     issued := [Issue GetWindowSize;
                Issue (PerformActions [pointerMove 0 540 1440; pointerDown 0;
                                       pause 500; pointerMove 500 540 0; pointerUp 0]);
                Issue ReleaseActions;
                Issue (PerformActions [pointerMove 0 540 1440; pointerDown 0;
                                       pause 500; pointerMove 500 540 0; pointerUp 0]);
                Issue ReleaseActions] |}.

Lemma performScroll_window_trace_witness :
  performScroll None 2 1 Down start = (Ok tt, afterTwoScrolls) /\
  capacityInRange 1 = true /\
  exists size w1,
    call GetWindowSize start = (Ok size, w1) /\
    issued afterTwoScrolls
    = issued start ++ Issue GetWindowSize
        :: concat (repeat [Issue (PerformActions (windowGesture size 1 Down));
                           Issue ReleaseActions] (Z.to_nat 2)).
Proof.
  split; [reflexivity|].
  exact (performScroll_window_trace 2 1 Down start afterTwoScrolls eq_refl).
Defined.

(** X15, witness: a scroll up in a window of 1080 by 1920 at half
    capacity, and a swipe in the element's rectangle. *)
Lemma gestures_stay_inside_witness :
  (0 <= 1080)%Q /\ (0 <= 1920)%Q /\ capacityInRange (1 # 2) = true /\
  exists across from to,
    scrollInWindow {| width := 1080; height := 1920 |} (1 # 2) Up
    = touchAndMoveVertical across from to /\
    (0 <= from <= 1920)%Z /\ (0 <= to <= 1920)%Z /\ (from <= to)%Z.
Proof.
  assert (Hw : (0 <= 1080)%Q) by discriminate.
  assert (Hh : (0 <= 1920)%Q) by discriminate.
  split; [exact Hw|]. split; [exact Hh|]. split; [reflexivity|].
  exact (proj1 (gestures_stay_inside {| width := 1080; height := 1920 |}
                  {| x := 0; y := 0 |} (1 # 2) Up Hw Hh eq_refl)).
Defined.

Example scroll_up_at_half_capacity :
  scrollInWindow {| width := 1080; height := 1920 |} (1 # 2) Up
  = touchAndMoveVertical 540 240 960.
Proof. reflexivity. Qed.

(** X18, witness: a page that does not change is stable after one
    polling interval. *)
Definition stableWorld : World :=
  {| dev := tt; clock := 1010; issued := [Issue GetPageSource; Issue GetPageSource] |}.

Lemma waitForUIStable_stable_or_late_witness :
  waitForUIStable 1 1000 start = (Ok tt, stableWorld) /\
  (((1 <= 0)%Z /\ stableWorld = start) \/
   ((0 < 1)%Z /\
    ((1 * 1000 <= clock stableWorld - clock start)%Z \/
     exists w0 w1 source,
       call GetPageSource w0 = (Ok source, w1) /\
       call GetPageSource (snd (sleep 1000 w1)) = (Ok source, stableWorld)))).
Proof.
  split; [reflexivity|].
  exact (waitForUIStable_stable_or_late 1 1000 start stableWorld eq_refl).
Defined.

(** A tap is made although its condition never holds. *)
Example tap_after_a_condition_that_never_holds :
  tapArea 10 20 1 (Some (ret false)) start
  = (Ok tt,
     {| dev := tt; clock := 1010;
        issued := [Issue (PerformActions [pointerMove 0 10 20; pointerDown 0; pointerUp 0]);
                   Issue ReleaseActions] |}).
Proof. reflexivity. Qed.

Example checkVisible_asks_twice :
  checkVisible (Some item) None 0 10 1000 0 1 Down start
  = (Ok tt,
     {| dev := tt; clock := 15;
        issued := [Issue (FindAll "//item");
                   Issue (IsDisplayed (ElementRef "first"));
                   Issue (IsDisplayed (ElementRef "first"))] |}).
Proof. reflexivity. Qed.

(** An element made for iOS only, looked for on Android. *)
Example other_platform_has_no_locators :
  waitForElements (Some (PageElementFactories.byIOSClassChain "**/XCUIElementTypeButton"))
                  None 0 10 1000 0 1 Down start
  = (Throw "Элементы не найдены за '10' секунд после '0' скроллов. Локаторов нет", start).
Proof. reflexivity. Qed.

(** A text with an apostrophe and a double quote, and what
    [escapeXPath] makes of it. *)
Definition bothQuotes : string :=
  ("a'b" ++ PageElementFactories.doubleQuote ++ "c")%string.

Example both_quotes_are_not_read_back :
  PageElementFactories.xpath_value (PageElementFactories.escapeXPath bothQuotes) = None.
Proof. reflexivity. Qed.

Example apostrophe_is_read_back :
  PageElementFactories.xpath_value (PageElementFactories.escapeXPath "it's") = Some "it's".
Proof. reflexivity. Qed.

(** X21, witness: a batch of two events without numbers on the empty
    storage; then, after a client has numbered two events 2 and 1, a
    batch of one event without a number, which is dropped. *)
Definition text (s : string) : string :=
  (PageElementFactories.doubleQuote ++ s ++ PageElementFactories.doubleQuote)%string.

Definition request (body : string) : WebServer.Request :=
  {| WebServer.url_toString := "http://127.0.0.1:8000/m/batch";
     WebServer.url_search := "";
     WebServer.socket_remoteAddress := Some "127.0.0.1";
     WebServer.req_headers := [];
     WebServer.bodyText := body |}.

Definition twoUnnumbered : string :=
  ("{" ++ text "events" ++ ":[{" ++ text "name" ++ ":" ++ text "A" ++ "},{"
     ++ text "name" ++ ":" ++ text "B" ++ "}]}")%string.

Definition clientNumbered : string :=
  ("{" ++ text "events" ++ ":[{" ++ text "event_num" ++ ":2},{"
     ++ text "event_num" ++ ":1}]}")%string.

Definition oneUnnumbered : string :=
  ("{" ++ text "events" ++ ":[{" ++ text "name" ++ ":" ++ text "C" ++ "}]}")%string.

Definition at_noon (i : nat) : string := "2026-01-01T12:00:00.000Z".

Definition afterClient : Storage :=
  match WebServer.handleBatch at_noon (request clientNumbered) empty with
  | Some (_, st) => st
  | None => empty
  end.

Example client_numbers_are_kept :
  map event_num (getEvents afterClient) = [2%Z; 1%Z].
Proof. reflexivity. Qed.

Lemma handleBatch_numbering_witness :
  (exists parsed,
      WebServer.handleBatch at_noon (request twoUnnumbered) empty
      = Some (WebServer.Sent 200 "OK", addEvents empty parsed) /\
      length parsed = 2%nat /\
      getEvents (addEvents empty parsed) = getEvents empty ++ parsed /\
      inSequence (addEvents empty parsed) (0 + 2)) /\
  WebServer.handleBatch at_noon (request oneUnnumbered) afterClient
  = Some (WebServer.Sent 200 "OK", afterClient).
Proof.
  split.
  - refine (proj1 (handleBatch_numbering at_noon (request twoUnnumbered) empty
                     (JObj [("events", JArr [JObj [("name", JStr "A")];
                                             JObj [("name", JStr "B")]])])
                     [JObj [("name", JStr "A")]; JObj [("name", JStr "B")]]
                     _ eq_refl eq_refl _) 0%nat eq_refl).
    + discriminate.
    + repeat constructor.
  - refine (proj2 (handleBatch_numbering at_noon (request oneUnnumbered) afterClient
                     (JObj [("events", JArr [JObj [("name", JStr "C")]])])
                     [JObj [("name", JStr "C")]]
                     _ eq_refl eq_refl _)
                  {| event_time := "2026-01-01T12:00:00.000Z"; event_num := 1;
                     name := "UNKNOWN";
                     data := EventStorage.data
                               (match getLastEvent afterClient with
                                | Some e => e
                                | None => eventX
                                end) |}
                  eq_refl eq_refl eq_refl).
    + discriminate.
    + repeat constructor.
Defined.

(** X22, witness: the envelope around [{"x":1}] and the pattern
    [{"x":1}]. *)
Lemma containsJsonData_searches_the_data_witness :
  JSON_parse x1_text = Some (JObj [("x", JNum "1")]) /\
  containsJsonData envelope_text x1_text = true.
Proof.
  split; [reflexivity|].
  refine (proj2 (proj1 (containsJsonData_searches_the_data
                          envelope_text x1_text
                          [("body", JStr (JSON_stringify
                                            (JObj [("event",
                                                    JObj [("data",
                                                           JObj [("x", JNum "1")])])])))]
                          (JSON_stringify
                             (JObj [("event", JObj [("data", JObj [("x", JNum "1")])])]))
                          [("event", JObj [("data", JObj [("x", JNum "1")])])]
                          [("data", JObj [("x", JNum "1")])]
                          (JObj [("x", JNum "1")])
                          [("x", JNum "1")]
                          eq_refl eq_refl eq_refl eq_refl eq_refl eq_refl)) _).
  intros key searchValue [Heq|[]]. inversion Heq; subst.
  exists [("x", JNum "1")], (JNum "1").
  split; [apply inside_here|]. split; [now left|reflexivity].
Defined.

(** Two members of a pattern found in different objects of the data. *)
Example members_are_searched_one_by_one :
  findKeyValueInTree (JObj [("a", JObj [("x", JNum "1")]); ("b", JObj [("y", JNum "2")])])
                     "x" (JNum "1")
  && findKeyValueInTree (JObj [("a", JObj [("x", JNum "1")]); ("b", JObj [("y", JNum "2")])])
                        "y" (JNum "2") = true.
Proof. reflexivity. Qed.

End FurtherScenarios.
